(** * The driver session of cpp-driver: connection pool, counters, dispatch

    A shallow embedding of [src/cql/internal/cql_session_impl.cpp].
    The session is a record of its members; every member function becomes
    a function on that record.  Connections and connection collections are
    held through [boost::shared_ptr] in the source, so the model keeps the
    connection objects in one store keyed by their id and lets the pool,
    the trashcan and the callers refer to them by id. *)

From stdpp Require Import gmap strings list fin_maps pretty.

Open Scope Z_scope.

(** ** Collaborators of the session *)

(** Modelled from the spec: [cql_endpoint_t] (its header is not part of the
    sources): a [(host, port)] pair, equality-comparable and hashable. *)
Record cql_endpoint_t := mk_endpoint { address : string; port : Z }.

#[global] Instance cql_endpoint_eq_dec : EqDecision cql_endpoint_t.
Proof. solve_decision. Defined.

#[global] Instance cql_endpoint_countable : Countable cql_endpoint_t.
Proof.
  refine (inj_countable' (λ e, (address e, port e))
                         (λ p, mk_endpoint p.1 p.2) _).
  by intros [].
Defined.

Definition endpoint_to_string (e : cql_endpoint_t) : string :=
  address e +:+ ":" +:+ pretty (port e).

(** [cql_uuid_t]: the process-unique id of a connection. *)
Abbreviation cql_uuid_t := N.

(** A [boost::shared_ptr<cql_connection_t>]: null, or the id of a
    connection object in the store. *)
Abbreviation connection_ptr := (option N).

Inductive cql_host_distance_enum :=
| CQL_HOST_DISTANCE_LOCAL
| CQL_HOST_DISTANCE_REMOTE
| CQL_HOST_DISTANCE_IGNORE.

(** Modelled from the spec: [cql_host_t], read but never mutated by the
    session; [distance] stands for [host->distance(policies)]. *)
Record cql_host_t := mk_host {
  endpoint : cql_endpoint_t;
  is_considerably_up : bool;
  distance : cql_host_distance_enum
}.

(** Modelled from the spec: [cql_pooling_options_t], the four per-distance
    thresholds the session reads. *)
Record cql_pooling_options_t := mk_pooling {
  core_connections_per_host : cql_host_distance_enum → Z;
  max_connection_per_host : cql_host_distance_enum → Z;
  max_simultaneous_requests_per_connection_treshold : cql_host_distance_enum → Z;
  min_simultaneous_requests_per_connection_treshold : cql_host_distance_enum → Z
}.

(** Modelled from the spec: the configuration, as far as the session reads
    it.  [new_query_plan] is the plan handed out by the load balancing
    policy, as the sequence of hosts [next_host_to_query] walks through. *)
Record cql_configuration_t := mk_configuration {
  pooling_options : cql_pooling_options_t;
  new_query_plan : list cql_host_t
}.

(** Modelled from the spec: [cql_stream_t], a stream handle;
    [cql_stream_t()] is the invalid one. *)
Inductive cql_stream_t :=
| stream_invalid
| stream_id (n : Z).

Definition is_invalid (st : cql_stream_t) : bool :=
  match st with stream_invalid => true | stream_id _ => false end.

(** Modelled from the spec: [cql_connection_t], the per-connection engine.
    It owns its endpoint, the free stream ids, the count of requests in
    flight and the health flag; [conn_closed] records that [close] ran. *)
Record cql_connection_t := mk_connection {
  conn_endpoint : cql_endpoint_t;
  conn_healthy : bool;
  conn_closed : bool;
  conn_free_streams : list Z;
  conn_in_flight : Z
}.

Definition is_healthy (c : cql_connection_t) : bool := conn_healthy c.

(** Modelled from the spec: the "busy" watermark,
    [not busy  <->  in_flight < max]. *)
Definition is_busy (c : cql_connection_t) (max : Z) : bool :=
  negb (conn_in_flight c <? max).

(** Modelled from the spec: the "idle" watermark, [in_flight <= min]. *)
Definition is_free (c : cql_connection_t) (min : Z) : bool :=
  conn_in_flight c <=? min.

(** Modelled from the spec: stream acquisition; the invalid stream is the
    sentinel returned when no stream id is free. *)
Definition acquire_stream (c : cql_connection_t) : cql_stream_t * cql_connection_t :=
  match conn_free_streams c with
  | [] => (stream_invalid, c)
  | i :: rest =>
      (stream_id i,
       mk_connection (conn_endpoint c) (conn_healthy c) (conn_closed c)
                     rest (conn_in_flight c + 1))
  end.

Definition release_stream (st : cql_stream_t) (c : cql_connection_t) : cql_connection_t :=
  match st with
  | stream_invalid => c
  | stream_id i =>
      mk_connection (conn_endpoint c) (conn_healthy c) (conn_closed c)
                    (i :: conn_free_streams c) (conn_in_flight c - 1)
  end.

Definition connection_close (c : cql_connection_t) : cql_connection_t :=
  mk_connection (conn_endpoint c) (conn_healthy c) true
                (conn_free_streams c) (conn_in_flight c).

(** Modelled from the spec: the connection a [_client_callback()] hands out
    once it is dialled to [ep]: healthy, nothing in flight, stream ids
    1..127 free (id 0 is reserved for server events). *)
Definition fresh_connection (ep : cql_endpoint_t) : cql_connection_t :=
  mk_connection ep true false (seqZ 1 127) 0.

(** Modelled from the spec: requests as the session sees them, a query
    text and the stream it was assigned to. *)
Record cql_query_t := mk_query {
  query_string : string;
  query_stream : cql_stream_t
}.

Definition set_stream (st : cql_stream_t) (q : cql_query_t) : cql_query_t :=
  mk_query (query_string q) st.

Record cql_execute_t := mk_execute { prepared_id : string }.

(** What a connection was asked to do; the session's only trace of the
    member function it called on a connection. *)
Inductive connection_call :=
| call_query (q : cql_query_t)
| call_prepare (q : cql_query_t)
| call_execute (m : cql_execute_t).

Record cql_error_t := mk_error {
  library : bool;
  message : string
}.

(** A [shared_future<cql_future_result_t>]: either the pending answer of a
    request submitted to a connection, or a value set by the session. *)
Inductive cql_future_result :=
| future_of (conn : N) (call : connection_call)
| future_error (e : cql_error_t).

(** ** The session *)

Record cql_session_impl_t := mk_session {
  _ready : bool;
  _defunct : bool;
  (** whether a [_ready_callback] was registered, and how often it ran *)
  _ready_callback : bool;
  ready_callback_calls : nat;
  _configuration : cql_configuration_t;
  (** endpoint -> ids of its pooled connections, in iteration order *)
  _connection_pool : gmap cql_endpoint_t (list N);
  (** endpoint -> its [connection_counter_t], an atomic integer, kept as
      an integer without bound *)
  _connection_counters : gmap cql_endpoint_t Z;
  (** endpoint -> trashed connections, most recent first *)
  _trashcan : gmap cql_endpoint_t (list N);
  (** the connection objects behind the shared pointers *)
  connection_store : gmap N cql_connection_t;
  (** how many connections [_client_callback] has produced (next id) *)
  client_callback_calls : N;
  (** which endpoints answer a dial: the outcome of the connect-future *)
  dial_succeeds : cql_endpoint_t → bool;
  (** the dials made so far, most recent first: the endpoint, and whether
      the connect-future resolved without error *)
  dial_log : list (cql_endpoint_t * bool);
  (** calls made on connections, most recent first *)
  connection_calls : list (N * connection_call)
}.

Definition with_flags (ready defunct : bool) (calls : nat)
    (s : cql_session_impl_t) : cql_session_impl_t :=
  mk_session ready defunct (_ready_callback s) calls (_configuration s)
    (_connection_pool s) (_connection_counters s) (_trashcan s)
    (connection_store s) (client_callback_calls s) (dial_succeeds s)
    (dial_log s) (connection_calls s).

Definition with_pool (pool : gmap cql_endpoint_t (list N))
    (s : cql_session_impl_t) : cql_session_impl_t :=
  mk_session (_ready s) (_defunct s) (_ready_callback s)
    (ready_callback_calls s) (_configuration s) pool
    (_connection_counters s) (_trashcan s) (connection_store s)
    (client_callback_calls s) (dial_succeeds s) (dial_log s)
    (connection_calls s).

Definition with_counters (counters : gmap cql_endpoint_t Z)
    (s : cql_session_impl_t) : cql_session_impl_t :=
  mk_session (_ready s) (_defunct s) (_ready_callback s)
    (ready_callback_calls s) (_configuration s) (_connection_pool s)
    counters (_trashcan s) (connection_store s) (client_callback_calls s)
    (dial_succeeds s) (dial_log s) (connection_calls s).

Definition with_trashcan (trash : gmap cql_endpoint_t (list N))
    (s : cql_session_impl_t) : cql_session_impl_t :=
  mk_session (_ready s) (_defunct s) (_ready_callback s)
    (ready_callback_calls s) (_configuration s) (_connection_pool s)
    (_connection_counters s) trash (connection_store s)
    (client_callback_calls s) (dial_succeeds s) (dial_log s)
    (connection_calls s).

Definition with_store (store : gmap N cql_connection_t)
    (s : cql_session_impl_t) : cql_session_impl_t :=
  mk_session (_ready s) (_defunct s) (_ready_callback s)
    (ready_callback_calls s) (_configuration s) (_connection_pool s)
    (_connection_counters s) (_trashcan s) store (client_callback_calls s)
    (dial_succeeds s) (dial_log s) (connection_calls s).

Definition with_client_callback_calls (n : N)
    (s : cql_session_impl_t) : cql_session_impl_t :=
  mk_session (_ready s) (_defunct s) (_ready_callback s)
    (ready_callback_calls s) (_configuration s) (_connection_pool s)
    (_connection_counters s) (_trashcan s) (connection_store s) n
    (dial_succeeds s) (dial_log s) (connection_calls s).

Definition with_dial_log (log : list (cql_endpoint_t * bool))
    (s : cql_session_impl_t) : cql_session_impl_t :=
  mk_session (_ready s) (_defunct s) (_ready_callback s)
    (ready_callback_calls s) (_configuration s) (_connection_pool s)
    (_connection_counters s) (_trashcan s) (connection_store s)
    (client_callback_calls s) (dial_succeeds s) log (connection_calls s).

Definition with_connection_calls (calls : list (N * connection_call))
    (s : cql_session_impl_t) : cql_session_impl_t :=
  mk_session (_ready s) (_defunct s) (_ready_callback s)
    (ready_callback_calls s) (_configuration s) (_connection_pool s)
    (_connection_counters s) (_trashcan s) (connection_store s)
    (client_callback_calls s) (dial_succeeds s) (dial_log s) calls.

(** The session its constructor builds: not ready, not defunct, nothing
    pooled, no counter, an empty trashcan. *)
Definition new_session (callback_set : bool) (cfg : cql_configuration_t)
    (dial : cql_endpoint_t → bool) : cql_session_impl_t :=
  mk_session false false callback_set 0%nat cfg ∅ ∅ ∅ ∅ 0%N dial [] [].

(** ** Exceptions, assertions and state: the monad the member functions run in *)

Inductive cql_exn :=
| cql_exception (what : string)
| cql_too_many_connections_per_host_exception.

(** A call returns, leaves by a C++ exception, or dies in [assert]. *)
Inductive outcome (A : Type) :=
| Returned (a : A)
| Thrown (e : cql_exn)
| Aborted.
Arguments Returned {A} a.
Arguments Thrown {A} e.
Arguments Aborted {A}.

Definition M (A : Type) : Type :=
  cql_session_impl_t → outcome A * cql_session_impl_t.

Definition ret {A} (a : A) : M A := λ s, (Returned a, s).
Definition throw {A} (e : cql_exn) : M A := λ s, (Thrown e, s).
Definition abort {A} : M A := λ s, (Aborted, s).

Definition bind {A B} (m : M A) (k : A → M B) : M B :=
  λ s, match m s with
       | (Returned a, s') => k a s'
       | (Thrown e, s') => (Thrown e, s')
       | (Aborted, s') => (Aborted, s')
       end.

(** [assert(e)] of <cassert>, assertions compiled in. *)
Definition assert (b : bool) : M unit :=
  if b then ret tt else abort.

Notation "'let*' x := m 'in' k" := (bind m (λ x, k))
  (at level 10, x pattern, m at level 100, k at level 200,
   format "'[v' 'let*'  x  :=  m  'in' '/' k ']'").

(** ** Connection objects behind shared pointers *)

Definition deref (s : cql_session_impl_t) (id : N) : option cql_connection_t :=
  connection_store s !! id.

Definition update_connection (id : N) (f : cql_connection_t → cql_connection_t)
    (s : cql_session_impl_t) : cql_session_impl_t :=
  with_store (alter f id (connection_store s)) s.

(** [conn->acquire_stream()] through a shared pointer. *)
Definition connection_acquire_stream (id : N) (s : cql_session_impl_t)
    : cql_stream_t * cql_session_impl_t :=
  match deref s id with
  | None => (stream_invalid, s)
  | Some c =>
      let '(stream, c') := acquire_stream c in
      (stream, update_connection id (λ _, c') s)
  end.

(** [conn->query(q)], [conn->prepare(q)], [conn->execute(m)]: the session
    only hands the request over; the model records the call and returns the
    future of its answer. *)
Definition connection_submit (id : N) (call : connection_call)
    (s : cql_session_impl_t) : cql_future_result * cql_session_impl_t :=
  (future_of id call, with_connection_calls ((id, call) :: connection_calls s) s).

(** ** The concurrent maps: [try_add], [try_get], [try_erase] *)

(** Modelled from the spec: the concurrent maps of the session (their
    headers are not part of the sources).  [try_add] rejects a key that is
    present, [try_get] looks a key up, [try_erase] removes a key and tells
    whether it was there. *)

Definition try_add {K V} `{Countable K} (k : K) (v : V) (m : gmap K V)
    : bool * gmap K V :=
  match m !! k with
  | Some _ => (false, m)
  | None => (true, <[k := v]> m)
  end.

Definition try_get {K V} `{Countable K} (k : K) (m : gmap K V) : option V :=
  m !! k.

(** Modelled from the spec: a connections collection
    ([cql_connections_collection_t]) maps a connection id to the connection;
    it is kept as the list of its keys in iteration order, the values being
    the objects in the store. *)
Definition collection_try_add (id : N) (c : list N) : bool * list N :=
  if bool_decide (id ∈ c) then (false, c) else (true, c ++ [id]).

Definition collection_try_erase (id : N) (c : list N) : bool * list N :=
  if bool_decide (id ∈ c) then (true, filter (λ x, x ≠ id) c) else (false, c).

Definition collection_of (s : cql_session_impl_t) (ep : cql_endpoint_t) : list N :=
  default [] (_connection_pool s !! ep).

Definition set_collection (ep : cql_endpoint_t) (c : list N)
    (s : cql_session_impl_t) : cql_session_impl_t :=
  with_pool (<[ep := c]> (_connection_pool s)) s.

(** ** Connection accounting *)

(** [free_connection]: a null pointer is ignored; otherwise the connection
    is closed and, when its endpoint has a counter, the counter goes down. *)
Definition free_connection (connection : connection_ptr)
    (s : cql_session_impl_t) : cql_session_impl_t :=
  match connection with
  | None => s
  | Some id =>
      match deref s id with
      | None => s
      | Some c =>
          let connection_endpoint := conn_endpoint c in
          let s := update_connection id connection_close s in
          match try_get connection_endpoint (_connection_counters s) with
          | Some counter =>
              with_counters
                (<[connection_endpoint := counter - 1]> (_connection_counters s)) s
          | None => s
          end
      end
  end.

Definition get_max_connections_number (host : cql_host_t)
    (s : cql_session_impl_t) : Z :=
  max_connection_per_host (pooling_options (_configuration s)) (distance host).

(** [increase_connection_counter]: a first counter for the endpoint starts
    at 1 and is accepted as it is; an existing counter is incremented and,
    when that exceeds the maximum, decremented again.  The counter is kept
    as an integer without bound, so its cast to [long] is the counter
    itself: this is the source's comparison as long as the incremented
    counter is a value of [long]. *)
Definition increase_connection_counter (host : cql_host_t) : M bool :=
  λ s,
  let endpoint := endpoint host in
  let max_connections := get_max_connections_number host s in
  match try_add endpoint 1 (_connection_counters s) with
  | (true, counters) => (Returned true, with_counters counters s)
  | (false, counters) =>
      match try_get endpoint counters with
      | None => (Aborted, s)
      | Some counter =>
          let incremented := counter + 1 in
          let s := with_counters (<[endpoint := incremented]> counters) s in
          if incremented >? max_connections then
            (Returned false,
             with_counters
               (<[endpoint := incremented - 1]> (_connection_counters s)) s)
          else (Returned true, s)
      end
  end.

Definition decrease_connection_counter (host : cql_host_t) : M bool :=
  λ s,
  match try_get (endpoint host) (_connection_counters s) with
  | Some counter =>
      (Returned true,
       with_counters (<[endpoint host := counter - 1]> (_connection_counters s)) s)
  | None => (Returned false, s)
  end.

(** [connect_callback]: what a connection calls when its dial succeeded. *)
Definition connect_callback (s : cql_session_impl_t) : cql_session_impl_t :=
  let s := with_flags (_ready s) false (ready_callback_calls s) s in
  let s := with_flags true (_defunct s) (ready_callback_calls s) s in
  if _ready_callback s then
    with_flags (_ready s) (_defunct s) (S (ready_callback_calls s)) s
  else s.

(** [_client_callback()]: a new connection object under a new id. *)
Definition client_callback (ep : cql_endpoint_t) : M N :=
  λ s,
  let id := client_callback_calls s in
  let s := with_client_callback_calls (id + 1)%N s in
  (Returned id, with_store (<[id := fresh_connection ep]> (connection_store s)) s).

(** [connection->connect(endpoint, callback, errback)] followed by
    [shared_future.wait()]: the dial either succeeds, and the connection runs
    [connect_callback], or the future resolves with an error.  The result is
    [shared_future.get().error.is_err()].  On the error side only the
    resolution of the future is modelled: [connect_errback] works on a
    client list that no other member function fills, and touches neither
    the pool, the counters nor the tried hosts. *)
Definition connection_connect (ep : cql_endpoint_t) : M bool :=
  λ s,
  let ok := dial_succeeds s ep in
  let s := with_dial_log ((ep, ok) :: dial_log s) s in
  if ok then (Returned false, connect_callback s)
  else (Returned true, s).

Definition allocate_connection (host : cql_host_t) : M connection_ptr :=
  let* increased := increase_connection_counter host in
  if negb increased then throw cql_too_many_connections_per_host_exception
  else
    let* connection := client_callback (endpoint host) in
    let* is_err := connection_connect (endpoint host) in
    if is_err then
      let* _ := decrease_connection_counter host in
      throw (cql_exception
               ("cannot connect to host: " +:+ endpoint_to_string (endpoint host)))
    else ret (Some connection).

(** ** The pool and the trashcan *)

(** [add_to_connection_pool]: the collection of the endpoint, installed
    empty on a miss.  The shared pointer it returns is the pool entry
    itself, so callers address the collection by its endpoint. *)
Definition add_to_connection_pool (host_address : cql_endpoint_t)
    (s : cql_session_impl_t) : cql_session_impl_t :=
  match try_get host_address (_connection_pool s) with
  | Some _ => s
  | None => with_pool (try_add host_address [] (_connection_pool s)).2 s
  end.

(** Modelled from the spec: [cql_trashcan_t::put], a deposit under the
    connection's endpoint (the timer that reaps old entries is not part of
    the model). *)
Definition trashcan_put (id : N) (s : cql_session_impl_t) : cql_session_impl_t :=
  match deref s id with
  | None => s
  | Some c =>
      let ep := conn_endpoint c in
      with_trashcan (<[ep := id :: default [] (_trashcan s !! ep)]> (_trashcan s)) s
  end.

(** Modelled from the spec: [cql_trashcan_t::recycle], the most recently
    deposited connection of the endpoint, or none. *)
Definition trashcan_recycle (ep : cql_endpoint_t)
    (s : cql_session_impl_t) : connection_ptr * cql_session_impl_t :=
  match default [] (_trashcan s !! ep) with
  | [] => (None, s)
  | id :: rest => (Some id, with_trashcan (<[ep := rest]> (_trashcan s)) s)
  end.

Definition try_remove_connection (connections : cql_endpoint_t) (connection_id : N)
    (s : cql_session_impl_t) : cql_session_impl_t :=
  match collection_try_erase connection_id (collection_of s connections) with
  | (true, c) => free_connection (Some connection_id) (set_collection connections c s)
  | (false, _) => s
  end.

(** One turn of the loop of [try_find_free_stream] on the connection [conn_id]
    of the collection [connections]: [Some] result ends the loop with the
    connection and its stream, [None] goes on to the next connection. *)
Definition try_find_free_stream_body (host : cql_host_t)
    (connections : cql_endpoint_t) (conn_id : N) (s : cql_session_impl_t)
    : option (N * cql_stream_t) * cql_session_impl_t :=
  let pooling_options := pooling_options (_configuration s) in
  let distance := distance host in
  match deref s conn_id with
  | None => (None, s)
  | Some conn =>
      if negb (is_healthy conn) then
        (None, try_remove_connection connections conn_id s)
      else if negb (is_busy conn
                 (max_simultaneous_requests_per_connection_treshold pooling_options distance))
      then
        let '(stream, s) := connection_acquire_stream conn_id s in
        if negb (is_invalid stream) then (Some (conn_id, stream), s)
        else (None, s)
      else if Z.of_nat (length (collection_of s connections))
                >? core_connections_per_host pooling_options distance
      then
        if is_free conn
             (min_simultaneous_requests_per_connection_treshold pooling_options distance)
        then
          match collection_try_erase conn_id (collection_of s connections) with
          | (true, c) => (None, trashcan_put conn_id (set_collection connections c s))
          | (false, _) => (None, s)
          end
        else (None, s)
      else (None, s)
  end.

Fixpoint try_find_free_stream_loop (host : cql_host_t)
    (connections : cql_endpoint_t) (ids : list N) (s : cql_session_impl_t)
    : connection_ptr * cql_stream_t * cql_session_impl_t :=
  match ids with
  | [] => (None, stream_invalid, s)
  | conn_id :: ids =>
      match try_find_free_stream_body host connections conn_id s with
      | (Some (conn, stream), s) => (Some conn, stream, s)
      | (None, s) => try_find_free_stream_loop host connections ids s
      end
  end.

(** [try_find_free_stream]: the loop runs over the connections the
    collection holds when the iteration starts. *)
Definition try_find_free_stream (host : cql_host_t) (connections : cql_endpoint_t)
    (s : cql_session_impl_t) : connection_ptr * cql_stream_t * cql_session_impl_t :=
  try_find_free_stream_loop host connections (collection_of s connections) s.

(** ** Dispatch *)

(** What [connect] leaves to its caller: how the call ended, and the
    [tried_hosts] list it was given, which it extends in place. *)
Record connect_result := mk_connect_result {
  connect_outcome : outcome (connection_ptr * cql_stream_t);
  tried_hosts : list cql_endpoint_t;
  session_after : cql_session_impl_t
}.

Definition no_host_available : cql_exn :=
  cql_exception "no host is available according to load balancing policy.".

Fixpoint connect (query_plan : list cql_host_t) (tried_hosts : list cql_endpoint_t)
    (s : cql_session_impl_t) : connect_result :=
  match query_plan with
  | [] => mk_connect_result (Thrown no_host_available) tried_hosts s
  | host :: query_plan =>
      if negb (is_considerably_up host) then connect query_plan tried_hosts s
      else
        let host_address := endpoint host in
        let tried_hosts := tried_hosts ++ [host_address] in
        let s := add_to_connection_pool host_address s in
        let connections := host_address in
        match try_find_free_stream host connections s with
        | (Some conn, stream, s) =>
            mk_connect_result (Returned (Some conn, stream)) tried_hosts s
        | (None, stream, s) =>
            let '(conn, s) := trashcan_recycle host_address s in
            let '(conn, s) :=
              match conn with
              | Some id =>
                  if negb (from_option is_healthy true (deref s id))
                  then (None, free_connection conn s)
                  else (conn, s)
              | None => (None, s)
              end in
            let '(allocated, s) :=
              match conn with
              | None => allocate_connection host s
              | Some _ => (Returned conn, s)
              end in
            match allocated with
            | Thrown e => mk_connect_result (Thrown e) tried_hosts s
            | Aborted => mk_connect_result Aborted tried_hosts s
            | Returned None => connect query_plan tried_hosts s
            | Returned (Some id) =>
                let s := set_collection connections
                           (collection_try_add id (collection_of s connections)).2 s in
                let '(stream, s) := connection_acquire_stream id s in
                mk_connect_result (Returned (Some id, stream)) tried_hosts s
            end
        end
  end.

Definition get_connection (s : cql_session_impl_t) : connect_result :=
  let query_plan := new_query_plan (_configuration s) in
  connect query_plan [] s.

(** [init]: a first [connect] over a fresh plan; the stream it acquired is
    released again. *)
Definition init : M unit :=
  λ s,
  let query_plan := new_query_plan (_configuration s) in
  let r := connect query_plan [] s in
  match connect_outcome r with
  | Returned (Some conn, stream) =>
      (Returned tt, update_connection conn (release_stream stream) (session_after r))
  | Returned (None, _) => (Aborted, session_after r)
  | Thrown e => (Thrown e, session_after r)
  | Aborted => (Aborted, session_after r)
  end.

(** [get_connection] as a step of the monad: the pointer and the stream. *)
Definition get_connection_m : M (connection_ptr * cql_stream_t) :=
  λ s, let r := get_connection s in (connect_outcome r, session_after r).

Definition library_error : cql_error_t :=
  mk_error true "could not obtain viable client from the pool.".

(** The two member functions of a connection that [execute_operation]
    can be given. *)
Inductive exec_query_method_t := method_query | method_prepare.

Definition method_call (method : exec_query_method_t) (q : cql_query_t)
    : connection_call :=
  match method with
  | method_query => call_query q
  | method_prepare => call_prepare q
  end.

(** Modelled from the spec: [conn->query(q, callback, errback)] and
    [conn->prepare(q, callback, errback)], the callback flavour of the two
    member functions of a connection.  The connection takes the request and
    answers with a stream: the one the request was assigned to. *)
Definition connection_submit_callback (id : N) (method : exec_query_method_t)
    (q : cql_query_t) (s : cql_session_impl_t) : cql_stream_t * cql_session_impl_t :=
  (query_stream q,
   with_connection_calls ((id, method_call method q) :: connection_calls s) s).

(** The callback flavour: [execute_operation] and its two users.  What
    [execute_operation] returns is what the connection's member function
    returned. *)
Definition execute_operation (query : cql_query_t) (method : exec_query_method_t)
    : M cql_stream_t :=
  let* (conn, stream) := get_connection_m in
  match conn with
  | Some id =>
      let tmp := set_stream stream query in
      λ s, let '(result, s) := connection_submit_callback id method tmp s in
           (Returned result, s)
  | None => ret stream_invalid
  end.

Definition query_callback (query : cql_query_t) : M cql_stream_t :=
  execute_operation query method_query.

Definition prepare_callback (query : cql_query_t) : M cql_stream_t :=
  execute_operation query method_prepare.

Definition execute_callback (message : cql_execute_t) : M cql_stream_t :=
  let* (conn, stream) := get_connection_m in
  let* _ := assert false in
  ret stream_invalid.

(** The future flavour. *)
Definition query (query : cql_query_t) : M cql_future_result :=
  let* (conn, stream) := get_connection_m in
  match conn with
  | Some id =>
      let q := set_stream stream query in
      λ s, let '(f, s) := connection_submit id (call_query q) s in (Returned f, s)
  | None => ret (future_error library_error)
  end.

Definition prepare (query : cql_query_t) : M cql_future_result :=
  let* (conn, stream) := get_connection_m in
  match conn with
  | Some id =>
      let q := set_stream stream query in
      λ s, let '(f, s) := connection_submit id (call_query q) s in (Returned f, s)
  | None => ret (future_error library_error)
  end.

Definition execute (message : cql_execute_t) : M cql_future_result :=
  let* (conn, stream) := get_connection_m in
  let* _ := assert false in
  match conn with
  | Some id =>
      λ s, let '(f, s) := connection_submit id (call_execute message) s in
           (Returned f, s)
  | None => ret (future_error library_error)
  end.

Definition defunct (s : cql_session_impl_t) : bool := _defunct s.
Definition ready (s : cql_session_impl_t) : bool := _ready s.

(** [close]: every connection of every collection of the pool is closed;
    the collections and the counters are not touched. *)
Definition close (s : cql_session_impl_t) : cql_session_impl_t :=
  foldr (λ host_it s,
           foldr (λ conn_it s, update_connection conn_it connection_close s)
                 s host_it.2)
        s (map_to_list (_connection_pool s)).

Definition size (s : cql_session_impl_t) : nat :=
  foldr (λ host_it connections_count,
           (connections_count + length host_it.2)%nat)
        0%nat (map_to_list (_connection_pool s)).

Definition empty (s : cql_session_impl_t) : bool :=
  bool_decide (size s = 0%nat).

(** * Vocabulary of the properties *)

(** The number of connections an endpoint is charged with; an endpoint
    without a counter is charged with none. *)
Definition counter_of (s : cql_session_impl_t) (ep : cql_endpoint_t) : Z :=
  default 0 (_connection_counters s !! ep).

(** The least value a C++ implementation may give [LONG_MAX].  A counter
    below it can be incremented without wrapping, and is the same number
    when read as a [long]; in that range the integer the model keeps and the
    counter of the source agree. *)
Definition LONG_MAX_least : Z := 2147483647.

(** The members that the pool, the counters and the trashcan do not touch. *)
Definition outside_pool (s s' : cql_session_impl_t) : Prop :=
  dial_log s' = dial_log s
  ∧ dial_succeeds s' = dial_succeeds s
  ∧ _configuration s' = _configuration s
  ∧ client_callback_calls s' = client_callback_calls s
  ∧ connection_calls s' = connection_calls s
  ∧ _ready s' = _ready s
  ∧ ready_callback_calls s' = ready_callback_calls s.

Definition trash_of (s : cql_session_impl_t) (ep : cql_endpoint_t) : list N :=
  default [] (_trashcan s !! ep).

(** In the session [s], the collection [connections] holds more than the
    core number of connections for the host, and [id] is a healthy
    connection of that collection with no more requests in flight than the
    minimum. *)
Definition may_be_trashed (host : cql_host_t) (connections : cql_endpoint_t)
    (s : cql_session_impl_t) (id : N) : Prop :=
  Z.of_nat (length (collection_of s connections))
  > core_connections_per_host (pooling_options (_configuration s)) (distance host)
  ∧ ∃ c, deref s id = Some c
       ∧ is_healthy c = true
       ∧ conn_in_flight c
         ≤ min_simultaneous_requests_per_connection_treshold
             (pooling_options (_configuration s)) (distance host)
       ∧ id ∈ collection_of s connections.

(** What the loop of [try_find_free_stream] keeps true of the session [s]
    it has reached, with respect to the session [s0] it started from. *)
Definition loop_invariant (connections : cql_endpoint_t)
    (s0 s : cql_session_impl_t) : Prop :=
  _configuration s = _configuration s0
  ∧ (length (collection_of s connections)
     ≤ length (collection_of s0 connections))%nat
  ∧ (∀ x, x ∈ collection_of s connections → x ∈ collection_of s0 connections)
  ∧ (∀ id c, deref s id = Some c → is_healthy c = true → deref s0 id = Some c).

(** The connections of all the collections of the pool. *)
Definition pooled_connections (s : cql_session_impl_t) : list N :=
  concat (map_to_list (_connection_pool s)).*2.

(** [n] successful connect completions in a row. *)
Definition connect_callbacks (n : nat) (s : cql_session_impl_t) : cql_session_impl_t :=
  Nat.iter n connect_callback s.

(** How often the ready flag goes from false to true in the course of [n]
    successful connect completions. *)
Fixpoint ready_transitions (n : nat) (s : cql_session_impl_t) : nat :=
  match n with
  | O => 0
  | S n => (if _ready s then 0 else 1) + ready_transitions n (connect_callback s)
  end%nat.

(** The ready callback runs at most once for each transition of the ready
    flag from false to true. *)
Definition ready_callback_once_per_transition (n : nat) (s : cql_session_impl_t) : Prop :=
  (ready_callback_calls (connect_callbacks n s) - ready_callback_calls s
   ≤ ready_transitions n s)%nat.

(** [execute] returns a future. *)
Definition execute_returns (message : cql_execute_t) (s : cql_session_impl_t) : Prop :=
  ∃ f, (execute message s).1 = Returned f.

(** When [get_connection] hands over no connection, [query] and [prepare]
    both return the future that holds the library error. *)
Definition failure_returns_library_error (q : cql_query_t)
    (s : cql_session_impl_t) : Prop :=
  (∀ id stream, connect_outcome (get_connection s) ≠ Returned (Some id, stream)) →
  (query q s).1 = Returned (future_error library_error)
  ∧ (prepare q s).1 = Returned (future_error library_error).

(** Sessions to evaluate the code on: two local hosts and one that the
    policy ignores; one core connection, at most two connections per local
    host (unless stated otherwise) and none for an ignored one. *)
Module Fixture.
Definition ep1 : cql_endpoint_t := mk_endpoint "10.0.0.1" 9042.
Definition ep2 : cql_endpoint_t := mk_endpoint "10.0.0.2" 9042.
Definition ep3 : cql_endpoint_t := mk_endpoint "10.0.0.3" 9042.
Definition host1 : cql_host_t := mk_host ep1 true CQL_HOST_DISTANCE_LOCAL.
Definition host2 : cql_host_t := mk_host ep2 true CQL_HOST_DISTANCE_LOCAL.
Definition host1_down : cql_host_t := mk_host ep1 false CQL_HOST_DISTANCE_LOCAL.
Definition host3_ignored : cql_host_t := mk_host ep3 true CQL_HOST_DISTANCE_IGNORE.

Definition per_distance (local remote ignored : Z) (d : cql_host_distance_enum) : Z :=
  match d with
  | CQL_HOST_DISTANCE_LOCAL => local
  | CQL_HOST_DISTANCE_REMOTE => remote
  | CQL_HOST_DISTANCE_IGNORE => ignored
  end.

Definition pooling_with_max (max : Z) : cql_pooling_options_t :=
  mk_pooling (per_distance 1 1 0) (per_distance max max 0)
             (per_distance 100 100 0) (per_distance 5 5 0).

Definition pooling : cql_pooling_options_t := pooling_with_max 2.

Definition configuration (plan : list cql_host_t) : cql_configuration_t :=
  mk_configuration pooling plan.

Definition all_up (ep : cql_endpoint_t) : bool := true.
Definition only_ep2_up (ep : cql_endpoint_t) : bool := bool_decide (ep = ep2).
Definition none_up (ep : cql_endpoint_t) : bool := false.

Definition session (plan : list cql_host_t) (dial : cql_endpoint_t → bool)
    : cql_session_impl_t :=
  new_session true (configuration plan) dial.
(** Pooling options under which a connection counts as busy from one
    request in flight on and as idle up to five, and the session reached
    from a new one by [n] dispatches to [host1], each leaving its request in
    flight. *)
Definition watermarks : cql_pooling_options_t :=
  mk_pooling (per_distance 1 1 0) (per_distance 2 2 0)
             (per_distance 1 1 0) (per_distance 5 5 0).

Definition after_dispatches (n : nat) : cql_session_impl_t :=
  Nat.iter n (λ s, session_after (get_connection s))
    (new_session true (mk_configuration watermarks [host1]) all_up).
(** One core connection, at most two per host, a connection busy from one
    request in flight on and idle only with none: [n] dispatches to
    [host1], each leaving its request in flight. *)
Definition saturation : cql_pooling_options_t :=
  mk_pooling (per_distance 1 1 0) (per_distance 2 2 0)
             (per_distance 1 1 0) (per_distance 0 0 0).

Definition saturated (n : nat) : cql_session_impl_t :=
  Nat.iter n (λ s, session_after (get_connection s))
    (new_session true (mk_configuration saturation [host1]) all_up).
End Fixture.

(** * More of the session *)

(** The [while] loop of [free_connections] for one id: as long as
    [try_get] finds the id in the collection, [try_erase] is asked to take
    it out; [conn] is the shared pointer both calls store into.  [fuel]
    bounds the number of turns; [None] is a loop that has not ended within
    the bound. *)
Fixpoint free_connections_erase (fuel : nat) (connections : cql_endpoint_t)
    (conn_id : N) (conn : connection_ptr) (s : cql_session_impl_t)
    : option (connection_ptr * cql_session_impl_t) :=
  match fuel with
  | O => None
  | S fuel =>
      if bool_decide (conn_id ∈ collection_of s connections) then
        match collection_try_erase conn_id (collection_of s connections) with
        | (true, c) =>
            free_connections_erase fuel connections conn_id (Some conn_id)
              (set_collection connections c s)
        | (false, _) =>
            free_connections_erase fuel connections conn_id (Some conn_id) s
        end
      else Some (conn, s)
  end.

(** [free_connections]: every listed id is taken out of the collection and
    the connection found under it is freed.  Each [while] loop is given one
    turn more than the collection has connections. *)
Fixpoint free_connections (connections : cql_endpoint_t)
    (connections_to_remove : list N) (s : cql_session_impl_t)
    : option cql_session_impl_t :=
  match connections_to_remove with
  | [] => Some s
  | conn_id :: connections_to_remove =>
      match free_connections_erase
              (S (length (collection_of s connections)))
              connections conn_id None s with
      | None => None
      | Some (conn, s) =>
          free_connections connections connections_to_remove
            (free_connection conn s)
      end
  end.

(** Between two calls the world around the session moves on.  The load
    balancing policy hands out another plan from now on: other hosts, in
    another order, with other liveness flags and distances. *)
Definition policy_hands_out (plan : list cql_host_t)
    (s : cql_session_impl_t) : cql_session_impl_t :=
  mk_session (_ready s) (_defunct s) (_ready_callback s)
    (ready_callback_calls s)
    (mk_configuration (pooling_options (_configuration s)) plan)
    (_connection_pool s) (_connection_counters s) (_trashcan s)
    (connection_store s) (client_callback_calls s) (dial_succeeds s)
    (dial_log s) (connection_calls s).

(** Endpoints start and cease to answer a dial. *)
Definition network_answers (dial : cql_endpoint_t → bool)
    (s : cql_session_impl_t) : cql_session_impl_t :=
  mk_session (_ready s) (_defunct s) (_ready_callback s)
    (ready_callback_calls s) (_configuration s) (_connection_pool s)
    (_connection_counters s) (_trashcan s) (connection_store s)
    (client_callback_calls s) dial (dial_log s) (connection_calls s).

(** Modelled from the spec: the timer of the trashcan reaps a trashed
    connection: the connection is taken out of the trashcan and handed to
    [free_connection], which closes it and lowers the counter of its
    endpoint. *)
Definition trashcan_reap (ep : cql_endpoint_t) (id : N)
    (s : cql_session_impl_t) : cql_session_impl_t :=
  if bool_decide (id ∈ trash_of s ep) then
    free_connection (Some id)
      (with_trashcan
         (<[ep := filter (λ x, x ≠ id) (trash_of s ep)]> (_trashcan s)) s)
  else s.

(** Modelled from the spec: the engine of a connection gives up (protocol
    error, socket error, timeout) and the health flag of the connection goes
    down for good. *)
Definition connection_fails (id : N) (s : cql_session_impl_t) : cql_session_impl_t :=
  update_connection id
    (λ c, mk_connection (conn_endpoint c) false (conn_closed c)
            (conn_free_streams c) (conn_in_flight c)) s.

(** Connection accounting: for every endpoint, the pooled and the trashed
    connections are distinct connections to that endpoint, each handed out
    by [_client_callback] before, and the endpoint's counter is their
    number. *)
Definition accounted (s : cql_session_impl_t) : Prop :=
  ∀ ep,
    NoDup (collection_of s ep ++ trash_of s ep)
    ∧ (∀ id, id ∈ collection_of s ep ++ trash_of s ep →
         (id < client_callback_calls s)%N
         ∧ ∃ c, deref s id = Some c ∧ conn_endpoint c = ep)
    ∧ counter_of s ep
      = Z.of_nat (length (collection_of s ep ++ trash_of s ep)).

(** The two sessions agree on what connection accounting looks at: the
    collections, the trashcan, the counters, and the endpoint of every
    connection handed out so far; the second session may have handed out
    more connections. *)
Definition same_accounts (s s' : cql_session_impl_t) : Prop :=
  (∀ ep, collection_of s' ep = collection_of s ep
         ∧ trash_of s' ep = trash_of s ep
         ∧ counter_of s' ep = counter_of s ep)
  ∧ (client_callback_calls s ≤ client_callback_calls s')%N
  ∧ ∀ id, (id < client_callback_calls s)%N →
          conn_endpoint <$> deref s' id = conn_endpoint <$> deref s id.

(** The sessions a program can reach: it constructs a session and then
    calls the member functions in any order, while in between the policy
    hands out other plans, endpoints start and cease to answer, the timer
    of the trashcan reaps trashed connections, the engines of the
    connections may fail and answered requests give their streams back. *)
Inductive reachable : cql_session_impl_t → Prop :=
| reachable_new callback_set cfg dial :
    reachable (new_session callback_set cfg dial)
| reachable_init s : reachable s → reachable (init s).2
| reachable_get_connection s :
    reachable s → reachable (session_after (get_connection s))
| reachable_query q s : reachable s → reachable (query q s).2
| reachable_prepare q s : reachable s → reachable (prepare q s).2
| reachable_query_callback q s : reachable s → reachable (query_callback q s).2
| reachable_prepare_callback q s :
    reachable s → reachable (prepare_callback q s).2
| reachable_execute m s : reachable s → reachable (execute m s).2
| reachable_execute_callback m s :
    reachable s → reachable (execute_callback m s).2
| reachable_close s : reachable s → reachable (close s)
| reachable_policy_hands_out plan s :
    reachable s → reachable (policy_hands_out plan s)
| reachable_network_answers dial s :
    reachable s → reachable (network_answers dial s)
| reachable_trashcan_reap ep id s :
    reachable s → reachable (trashcan_reap ep id s)
| reachable_connection_fails id s :
    reachable s → reachable (connection_fails id s)
| reachable_release_stream id stream s :
    reachable s → reachable (update_connection id (release_stream stream) s).

(** A session that has been in touch with two hosts: a first dispatch while
    the policy's plan is [host1], a second one after the policy has moved
    on to [host2]. *)
Definition two_hosts_contacted : cql_session_impl_t :=
  session_after
    (get_connection
       (policy_hands_out [Fixture.host2]
          (session_after
             (get_connection (Fixture.session [Fixture.host1] Fixture.all_up))))).

(** * Properties *)

(** ** Counters *)

Lemma with_counters_twice counters counters' s :
  with_counters counters (with_counters counters' s) = with_counters counters s.
Proof. done. Qed.

Lemma increase_connection_counter_first host s :
  _connection_counters s !! endpoint host = None →
  increase_connection_counter host s
  = (Returned true, with_counters (<[endpoint host := 1]> (_connection_counters s)) s).
Proof.
  intros Hnone. unfold increase_connection_counter, try_add.
  by rewrite Hnone.
Qed.

Lemma increase_connection_counter_next host s counter :
  _connection_counters s !! endpoint host = Some counter →
  increase_connection_counter host s
  = if counter + 1 >? get_max_connections_number host s
    then (Returned false,
          with_counters (<[endpoint host := counter]> (_connection_counters s)) s)
    else (Returned true,
          with_counters (<[endpoint host := counter + 1]> (_connection_counters s)) s).
Proof.
  intros Hsome. unfold increase_connection_counter, try_add, try_get.
  rewrite Hsome. cbn. rewrite Hsome.
  destruct (counter + 1 >? _) eqn:Hcmp; [|done].
  cbn. rewrite with_counters_twice, insert_insert_eq.
  by replace (counter + 1 - 1) with counter by lia.
Qed.

(** The assertion in [increase_connection_counter] never fires. *)
Lemma increase_connection_counter_returns host s :
  ∃ b s', increase_connection_counter host s = (Returned b, s').
Proof.
  destruct (_connection_counters s !! endpoint host) as [counter|] eqn:Hc.
  - rewrite (increase_connection_counter_next _ _ _ Hc).
    destruct (_ >? _); eauto.
  - rewrite (increase_connection_counter_first _ _ Hc). eauto.
Qed.

(** A successful increment charges the endpoint with one more connection
    and leaves every other endpoint alone. *)
Lemma increase_connection_counter_true host s s' :
  increase_connection_counter host s = (Returned true, s') →
  _connection_counters s'
  = <[endpoint host := counter_of s (endpoint host) + 1]> (_connection_counters s).
Proof.
  unfold counter_of.
  destruct (_connection_counters s !! endpoint host) as [counter|] eqn:Hc.
  - rewrite (increase_connection_counter_next _ _ _ Hc).
    destruct (_ >? _); intros [=]; by subst.
  - rewrite (increase_connection_counter_first _ _ Hc).
    intros [=]; by subst.
Qed.

(** A refused increment leaves every counter at the value it had. *)
Lemma increase_connection_counter_false host s s' ep :
  increase_connection_counter host s = (Returned false, s') →
  counter_of s' ep = counter_of s ep
  ∧ counter_of s (endpoint host) + 1 > get_max_connections_number host s.
Proof.
  unfold counter_of.
  destruct (_connection_counters s !! endpoint host) as [counter|] eqn:Hc.
  - rewrite (increase_connection_counter_next _ _ _ Hc).
    destruct (_ >? _) eqn:Hcmp; intros [=]; subst. cbn.
    split; [|cbn; lia].
    destruct (decide (endpoint host = ep)) as [<-|Hne].
    + by rewrite lookup_insert_eq, Hc.
    + by rewrite lookup_insert_ne.
  - rewrite (increase_connection_counter_first _ _ Hc). intros [=].
Qed.

Lemma free_connection_counter id c s ep :
  deref s id = Some c →
  counter_of (free_connection (Some id) s) ep
  = if decide (conn_endpoint c = ep)
    then match _connection_counters s !! ep with
         | Some counter => counter - 1
         | None => 0
         end
    else counter_of s ep.
Proof.
  intros Hc. unfold free_connection, counter_of. rewrite Hc. cbn.
  unfold try_get.
  destruct (_connection_counters s !! conn_endpoint c) as [counter|] eqn:Hk; cbn.
  - case_decide as Heq.
    + subst ep. by rewrite lookup_insert_eq, Hk.
    + by rewrite lookup_insert_ne.
  - case_decide as Heq; [subst ep; by rewrite Hk | done].
Qed.

(** C8. A successful [increase_connection_counter] for a host, followed by
    [free_connection] of a connection to that host's endpoint, leaves the
    counter of every endpoint at the value it had before the increment
    (an endpoint without a counter counting as 0).  Nothing between the two
    calls may have touched the counters. *)
Theorem increase_then_free_restores_counter host s s1 s2 id c :
  increase_connection_counter host s = (Returned true, s1) →
  _connection_counters s2 = _connection_counters s1 →
  deref s2 id = Some c →
  conn_endpoint c = endpoint host →
  ∀ ep, counter_of (free_connection (Some id) s2) ep = counter_of s ep.
Proof.
  intros Hinc Hsame Hc Hep ep.
  rewrite (free_connection_counter _ _ _ _ Hc), Hep.
  apply increase_connection_counter_true in Hinc.
  unfold counter_of at 1. rewrite Hsame, Hinc.
  case_decide as Heq.
  - subst ep. rewrite lookup_insert_eq. lia.
  - by rewrite lookup_insert_ne.
Qed.

Lemma increase_then_free_restores_counter_witness :
  let s := Fixture.session [Fixture.host1] Fixture.all_up in
  let s2 := (allocate_connection Fixture.host1 s).2 in
  counter_of s Fixture.ep1 = 0
  ∧ counter_of s2 Fixture.ep1 = 1
  ∧ ∀ ep, counter_of (free_connection (Some 0%N) s2) ep = counter_of s ep.
Proof.
  intros s s2. split; [reflexivity|]. split; [reflexivity|].
  apply (increase_then_free_restores_counter Fixture.host1 s
           (increase_connection_counter Fixture.host1 s).2 s2 0%N
           (fresh_connection Fixture.ep1)).
  - reflexivity.
  - reflexivity.
  - reflexivity.
  - reflexivity.
Defined.

(** What [allocate_connection] does, by the state of the counter and the
    outcome of the dial. *)
Lemma allocate_connection_cases host s :
  match allocate_connection host s with
  | (Returned (Some id), s') =>
      id = client_callback_calls s
      ∧ dial_succeeds s (endpoint host) = true
      ∧ dial_log s' = (endpoint host, true) :: dial_log s
      ∧ deref s' id = Some (fresh_connection (endpoint host))
      ∧ _connection_counters s'
        = <[endpoint host := counter_of s (endpoint host) + 1]> (_connection_counters s)
  | (Returned None, _) => False
  | (Thrown e, s') =>
      (e = cql_too_many_connections_per_host_exception
       ∧ counter_of s (endpoint host) + 1 > get_max_connections_number host s
       ∧ dial_log s' = dial_log s
       ∧ ∀ ep, counter_of s' ep = counter_of s ep)
      ∨ (e = cql_exception
               ("cannot connect to host: " +:+ endpoint_to_string (endpoint host))
         ∧ dial_succeeds s (endpoint host) = false
         ∧ dial_log s' = (endpoint host, false) :: dial_log s
         ∧ ∀ ep, counter_of s' ep = counter_of s ep)
  | (Aborted, _) => False
  end.
Proof.
  unfold allocate_connection, bind.
  destruct (increase_connection_counter_returns host s) as (b & s1 & Hinc).
  rewrite Hinc. destruct b; cbn.
  - pose proof (increase_connection_counter_true _ _ _ Hinc) as Hcnt.
    unfold connection_connect, client_callback. cbn.
    assert (dial_succeeds s1 = dial_succeeds s
            ∧ client_callback_calls s1 = client_callback_calls s
            ∧ dial_log s1 = dial_log s) as (Hdial & Hcalls & Hlog).
    { revert Hinc. unfold increase_connection_counter.
      destruct (try_add _ _ _) as [[] ?]; [by intros [= <-]|].
      destruct (try_get _ _); [|done].
      destruct (_ >? _); by intros [= <-]. }
    rewrite Hdial. destruct (dial_succeeds s (endpoint host)) eqn:Hok; cbn.
    + unfold connect_callback; cbn.
      destruct (_ready_callback s1); cbn;
        (split; [done|]); (split; [done|]); (split; [by rewrite Hlog|]);
        (split; [unfold deref; cbn; by rewrite lookup_insert_eq | done]).
    + unfold decrease_connection_counter, try_get. cbn.
      rewrite Hcnt, lookup_insert_eq. cbn. right.
      split; [done|]. split; [done|]. split; [by rewrite Hlog|].
      intros ep. unfold counter_of; cbn.
      rewrite insert_insert_eq.
      destruct (decide (endpoint host = ep)) as [<-|Hne].
      * rewrite lookup_insert_eq. cbn. unfold counter_of. lia.
      * by rewrite lookup_insert_ne.
  - left. split; [done|].
    assert (dial_log s1 = dial_log s) as Hlog.
    { revert Hinc. unfold increase_connection_counter.
      destruct (try_add _ _ _) as [[] ?]; [by intros [= <-]|].
      destruct (try_get _ _); [|done].
      destruct (_ >? _); by intros [= <-]. }
    split; [|split; [done|]].
    + by destruct (increase_connection_counter_false _ _ _ (endpoint host) Hinc).
    + intros ep. by destruct (increase_connection_counter_false _ _ _ ep Hinc).
Qed.

(** [allocate_connection] followed by [free_connection] of the connection it
    returned: every counter is back at its value. *)
Lemma allocate_then_free_restores_counter host s id s' :
  allocate_connection host s = (Returned (Some id), s') →
  ∀ ep, counter_of (free_connection (Some id) s') ep = counter_of s ep.
Proof.
  intros Halloc ep.
  pose proof (allocate_connection_cases host s) as Hcases.
  rewrite Halloc in Hcases. destruct Hcases as (_ & _ & _ & Hc & Hcnt).
  rewrite (free_connection_counter _ _ _ _ Hc). cbn.
  unfold counter_of at 1. rewrite Hcnt.
  case_decide as Heq.
  - subst ep. rewrite lookup_insert_eq. lia.
  - by rewrite lookup_insert_ne.
Qed.

(** Where the cap is at least 1, [increase_connection_counter] keeps a
    counter that is under the cap under the cap. *)
Lemma increase_connection_counter_cap host s b s' :
  1 ≤ get_max_connections_number host s →
  counter_of s (endpoint host) ≤ get_max_connections_number host s →
  increase_connection_counter host s = (Returned b, s') →
  counter_of s' (endpoint host) ≤ get_max_connections_number host s.
Proof.
  intros Hcap Hle Hinc. destruct b.
  - apply increase_connection_counter_true in Hinc as Hcnt.
    unfold counter_of at 1. rewrite Hcnt, lookup_insert_eq. cbn.
    revert Hinc. unfold counter_of.
    destruct (_connection_counters s !! endpoint host) as [counter|] eqn:Hc.
    + rewrite (increase_connection_counter_next _ _ _ Hc).
      destruct (_ >? _) eqn:Hcmp; [done|]. intros _. cbn. lia.
    + intros _. cbn. lia.
  - destruct (increase_connection_counter_false _ _ _ (endpoint host) Hinc) as [-> _].
    done.
Qed.

(** C2. The cap is not enforced on the first allocation for an endpoint:
    with a maximum of 0 connections per host and no counter yet for the
    endpoint, [increase_connection_counter] succeeds and leaves the counter
    at 1, above the cap, and [allocate_connection] returns a connection
    instead of failing with the too-many-connections exception. *)
Theorem first_allocation_exceeds_cap :
  let s := new_session true
             (mk_configuration (Fixture.pooling_with_max 0) [Fixture.host1])
             Fixture.all_up in
  get_max_connections_number Fixture.host1 s = 0
  ∧ _connection_counters s !! Fixture.ep1 = None
  ∧ (increase_connection_counter Fixture.host1 s).1 = Returned true
  ∧ counter_of (increase_connection_counter Fixture.host1 s).2 Fixture.ep1 = 1
  ∧ (allocate_connection Fixture.host1 s).1 = Returned (Some 0%N)
  ∧ counter_of (allocate_connection Fixture.host1 s).2 Fixture.ep1 = 1.
Proof. cbv zeta. repeat split; reflexivity. Qed.

(** ** Dispatch: dial failures *)

Lemma collection_of_add_to_connection_pool host_address s ep :
  collection_of (add_to_connection_pool host_address s) ep = collection_of s ep.
Proof.
  unfold add_to_connection_pool, try_get, try_add, collection_of.
  destruct (_connection_pool s !! host_address) eqn:Hpool; [done|].
  cbn. destruct (decide (host_address = ep)) as [<-|Hne].
  - by rewrite lookup_insert_eq, Hpool.
  - by rewrite lookup_insert_ne.
Qed.

(** Once the pool and the trashcan have nothing for a host that is up, the
    dispatch stands or falls with [allocate_connection] for that host: when
    the dial fails, [connect] leaves by an exception whatever hosts follow
    in the plan (the counter is back at its value, the endpoint is in the
    tried list). *)
Lemma connect_dial_failure_throws host rest tried s :
  is_considerably_up host = true →
  collection_of s (endpoint host) = [] →
  default [] (_trashcan s !! endpoint host) = [] →
  dial_succeeds s (endpoint host) = false →
  let r := connect (host :: rest) tried s in
  (∃ e, connect_outcome r = Thrown e ∧ e ≠ no_host_available)
  ∧ tried_hosts r = tried ++ [endpoint host]
  ∧ ∀ ep, counter_of (session_after r) ep = counter_of s ep.
Proof.
  intros Hup Hpool Htrash Hdial. cbn [connect]. rewrite Hup. cbn [negb].
  unfold try_find_free_stream.
  rewrite collection_of_add_to_connection_pool, Hpool. cbn.
  set (s1 := add_to_connection_pool (endpoint host) s).
  assert (_trashcan s1 = _trashcan s ∧ dial_succeeds s1 = dial_succeeds s
          ∧ _connection_counters s1 = _connection_counters s) as (Ht & Hd & Hc).
  { unfold s1, add_to_connection_pool. by destruct (try_get _ _). }
  unfold trashcan_recycle. rewrite Ht, Htrash.
  pose proof (allocate_connection_cases host s1) as Hcases.
  destruct (allocate_connection host s1) as [[[id|]|e|] s2]; cbn.
  - destruct Hcases as (_ & Hok & _). congruence.
  - done.
  - assert (∀ ep, counter_of s1 ep = counter_of s ep) as Hcs.
    { intros ep. unfold counter_of. by rewrite Hc. }
    destruct Hcases as [(-> & _ & _ & Hcnt)|(-> & _ & _ & Hcnt)];
      (split; [eexists; split; [done|done]|]); (split; [done|]);
      intros ep; by rewrite Hcnt.
  - done.
Qed.

(** C1. A dial failure on the first host ends the dispatch.  The plan holds
    two hosts that are up, the first one does not answer the dial and the
    second one would: [connect] leaves with the exception of
    [allocate_connection] for the first host, after decrementing its
    counter and recording its endpoint as tried; the second host is never
    dialled, although [connect] on the second host alone returns a
    connection. *)
Theorem connect_fails_on_first_dial_failure :
  let plan := [Fixture.host1; Fixture.host2] in
  let s := Fixture.session plan Fixture.only_ep2_up in
  let r := connect plan [] s in
  connect_outcome r
  = Thrown (cql_exception "cannot connect to host: 10.0.0.1:9042")
  ∧ tried_hosts r = [Fixture.ep1]
  ∧ _connection_counters (session_after r) !! Fixture.ep1 = Some 0
  ∧ dial_log (session_after r) = [(Fixture.ep1, false)]
  ∧ connect_outcome (connect [Fixture.host2] [] s)
    = Returned (Some 0%N, stream_id 1).
Proof. cbv zeta. repeat split; reflexivity. Qed.

(** ** Dispatch: what the pool and the trashcan leave alone *)

Lemma outside_pool_refl s : outside_pool s s.
Proof. by repeat split. Qed.

Lemma outside_pool_trans s1 s2 s3 :
  outside_pool s1 s2 → outside_pool s2 s3 → outside_pool s1 s3.
Proof.
  intros (? & ? & ? & ? & ? & ? & ?) (? & ? & ? & ? & ? & ? & ?).
  repeat split; congruence.
Qed.

Lemma outside_pool_free_connection connection s :
  outside_pool s (free_connection connection s).
Proof.
  unfold free_connection. destruct connection as [id|]; [|apply outside_pool_refl].
  destruct (deref s id); [|apply outside_pool_refl].
  destruct (try_get _ _); by repeat split.
Qed.

Lemma outside_pool_try_remove_connection connections id s :
  outside_pool s (try_remove_connection connections id s).
Proof.
  unfold try_remove_connection.
  destruct (collection_try_erase _ _) as [[] c]; [|apply outside_pool_refl].
  eapply outside_pool_trans; [|apply outside_pool_free_connection].
  by repeat split.
Qed.

Lemma outside_pool_trashcan_put id s : outside_pool s (trashcan_put id s).
Proof. unfold trashcan_put. destruct (deref s id); by repeat split. Qed.

Lemma outside_pool_connection_acquire_stream id s :
  outside_pool s (connection_acquire_stream id s).2.
Proof.
  unfold connection_acquire_stream.
  destruct (deref s id) as [c|]; [|apply outside_pool_refl].
  destruct (acquire_stream c). by repeat split.
Qed.

Lemma outside_pool_try_find_free_stream_body host connections id s :
  outside_pool s (try_find_free_stream_body host connections id s).2.
Proof.
  unfold try_find_free_stream_body.
  destruct (deref s id) as [conn|]; [|apply outside_pool_refl].
  destruct (negb (is_healthy conn)); [apply outside_pool_try_remove_connection|].
  destruct (negb (is_busy conn _)).
  { pose proof (outside_pool_connection_acquire_stream id s) as Hacq.
    destruct (connection_acquire_stream id s) as [stream s1].
    by destruct (negb (is_invalid stream)). }
  destruct (_ >? _); [|apply outside_pool_refl].
  destruct (is_free conn _); [|apply outside_pool_refl].
  destruct (collection_try_erase _ _) as [[] c]; [|apply outside_pool_refl].
  eapply outside_pool_trans; [|apply outside_pool_trashcan_put]. by repeat split.
Qed.

Lemma outside_pool_try_find_free_stream_loop host connections ids s :
  outside_pool s (try_find_free_stream_loop host connections ids s).2.
Proof.
  revert s. induction ids as [|id ids IH]; intros s; [apply outside_pool_refl|].
  cbn. pose proof (outside_pool_try_find_free_stream_body host connections id s) as Hb.
  destruct (try_find_free_stream_body host connections id s) as [[[conn stream]|] s1];
    [done|].
  eapply outside_pool_trans; [exact Hb | apply IH].
Qed.

Lemma outside_pool_add_to_connection_pool host_address s :
  outside_pool s (add_to_connection_pool host_address s).
Proof. unfold add_to_connection_pool. by destruct (try_get _ _). Qed.

Lemma outside_pool_trashcan_recycle ep s : outside_pool s (trashcan_recycle ep s).2.
Proof. unfold trashcan_recycle. by destruct (default _ _). Qed.

(** ** Dispatch: the tried hosts *)

(** A host that is not considerably up is passed over: the call goes on as
    if the plan did not hold it. *)
Lemma connect_skips_down_host host plan tried s :
  is_considerably_up host = false →
  connect (host :: plan) tried s = connect plan tried s.
Proof. intros Hdown. cbn [connect]. by rewrite Hdown. Qed.

Lemma allocate_connection_calls host s :
  connection_calls (allocate_connection host s).2 = connection_calls s.
Proof.
  unfold allocate_connection, bind.
  destruct (increase_connection_counter_returns host s) as (b & s1 & Hinc).
  rewrite Hinc.
  assert (connection_calls s1 = connection_calls s) as <-.
  { revert Hinc. unfold increase_connection_counter.
    destruct (try_add _ _ _) as [[] ?]; [intros [=]; by subst|].
    destruct (try_get _ _); [|done].
    destruct (_ >? _); intros [=]; by subst. }
  destruct b; cbn; [|done].
  unfold connection_connect, client_callback, connect_callback. cbn.
  destruct (dial_succeeds s1 (endpoint host)); cbn.
  - by destruct (_ready_callback s1).
  - unfold decrease_connection_counter. cbn. by destruct (try_get _ _).
Qed.

(** The loop of [connect] ends at the first host that is up: its endpoint
    joins the tried list, then the call returns or throws.  At most one dial
    is made, to that host. *)
Lemma connect_first_up_host host plan tried s :
  is_considerably_up host = true →
  let r := connect (host :: plan) tried s in
  tried_hosts r = tried ++ [endpoint host]
  ∧ connect_outcome r ≠ Thrown no_host_available
  ∧ connection_calls (session_after r) = connection_calls s
  ∧ (dial_log (session_after r) = dial_log s
     ∨ (dial_log (session_after r) = (endpoint host, true) :: dial_log s
        ∧ ∃ conn stream, connect_outcome r = Returned (Some conn, stream))
     ∨ (dial_log (session_after r) = (endpoint host, false) :: dial_log s
        ∧ connect_outcome r
          = Thrown (cql_exception
                      ("cannot connect to host: "
                       +:+ endpoint_to_string (endpoint host))))).
Proof.
  intros Hup. cbn [connect]. rewrite Hup. cbn [negb].
  set (s1 := add_to_connection_pool (endpoint host) s).
  pose proof (outside_pool_add_to_connection_pool (endpoint host) s) as H1.
  fold s1 in H1.
  unfold try_find_free_stream.
  pose proof (outside_pool_try_find_free_stream_loop host (endpoint host)
                (collection_of s1 (endpoint host)) s1) as H2.
  destruct (try_find_free_stream_loop _ _ _ s1) as [[[conn|] stream] s2]; cbn in *.
  { split; [done|]. split; [done|].
    destruct H1 as (? & _ & _ & _ & ? & _), H2 as (? & _ & _ & _ & ? & _).
    split; [congruence|]. left. congruence. }
  pose proof (outside_pool_trashcan_recycle (endpoint host) s2) as H3.
  destruct (trashcan_recycle (endpoint host) s2) as [recycled s3]; cbn in H3.
  set (checked := match recycled with
                  | Some id =>
                      if negb (from_option is_healthy true (deref s3 id))
                      then (None, free_connection recycled s3)
                      else (recycled, s3)
                  | None => (None, s3)
                  end).
  assert (outside_pool s3 checked.2) as H4.
  { unfold checked. destruct recycled as [id|]; [|apply outside_pool_refl].
    destruct (negb _); [apply outside_pool_free_connection|apply outside_pool_refl]. }
  destruct checked as [conn s4]; cbn in H4.
  assert (outside_pool s s4) as (Hlog & _ & _ & _ & Hcalls & _).
  { eauto using outside_pool_trans. }
  destruct conn as [id|].
  - pose proof (outside_pool_connection_acquire_stream id
                  (set_collection (endpoint host)
                     (collection_try_add id (collection_of s4 (endpoint host))).2 s4))
      as (H5 & _ & _ & _ & H5' & _).
    destruct (connection_acquire_stream id _) as [stream' s5]; cbn in *.
    split; [done|]. split; [done|]. split; [congruence|]. left. congruence.
  - pose proof (allocate_connection_cases host s4) as Hcases.
    pose proof (allocate_connection_calls host s4) as Hcalls'.
    destruct (allocate_connection host s4) as [[[id|]|e|] s5]; cbn in *.
    + destruct Hcases as (_ & _ & Hdial & _).
      pose proof (outside_pool_connection_acquire_stream id
                  (set_collection (endpoint host)
                     (collection_try_add id (collection_of s5 (endpoint host))).2 s5))
        as (H5 & _ & _ & _ & H5' & _).
      destruct (connection_acquire_stream id _) as [stream' s6]; cbn in *.
      split; [done|]. split; [done|]. split; [congruence|]. right. left.
      split; [congruence | eauto].
    + done.
    + split; [done|].
      destruct Hcases as [(-> & _ & Hdial & _)|(-> & _ & Hdial & _)].
      * split; [done|]. split; [congruence|]. left. congruence.
      * split; [done|]. split; [congruence|]. right. right.
        split; [congruence|done].
    + done.
Qed.

(** The hosts that follow the first host that is up play no part. *)
Lemma connect_first_up_host_ignores_rest host plan plan' tried s :
  is_considerably_up host = true →
  connect (host :: plan) tried s = connect (host :: plan') tried s.
Proof.
  intros Hup. cbn [connect]. rewrite Hup. cbn [negb].
  destruct (try_find_free_stream _ _ _) as [[[conn|] stream] s2]; [done|].
  destruct (trashcan_recycle _ s2) as [recycled s3].
  destruct (match recycled with Some _ => _ | None => _ end) as [[id|] s4]; [done|].
  pose proof (allocate_connection_cases host s4) as Hcases.
  by destruct (allocate_connection host s4) as [[[id|]|e|] s5].
Qed.

Lemma connect_filter_up plan tried s :
  connect plan tried s
  = connect (filter (λ h, is_considerably_up h = true) plan) tried s.
Proof.
  induction plan as [|h plan IH]; [done|].
  destruct (is_considerably_up h) eqn:Hup.
  - rewrite filter_cons_True by done.
    by apply connect_first_up_host_ignores_rest.
  - rewrite filter_cons_False by (rewrite Hup; done).
    by rewrite connect_skips_down_host.
Qed.

(** ** Dispatch: failed dials and no viable host *)

Lemma connect_no_viable_host plan tried s :
  Forall (λ h, is_considerably_up h = false) plan →
  connect plan tried s = mk_connect_result (Thrown no_host_available) tried s.
Proof.
  induction 1 as [|h plan Hdown _ IH]; [done|].
  by rewrite connect_skips_down_host.
Qed.

(** The no-host-available exception is what [connect] ends in when it has
    passed over every host of the plan; as soon as one host is up, the call
    ends otherwise. *)
Lemma connect_no_host_available_iff plan tried s :
  connect_outcome (connect plan tried s) = Thrown no_host_available
  ↔ Forall (λ h, is_considerably_up h = false) plan.
Proof.
  split; [|intros Hdown; by rewrite connect_no_viable_host].
  induction plan as [|h plan IH]; [by constructor|].
  destruct (is_considerably_up h) eqn:Hup.
  - intros Hthrown.
    by destruct (connect_first_up_host h plan tried s Hup) as (_ & ? & _).
  - rewrite (connect_skips_down_host _ _ _ _ Hup). intros Hthrown.
    constructor; [done | by apply IH].
Qed.

(** What one dispatch does to the dial log: nothing, or one dial to the
    first host of the plan that is up; when that dial failed, the call has
    ended in the cannot-connect exception for that host, whose endpoint is
    in the tried list. *)
Lemma connect_dials plan tried s :
  let r := connect plan tried s in
  dial_log (session_after r) = dial_log s
  ∨ (∃ ep, dial_log (session_after r) = (ep, true) :: dial_log s)
  ∨ (∃ ep, dial_log (session_after r) = (ep, false) :: dial_log s
           ∧ ep ∈ tried_hosts r
           ∧ connect_outcome r
             = Thrown (cql_exception
                         ("cannot connect to host: " +:+ endpoint_to_string ep))).
Proof.
  induction plan as [|h plan IH]; cbn zeta; [by left|].
  destruct (is_considerably_up h) eqn:Hup.
  - destruct (connect_first_up_host h plan tried s Hup)
      as (Htried & _ & _ & [Hlog|[[Hlog _]|[Hlog Hthrown]]]).
    + by left.
    + right. left. by eexists.
    + right. right. exists (endpoint h). split; [done|]. split; [|done].
      rewrite Htried, elem_of_app, list_elem_of_singleton. by right.
  - by rewrite (connect_skips_down_host _ _ _ _ Hup).
Qed.

(** C5. During one dispatch over a query plan, the hosts that are not
    considerably up are passed over: the call ends as it does on the plan
    without them, and an endpoint joins the tried-hosts list only as the
    endpoint of a host of the plan that is up.  A host whose dial fails has
    its endpoint in the tried-hosts list, but it is not reported with the
    no-host-available exception: the call ends there and then in the
    cannot-connect exception for that host.  The no-host-available
    exception is thrown only when every host of the plan was passed over,
    so it comes with no host tried and no dial made.  With two hosts that
    are up and do not answer the dial, the call ends at the first: the
    second is neither dialled nor tried. *)
Theorem failed_dial_is_not_reported_with_no_host_available
    (plan : list cql_host_t) (tried : list cql_endpoint_t)
    (s : cql_session_impl_t) :
  let r := connect plan tried s in
  r = connect (filter (λ h, is_considerably_up h = true) plan) tried s
  ∧ (∀ ep, ep ∈ tried_hosts r →
       ep ∈ tried
       ∨ ∃ h, h ∈ plan ∧ is_considerably_up h = true ∧ endpoint h = ep)
  ∧ (∀ ep, dial_log (session_after r) = (ep, false) :: dial_log s →
       ep ∈ tried_hosts r
       ∧ connect_outcome r
         = Thrown (cql_exception
                     ("cannot connect to host: " +:+ endpoint_to_string ep))
       ∧ connect_outcome r ≠ Thrown no_host_available)
  ∧ (connect_outcome r = Thrown no_host_available →
       Forall (λ h, is_considerably_up h = false) plan
       ∧ tried_hosts r = tried
       ∧ session_after r = s)
  ∧ (let both_up := [Fixture.host1; Fixture.host2] in
     let r' := connect both_up [] (Fixture.session both_up Fixture.none_up) in
     connect_outcome r'
     = Thrown (cql_exception "cannot connect to host: 10.0.0.1:9042")
     ∧ connect_outcome r' ≠ Thrown no_host_available
     ∧ tried_hosts r' = [Fixture.ep1]
     ∧ dial_log (session_after r') = [(Fixture.ep1, false)]).
Proof.
  cbv zeta. split; [apply connect_filter_up|]. split; [|split; [|split]].
  - induction plan as [|h plan IH]; [by left|].
    destruct (is_considerably_up h) eqn:Hup.
    + destruct (connect_first_up_host h plan tried s Hup) as (Htried & _).
      intros ep. rewrite Htried, elem_of_app, list_elem_of_singleton.
      intros [Hin| ->]; [by left|]. right. exists h.
      split; [apply list_elem_of_here | done].
    + rewrite (connect_skips_down_host _ _ _ _ Hup). intros ep Hin.
      destruct (IH ep Hin) as [?|(h' & ? & ? & ?)]; [by left|].
      right. exists h'. split; [by apply list_elem_of_further | done].
  - intros ep Hlog.
    destruct (connect_dials plan tried s) as [Hsame|[[ep' Hok]|(ep' & Hfail & Hin & Hout)]].
    + rewrite Hsame in Hlog. apply (f_equal length) in Hlog. cbn in Hlog. lia.
    + rewrite Hok in Hlog. by injection Hlog.
    + rewrite Hfail in Hlog. injection Hlog as ->.
      split; [done|]. split; [done|]. by rewrite Hout.
  - intros Hthrown. apply connect_no_host_available_iff in Hthrown as Hdown.
    split; [done|]. by rewrite (connect_no_viable_host _ _ _ Hdown).
  - repeat split; try reflexivity. discriminate.
Qed.

(** C6. A dispatch whose query plan holds no host that is considerably up,
    an empty plan in particular, fails with the no-host-available exception
    and hands back the tried-hosts list as it was given, so empty when it
    started empty; the session is left as it was.  This is so for [connect]
    itself, for [get_connection], for the first attempt of [init] and for
    [query]. *)
Theorem no_viable_host_fails_with_no_host_available
    (plan : list cql_host_t) (s : cql_session_impl_t) :
  Forall (λ h, is_considerably_up h = false) plan →
  (∀ tried, connect plan tried s
            = mk_connect_result (Thrown no_host_available) tried s)
  ∧ connect [] [] s = mk_connect_result (Thrown no_host_available) [] s
  ∧ (new_query_plan (_configuration s) = plan →
     get_connection s = mk_connect_result (Thrown no_host_available) [] s
     ∧ init s = (Thrown no_host_available, s)
     ∧ ∀ q, query q s = (Thrown no_host_available, s)).
Proof.
  intros Hdown. split; [intros tried; by apply connect_no_viable_host|].
  split; [done|]. intros Hplan.
  assert (get_connection s = mk_connect_result (Thrown no_host_available) [] s)
    as Hget.
  { unfold get_connection. rewrite Hplan. by apply connect_no_viable_host. }
  split; [done|]. split.
  - unfold init. fold (get_connection s). by rewrite Hget.
  - intros q. unfold query, bind, get_connection_m. by rewrite Hget.
Qed.

Lemma no_viable_host_fails_with_no_host_available_witness :
  let plan := [Fixture.host1_down] in
  let s := Fixture.session plan Fixture.all_up in
  get_connection s = mk_connect_result (Thrown no_host_available) [] s
  ∧ init s = (Thrown no_host_available, s).
Proof.
  intros plan s.
  destruct (no_viable_host_fails_with_no_host_available plan s) as (_ & _ & H).
  - repeat constructor.
  - destruct (H eq_refl) as (Hget & Hinit & _). by split.
Defined.

(** ** [try_find_free_stream]: which connections go to the trashcan *)

Lemma collection_of_set_collection ep c s :
  collection_of (set_collection ep c s) ep = c.
Proof. unfold collection_of, set_collection. cbn. by rewrite lookup_insert_eq. Qed.

Lemma collection_of_with_trashcan trash s ep :
  collection_of (with_trashcan trash s) ep = collection_of s ep.
Proof. done. Qed.

Lemma collection_try_erase_spec id c b c' :
  collection_try_erase id c = (b, c') →
  (length c' ≤ length c)%nat
  ∧ (∀ x, x ∈ c' → x ∈ c)
  ∧ (b = true → id ∈ c ∧ id ∉ c')
  ∧ (b = false → c' = c).
Proof.
  unfold collection_try_erase. case_bool_decide as Hin; intros [= <- <-].
  - split; [apply length_filter|]. split.
    + intros x Hx. by apply list_elem_of_filter in Hx as [_ ?].
    + split; [|done]. intros _. split; [done|].
      intros Hx. by apply list_elem_of_filter in Hx as [? _].
  - done.
Qed.

Lemma free_connection_store id c s :
  deref s id = Some c →
  _configuration (free_connection (Some id) s) = _configuration s
  ∧ _connection_pool (free_connection (Some id) s) = _connection_pool s
  ∧ _trashcan (free_connection (Some id) s) = _trashcan s
  ∧ connection_store (free_connection (Some id) s)
    = alter connection_close id (connection_store s).
Proof.
  intros Hc. unfold free_connection. rewrite Hc. cbn.
  by destruct (try_get _ _).
Qed.

Lemma acquire_stream_invalid c c' :
  acquire_stream c = (stream_invalid, c') → c' = c.
Proof.
  unfold acquire_stream. destruct (conn_free_streams c); by intros [=].
Qed.

(** One turn of the loop: the configuration stays, the collection can only
    lose connections, a healthy connection is not modified unless the loop
    ends with it, and the trashcan changes only by receiving the visited
    connection when that connection qualifies. *)
Lemma try_find_free_stream_body_spec host connections id s :
  let r := try_find_free_stream_body host connections id s in
  _configuration r.2 = _configuration s
  ∧ (length (collection_of r.2 connections)
     ≤ length (collection_of s connections))%nat
  ∧ (∀ x, x ∈ collection_of r.2 connections → x ∈ collection_of s connections)
  ∧ (r.1 = None → ∀ id' c, deref r.2 id' = Some c → is_healthy c = true →
       deref s id' = Some c)
  ∧ (_trashcan r.2 = _trashcan s
     ∨ (may_be_trashed host connections s id
        ∧ ∃ c, deref s id = Some c
             ∧ _trashcan r.2
               = <[conn_endpoint c := id :: trash_of s (conn_endpoint c)]>
                   (_trashcan s))).
Proof.
  cbv zeta. unfold try_find_free_stream_body.
  destruct (deref s id) as [conn|] eqn:Hconn; [|by auto 10].
  destruct (is_healthy conn) eqn:Hhealthy; cbn [negb].
  - destruct (is_busy conn _) eqn:Hbusy; cbn [negb].
    + destruct (_ >? _) eqn:Hcore; [|by auto 10].
      destruct (is_free conn _) eqn:Hfree; [|by auto 10].
      destruct (collection_try_erase _ _) as [[] c'] eqn:Herase; [|by auto 10].
      apply collection_try_erase_spec in Herase as (Hlen & Hsub & Hin & _).
      destruct (Hin eq_refl) as [Hin' _].
      unfold trashcan_put.
      replace (deref (set_collection connections c' s) id) with (Some conn)
        by done.
      cbn [fst snd]. rewrite collection_of_with_trashcan.
      rewrite collection_of_set_collection.
      split; [done|]. split; [done|]. split; [done|]. split; [done|].
      right. split; [|by exists conn].
      split; [lia|]. exists conn. unfold is_free in Hfree.
      repeat split; [done..|lia|done].
    + unfold connection_acquire_stream. rewrite Hconn.
      destruct (acquire_stream conn) as [stream conn'] eqn:Hacq.
      destruct stream as [|n]; cbn.
      * apply acquire_stream_invalid in Hacq as ->.
        split; [done|]. split; [done|]. split; [done|]. split; [|by left].
        intros _ id' c. unfold deref. cbn.
        destruct (decide (id = id')) as [<-|Hne].
        -- rewrite lookup_alter_eq. unfold deref in Hconn. rewrite Hconn.
           by intros [= <-].
        -- by rewrite lookup_alter_ne.
      * split; [done|]. split; [done|]. split; [done|]. split; [done|].
        by left.
  - unfold try_remove_connection.
    destruct (collection_try_erase _ _) as [[] c'] eqn:Herase; [|by auto 10].
    apply collection_try_erase_spec in Herase as (Hlen & Hsub & _).
    set (s1 := set_collection connections c' s).
    destruct (free_connection_store id conn s1 Hconn) as (Hcfg & Hpool & Htrash & Hstore).
    cbn [fst snd].
    replace (collection_of (free_connection (Some id) s1) connections) with c'.
    2: { unfold collection_of. rewrite Hpool.
         fold (collection_of s1 connections). unfold s1.
         by rewrite collection_of_set_collection. }
    rewrite Hcfg, Htrash.
    split; [done|]. split; [done|]. split; [done|]. split; [|by left].
    intros _ id' c. unfold deref. rewrite Hstore. cbn.
    destruct (decide (id = id')) as [<-|Hne].
    + rewrite lookup_alter_eq. unfold deref in Hconn. rewrite Hconn. cbn.
      intros [= <-]. unfold is_healthy in *. cbn. congruence.
    + by rewrite lookup_alter_ne.
Qed.

Section trashing.
Context (host : cql_host_t) (connections : cql_endpoint_t).
Context (s0 : cql_session_impl_t).

#[local] Abbreviation invariant := (loop_invariant connections s0).

Lemma loop_invariant_start : invariant s0.
Proof. by repeat split. Qed.

Lemma loop_invariant_body id s :
  invariant s →
  (try_find_free_stream_body host connections id s).1 = None →
  invariant (try_find_free_stream_body host connections id s).2.
Proof.
  intros (Hcfg & Hlen & Hsub & Hstore) Hnone.
  destruct (try_find_free_stream_body_spec host connections id s)
    as (Hcfg' & Hlen' & Hsub' & Hstore' & _).
  split; [congruence|]. split; [lia|]. split; [by auto|].
  intros id' c Hc Hhealthy. eauto.
Qed.

Lemma may_be_trashed_initial id s :
  invariant s →
  may_be_trashed host connections s id →
  may_be_trashed host connections s0 id.
Proof.
  intros (Hcfg & Hlen & Hsub & Hstore) (Hcore & c & Hc & Hhealthy & Hmin & Hin).
  rewrite Hcfg in Hcore, Hmin.
  split; [lia|]. exists c. eauto 10.
Qed.

Lemma trash_of_body id s ep x :
  invariant s →
  x ∈ trash_of (try_find_free_stream_body host connections id s).2 ep →
  x ∈ trash_of s ep ∨ may_be_trashed host connections s0 x.
Proof.
  intros Hinv.
  destruct (try_find_free_stream_body_spec host connections id s)
    as (_ & _ & _ & _ & [Hsame|(Hmay & c & Hc & Hput)]).
  - unfold trash_of. rewrite Hsame. by left.
  - unfold trash_of at 1. rewrite Hput.
    destruct (decide (conn_endpoint c = ep)) as [<-|Hne].
    + rewrite lookup_insert_eq. cbn. rewrite elem_of_cons.
      intros [->|Hin]; [right|by left].
      by eapply may_be_trashed_initial.
    + rewrite lookup_insert_ne by done. by left.
Qed.

Lemma trashcan_of_body_at_core id s :
  invariant s →
  Z.of_nat (length (collection_of s0 connections))
  ≤ core_connections_per_host (pooling_options (_configuration s0)) (distance host) →
  _trashcan (try_find_free_stream_body host connections id s).2 = _trashcan s.
Proof.
  intros Hinv Hcore.
  destruct (try_find_free_stream_body_spec host connections id s)
    as (_ & _ & _ & _ & [Hsame|(Hmay & _)]); [done|].
  apply (may_be_trashed_initial _ _ Hinv) in Hmay as [Habove _]. lia.
Qed.

Lemma try_find_free_stream_loop_trash ids s :
  invariant s →
  let s' := (try_find_free_stream_loop host connections ids s).2 in
  (∀ ep x, x ∈ trash_of s' ep →
     x ∈ trash_of s ep ∨ may_be_trashed host connections s0 x)
  ∧ (Z.of_nat (length (collection_of s0 connections))
     ≤ core_connections_per_host (pooling_options (_configuration s0)) (distance host) →
     _trashcan s' = _trashcan s).
Proof.
  revert s. induction ids as [|id ids IH]; intros s Hinv; cbn zeta.
  { split; [by left|done]. }
  cbn [try_find_free_stream_loop].
  pose proof (loop_invariant_body id s Hinv) as Hinv'.
  pose proof (λ ep x, trash_of_body id s ep x Hinv) as Htrash.
  pose proof (trashcan_of_body_at_core id s Hinv) as Hcore.
  destruct (try_find_free_stream_body host connections id s)
    as [[[conn stream]|] s1]; cbn [fst snd] in *.
  - split; [done|done].
  - destruct (IH s1 (Hinv' eq_refl)) as [IHtrash IHcore]. split.
    + intros ep x Hx. destruct (IHtrash ep x Hx) as [Hin|?]; [|by right].
      by apply Htrash.
    + intros Hle. rewrite IHcore by done. by apply Hcore.
Qed.

End trashing.

(** C3. [try_find_free_stream] moves a connection to the trashcan only if
    the collection it was called on held strictly more connections than
    [core_connections_per_host] for the host's distance, and the connection
    is a healthy one of that collection with at most
    [min_simultaneous_requests_per_connection_treshold] requests in flight;
    in each turn of its loop the same holds of the collection and of the
    visited connection as they are at that turn.  When the collection holds
    no more than the core number of connections, exactly that number in
    particular, the trashcan is left as it is. *)
Theorem try_find_free_stream_trashes_only_above_core
    (host : cql_host_t) (connections : cql_endpoint_t) (s : cql_session_impl_t) :
  let s' := (try_find_free_stream host connections s).2 in
  let options := pooling_options (_configuration s) in
  (∀ ep id, id ∈ trash_of s' ep → id ∉ trash_of s ep →
     Z.of_nat (length (collection_of s connections))
     > core_connections_per_host options (distance host)
     ∧ ∃ c, deref s id = Some c
          ∧ is_healthy c = true
          ∧ conn_in_flight c
            ≤ min_simultaneous_requests_per_connection_treshold options (distance host)
          ∧ id ∈ collection_of s connections)
  ∧ (∀ conn_id s1,
       _trashcan (try_find_free_stream_body host connections conn_id s1).2
       ≠ _trashcan s1 →
       may_be_trashed host connections s1 conn_id)
  ∧ (Z.of_nat (length (collection_of s connections))
     = core_connections_per_host options (distance host) →
     _trashcan s' = _trashcan s)
  ∧ (Z.of_nat (length (collection_of s connections))
     ≤ core_connections_per_host options (distance host) →
     _trashcan s' = _trashcan s).
Proof.
  cbv zeta. unfold try_find_free_stream.
  destruct (try_find_free_stream_loop_trash host connections s
              (collection_of s connections) s (loop_invariant_start _ _))
    as [Htrash Hcore].
  split; [|split; [|split]].
  - intros ep id Hin Hnew. by destruct (Htrash ep id Hin).
  - intros conn_id s1 Hchanged.
    by destruct (try_find_free_stream_body_spec host connections conn_id s1)
      as (_ & _ & _ & _ & [Hsame|[Hmay _]]).
  - intros Heq. apply Hcore. lia.
  - exact Hcore.
Qed.

Lemma try_find_free_stream_trashes_only_above_core_witness :
  let s := Fixture.after_dispatches 2 in
  let s' := (try_find_free_stream Fixture.host1 Fixture.ep1 s).2 in
  collection_of s Fixture.ep1 = [0%N; 1%N]
  ∧ trash_of s' Fixture.ep1 = [0%N]
  ∧ collection_of s' Fixture.ep1 = [1%N]
  ∧ (Z.of_nat (length (collection_of s Fixture.ep1)) > 1
     ∧ ∃ c, deref s 0%N = Some c
          ∧ is_healthy c = true
          ∧ conn_in_flight c ≤ 5
          ∧ 0%N ∈ collection_of s Fixture.ep1)
  ∧ collection_of (Fixture.after_dispatches 1) Fixture.ep1 = [0%N]
  ∧ _trashcan (try_find_free_stream Fixture.host1 Fixture.ep1
                 (Fixture.after_dispatches 1)).2
    = _trashcan (Fixture.after_dispatches 1).
Proof.
  intros s s'. split; [reflexivity|]. split; [reflexivity|].
  split; [reflexivity|]. split; [|split; [reflexivity|]].
  - apply (proj1 (try_find_free_stream_trashes_only_above_core
                    Fixture.host1 Fixture.ep1 s) Fixture.ep1 0%N).
    + change (trash_of s' Fixture.ep1) with [0%N]. apply list_elem_of_here.
    + change (trash_of s Fixture.ep1) with (@nil N). apply not_elem_of_nil.
  - apply (proj1 (proj2 (proj2 (try_find_free_stream_trashes_only_above_core
                    Fixture.host1 Fixture.ep1 (Fixture.after_dispatches 1))))).
    reflexivity.
Defined.

(** ** [close] and [size] *)

Lemma with_store_same s : with_store (connection_store s) s = s.
Proof. by destruct s. Qed.

Lemma close_collection ids s :
  foldr (λ conn_it s, update_connection conn_it connection_close s) s ids
  = with_store (foldr (alter connection_close) (connection_store s) ids) s.
Proof.
  induction ids as [|id ids IH]; cbn; [by rewrite with_store_same|].
  by rewrite IH.
Qed.

Lemma close_unfold s :
  close s
  = with_store
      (foldr (alter connection_close) (connection_store s) (pooled_connections s)) s.
Proof.
  unfold close, pooled_connections.
  induction (map_to_list (_connection_pool s)) as [|host_it l IH]; cbn.
  - by rewrite with_store_same.
  - rewrite IH, close_collection. cbn. by rewrite foldr_app.
Qed.

(** [close] changes nothing but the connection objects. *)
Lemma close_keeps_pool s :
  _connection_pool (close s) = _connection_pool s
  ∧ _connection_counters (close s) = _connection_counters s
  ∧ _trashcan (close s) = _trashcan s
  ∧ size (close s) = size s.
Proof.
  rewrite close_unfold. repeat split.
Qed.

Lemma lookup_close_all (ids : list N) (store : gmap N cql_connection_t) (id : N) :
  foldr (alter connection_close) store ids !! id
  = if decide (id ∈ ids) then connection_close <$> store !! id else store !! id.
Proof.
  induction ids as [|x ids IH]; cbn.
  - case_decide as Hin; [by apply elem_of_nil in Hin | done].
  - destruct (decide (x = id)) as [->|Hne].
    + rewrite lookup_alter_eq, IH.
      rewrite (decide_True (P := id ∈ id :: ids)) by apply list_elem_of_here.
      case_decide; [|done]. by destruct (store !! id).
    + rewrite lookup_alter_ne, IH by done.
      destruct (decide (id ∈ ids)) as [Hin|Hin].
      * rewrite decide_True; [done|]. by apply list_elem_of_further.
      * rewrite decide_False; [done|]. rewrite elem_of_cons.
        intros [?|?]; [congruence|done].
Qed.

(** Every connection of the pool is closed by [close]. *)
Lemma close_closes_pooled s ep id c :
  _connection_pool s !! ep = Some c → id ∈ c →
  deref (close s) id = connection_close <$> deref s id.
Proof.
  intros Hep Hid. rewrite close_unfold. unfold deref. cbn.
  rewrite lookup_close_all, decide_True; [done|].
  unfold pooled_connections. apply list_elem_of_In, in_concat.
  exists c. split; [|by apply list_elem_of_In].
  apply list_elem_of_In, list_elem_of_fmap. exists (ep, c).
  split; [done|]. by apply elem_of_map_to_list.
Qed.

(** A second [close] changes nothing. *)
Lemma close_idempotent s : close (close s) = close s.
Proof.
  rewrite (close_unfold (close s)).
  assert (pooled_connections (close s) = pooled_connections s) as ->.
  { unfold pooled_connections. by destruct (close_keeps_pool s) as [-> _]. }
  rewrite close_unfold. cbn. unfold with_store. cbn. f_equal.
  apply map_eq. intros id. rewrite !lookup_close_all.
  case_decide; [|done].
  by destruct (connection_store s !! id).
Qed.

(** C4. [close] closes the pooled connections and nothing else.  After one
    successful dispatch the pool holds one connection and its endpoint is
    charged with one; after [close] the connection is closed, but it is
    still in the pool, [size] is still 1 and the counter is still 1. *)
Theorem close_leaves_pool_and_counters :
  let s := session_after
             (get_connection (Fixture.session [Fixture.host1] Fixture.all_up)) in
  size s = 1%nat
  ∧ collection_of s Fixture.ep1 = [0%N]
  ∧ _connection_counters s !! Fixture.ep1 = Some 1
  ∧ conn_closed <$> deref (close s) 0%N = Some true
  ∧ collection_of (close s) Fixture.ep1 = [0%N]
  ∧ size (close s) = 1%nat
  ∧ empty (close s) = false
  ∧ _connection_counters (close s) !! Fixture.ep1 = Some 1.
Proof. cbv zeta. repeat split; reflexivity. Qed.

(** ** [connect_callback] and the ready callback *)

Lemma connect_callback_flags s :
  _ready (connect_callback s) = true
  ∧ _defunct (connect_callback s) = false
  ∧ _ready_callback (connect_callback s) = _ready_callback s
  ∧ ready_callback_calls (connect_callback s)
    = ((if _ready_callback s then 1 else 0) + ready_callback_calls s)%nat.
Proof.
  unfold connect_callback. destruct s as [? ? callback_set ? ? ? ? ? ? ? ? ? ?].
  cbn. by destruct callback_set.
Qed.

Lemma connect_callbacks_S n s :
  connect_callbacks (S n) s = connect_callbacks n (connect_callback s).
Proof. unfold connect_callbacks. by rewrite Nat.iter_succ_r. Qed.

Lemma ready_transitions_ready n s :
  _ready s = true → ready_transitions n s = 0%nat.
Proof.
  revert s. induction n as [|n IH]; intros s Hready; [done|].
  cbn. rewrite Hready, IH; [done|]. apply connect_callback_flags.
Qed.

(** The ready callback has run again although the session was ready: two
    completions, one transition of the flag, two calls. *)
Lemma ready_callback_fires_when_already_ready :
  _ready (connect_callback (Fixture.session [] Fixture.all_up)) = true
  ∧ ready_callback_calls
      (connect_callbacks 2 (Fixture.session [] Fixture.all_up)) = 2%nat
  ∧ ready_transitions 2 (Fixture.session [] Fixture.all_up) = 1%nat
  ∧ ¬ ready_callback_once_per_transition 2 (Fixture.session [] Fixture.all_up).
Proof.
  repeat split. unfold ready_callback_once_per_transition. cbn. lia.
Qed.

(** C7 (amended). The ready callback, when one is registered, runs once for
    each successful connect completion, whether the session was ready
    before or not; the ready flag is true after each completion, so over
    any sequence of completions it goes from false to true at most once. *)
Theorem ready_callback_fires_on_every_connect (n : nat) (s : cql_session_impl_t) :
  ready_callback_calls (connect_callbacks n s)
  = ((if _ready_callback s then n else 0) + ready_callback_calls s)%nat
  ∧ ready_callback_calls (connect_callback s)
    = ((if _ready_callback s then 1 else 0) + ready_callback_calls s)%nat
  ∧ _ready (connect_callback s) = true
  ∧ ready_transitions n s = (if _ready s then 0 else Nat.min n 1)%nat.
Proof.
  split; [|split; [apply connect_callback_flags|split; [apply connect_callback_flags|]]].
  - revert s. induction n as [|n IH]; intros s.
    + by destruct (_ready_callback s).
    + rewrite connect_callbacks_S, IH.
      destruct (connect_callback_flags s) as (_ & _ & -> & ->).
      destruct (_ready_callback s); lia.
  - destruct n as [|n]; [by destruct (_ready s)|].
    cbn [ready_transitions].
    rewrite (ready_transitions_ready n (connect_callback s))
      by apply connect_callback_flags.
    destruct (_ready s); lia.
Qed.

(** ** [execute], [query] and [prepare] *)

(** With a host that answers, [execute] gets its connection and then stops
    in the assertion; with no host that is up, the exception of [connect]
    comes out of it.  It returns in neither case. *)
Lemma execute_does_not_return :
  (execute (mk_execute "statement")
     (Fixture.session [Fixture.host1] Fixture.all_up)).1 = Aborted
  ∧ ¬ execute_returns (mk_execute "statement")
        (Fixture.session [Fixture.host1] Fixture.all_up)
  ∧ (execute (mk_execute "statement")
       (Fixture.session [Fixture.host1_down] Fixture.all_up)).1
    = Thrown no_host_available.
Proof.
  split; [reflexivity|]. split; [|reflexivity].
  intros [f Hf]. discriminate Hf.
Qed.

(** C9. [execute] is not implemented: with assertions compiled in it never
    returns, in the future flavour and in the callback flavour alike.  It
    asks [get_connection] for a connection and, when that returns, stops in
    [assert(0)], before the lines that would hand the statement to the
    connection; when [get_connection] throws, the exception leaves
    [execute].  No future is produced, with or without a library error. *)
Theorem execute_never_returns (message : cql_execute_t) (s : cql_session_impl_t) :
  execute message s
  = (match connect_outcome (get_connection s) with
     | Returned _ => Aborted
     | Thrown e => Thrown e
     | Aborted => Aborted
     end, session_after (get_connection s))
  ∧ execute_callback message s
    = (match connect_outcome (get_connection s) with
       | Returned _ => Aborted
       | Thrown e => Thrown e
       | Aborted => Aborted
       end, session_after (get_connection s))
  ∧ ¬ execute_returns message s
  ∧ ¬ ∃ st, (execute_callback message s).1 = Returned st.
Proof.
  assert (execute message s
          = (match connect_outcome (get_connection s) with
             | Returned _ => Aborted
             | Thrown e => Thrown e
             | Aborted => Aborted
             end, session_after (get_connection s))) as Hfuture.
  { unfold execute, bind, get_connection_m.
    by destruct (connect_outcome (get_connection s)) as [[conn stream]|e|]. }
  assert (execute_callback message s
          = (match connect_outcome (get_connection s) with
             | Returned _ => Aborted
             | Thrown e => Thrown e
             | Aborted => Aborted
             end, session_after (get_connection s))) as Hcallback.
  { unfold execute_callback, bind, get_connection_m.
    by destruct (connect_outcome (get_connection s)) as [[conn stream]|e|]. }
  split; [done|]. split; [done|]. split.
  - intros [f Hf]. rewrite Hfuture in Hf. cbn in Hf.
    by destruct (connect_outcome (get_connection s)).
  - intros [st Hst]. rewrite Hcallback in Hst. cbn in Hst.
    by destruct (connect_outcome (get_connection s)).
Qed.

(** [connect] itself asks nothing of a connection but a stream. *)
Lemma connect_keeps_connection_calls plan tried s :
  connection_calls (session_after (connect plan tried s)) = connection_calls s.
Proof.
  induction plan as [|h plan IH]; [done|].
  destruct (is_considerably_up h) eqn:Hup.
  - by destruct (connect_first_up_host h plan tried s Hup) as (_ & _ & ? & _).
  - by rewrite connect_skips_down_host.
Qed.

(** [query] by what [get_connection] gave. *)
Lemma query_unfold q s :
  query q s
  = match connect_outcome (get_connection s) with
    | Returned (Some id, stream) =>
        (Returned (future_of id (call_query (set_stream stream q))),
         with_connection_calls
           ((id, call_query (set_stream stream q)) :: connection_calls s)
           (session_after (get_connection s)))
    | Returned (None, _) =>
        (Returned (future_error
                     (mk_error true "could not obtain viable client from the pool.")),
         session_after (get_connection s))
    | Thrown e => (Thrown e, session_after (get_connection s))
    | Aborted => (Aborted, session_after (get_connection s))
    end.
Proof.
  unfold query, bind, get_connection_m.
  pose proof (connect_keeps_connection_calls
                (new_query_plan (_configuration s)) [] s) as Hcalls.
  fold (get_connection s) in Hcalls.
  destruct (connect_outcome (get_connection s)) as [[[id|] stream]|e|]; try done.
  unfold connection_submit. cbn. by rewrite Hcalls.
Qed.

(** The callback flavour of [prepare] does go through the connection's
    [prepare]. *)
Lemma prepare_callback_calls_prepare q s id stream :
  connect_outcome (get_connection s) = Returned (Some id, stream) →
  connection_calls (prepare_callback q s).2
  = (id, call_prepare (set_stream stream q)) :: connection_calls s.
Proof.
  intros Hget. unfold prepare_callback, execute_operation, bind, get_connection_m.
  rewrite Hget. cbn.
  pose proof (connect_keeps_connection_calls
                (new_query_plan (_configuration s)) [] s) as Hcalls.
  fold (get_connection s) in Hcalls. by rewrite Hcalls.
Qed.

(** At a host that is up, [connect] returns a connection or throws. *)
Lemma connect_first_up_host_outcome host plan tried s :
  is_considerably_up host = true →
  (∃ id stream,
     connect_outcome (connect (host :: plan) tried s) = Returned (Some id, stream))
  ∨ ∃ e, connect_outcome (connect (host :: plan) tried s) = Thrown e.
Proof.
  intros Hup. cbn [connect]. rewrite Hup. cbn [negb].
  destruct (try_find_free_stream _ _ _) as [[[conn|] stream] s2]; [by eauto|].
  destruct (trashcan_recycle _ s2) as [recycled s3].
  destruct (match recycled with Some _ => _ | None => _ end) as [[id|] s4].
  { destruct (connection_acquire_stream id _). by eauto. }
  pose proof (allocate_connection_cases host s4) as Hcases.
  destruct (allocate_connection host s4) as [[[id|]|e|] s5]; [|done|by eauto|done].
  destruct (connection_acquire_stream id _). by eauto.
Qed.

(** Whatever the plan, [connect] returns a connection or throws: it hands
    back no null pointer and does not stop in an assertion. *)
Lemma connect_returns_connection_or_throws_aux plan tried s :
  (∃ id stream,
     connect_outcome (connect plan tried s) = Returned (Some id, stream))
  ∨ ∃ e, connect_outcome (connect plan tried s) = Thrown e.
Proof.
  induction plan as [|h plan IH]; [right; by eexists|].
  destruct (is_considerably_up h) eqn:Hup.
  - by apply connect_first_up_host_outcome.
  - by rewrite (connect_skips_down_host _ _ _ _ Hup).
Qed.

(** No host of the plan is up, or the one that is up does not answer the
    dial: [get_connection] hands over no connection, and [query] and
    [prepare] leave by its exception.  Neither returns a future, so neither
    returns the future that holds the library error. *)
Lemma query_failure_is_thrown :
  let q := mk_query "SELECT * FROM t" stream_invalid in
  let s := Fixture.session [Fixture.host1_down] Fixture.all_up in
  let s' := Fixture.session [Fixture.host1] Fixture.only_ep2_up in
  query q s = (Thrown no_host_available, s)
  ∧ prepare q s = (Thrown no_host_available, s)
  ∧ ¬ failure_returns_library_error q s
  ∧ (query q s').1
    = Thrown (cql_exception "cannot connect to host: 10.0.0.1:9042")
  ∧ (prepare q s').1
    = Thrown (cql_exception "cannot connect to host: 10.0.0.1:9042")
  ∧ ¬ failure_returns_library_error q s'.
Proof.
  cbv zeta. split; [reflexivity|]. split; [reflexivity|]. split.
  { intros Hlib. destruct Hlib as [Hquery _]; [|discriminate Hquery].
    intros id stream. vm_compute. discriminate. }
  split; [vm_compute; reflexivity|]. split; [vm_compute; reflexivity|].
  intros Hlib. destruct Hlib as [Hquery _].
  - intros id stream. vm_compute. discriminate.
  - vm_compute in Hquery. discriminate Hquery.
Qed.

(** C10 (amended). The future-returning [prepare] is the future-returning
    [query]: for every query and every session the two end the same way,
    with the same future and the same session.  Both take what
    [get_connection] gives.  Given a connection and a stream they set the
    stream on a copy of the query and hand it to the connection's [query],
    so [prepare] adds no call of the connection's [prepare].  When no
    connection can be had, [get_connection] throws and the exception leaves
    both of them, with nothing asked of any connection: the
    no-host-available exception when no host of the plan is up.  These are
    the only two ways they end: the future that holds the library error is
    never returned. *)
Theorem prepare_is_query_and_fails_by_exception
    (q : cql_query_t) (s : cql_session_impl_t) :
  prepare q s = query q s
  ∧ ((∃ id stream,
        connect_outcome (get_connection s) = Returned (Some id, stream)
        ∧ prepare q s
          = (Returned (future_of id (call_query (set_stream stream q))),
             with_connection_calls
               ((id, call_query (set_stream stream q)) :: connection_calls s)
               (session_after (get_connection s))))
     ∨ (∃ e,
          connect_outcome (get_connection s) = Thrown e
          ∧ prepare q s = (Thrown e, session_after (get_connection s))
          ∧ connection_calls (prepare q s).2 = connection_calls s))
  ∧ (∀ id q', (id, call_prepare q') ∈ connection_calls (prepare q s).2 →
              (id, call_prepare q') ∈ connection_calls s)
  ∧ (∀ e, (prepare q s).1 ≠ Returned (future_error e))
  ∧ (Forall (λ h, is_considerably_up h = false)
            (new_query_plan (_configuration s)) →
     prepare q s = (Thrown no_host_available, s)).
Proof.
  assert (prepare q s = query q s) as Hsame by done.
  split; [done|]. rewrite Hsame, query_unfold.
  pose proof (connect_keeps_connection_calls
                (new_query_plan (_configuration s)) [] s) as Hcalls.
  pose proof (connect_no_viable_host (new_query_plan (_configuration s)) [] s)
    as Hnone.
  fold (get_connection s) in Hcalls, Hnone.
  destruct (connect_returns_connection_or_throws_aux
              (new_query_plan (_configuration s)) [] s)
    as [(id & stream & Hout)|(e & Hout)];
    fold (get_connection s) in Hout; rewrite Hout; cbn.
  - split; [left; by eauto|]. split.
    { intros id' q'. rewrite elem_of_cons. by intros [[=]|?]. }
    split; [done|]. intros Hdown. rewrite (Hnone Hdown) in Hout. discriminate Hout.
  - split; [right; exists e; by rewrite Hcalls|]. split.
    { intros id' q'. by rewrite Hcalls. }
    split; [done|]. intros Hdown. rewrite (Hnone Hdown) in Hout.
    injection Hout as <-. by rewrite (Hnone Hdown).
Qed.

(** A host that answers: both hand the query, with the stream set, to the
    connection's [query]; the callback flavour of [prepare] goes to the
    connection's [prepare]. *)
Example prepare_submits_to_query :
  (prepare (mk_query "SELECT * FROM t" stream_invalid)
     (Fixture.session [Fixture.host1] Fixture.all_up)).1
  = Returned (future_of 0%N
                (call_query (mk_query "SELECT * FROM t" (stream_id 1))))
  ∧ connection_calls
      (prepare_callback (mk_query "SELECT * FROM t" stream_invalid)
         (Fixture.session [Fixture.host1] Fixture.all_up)).2
    = [(0%N, call_prepare (mk_query "SELECT * FROM t" (stream_id 1)))].
Proof. split; reflexivity. Qed.

(** ** End-to-end scenarios *)

(** A single host that is up: the first dispatch dials one connection. *)
Example scenario_happy_path :
  connect_outcome (get_connection (Fixture.saturated 0))
  = Returned (Some 0%N, stream_id 1)
  ∧ size (Fixture.saturated 1) = 1%nat
  ∧ counter_of (Fixture.saturated 1) Fixture.ep1 = 1
  ∧ ready (Fixture.saturated 1) = true.
Proof. repeat split. Qed.

(** Saturation forces a second connection. *)
Example scenario_second_connection :
  connect_outcome (get_connection (Fixture.saturated 1))
  = Returned (Some 1%N, stream_id 1)
  ∧ size (Fixture.saturated 2) = 2%nat
  ∧ counter_of (Fixture.saturated 2) Fixture.ep1 = 2.
Proof. repeat split. Qed.

(** The cap refuses a third one, and the refusal leaves the counter alone. *)
Example scenario_cap_refuses_third :
  connect_outcome (get_connection (Fixture.saturated 2))
  = Thrown cql_too_many_connections_per_host_exception
  ∧ size (Fixture.saturated 3) = 2%nat
  ∧ counter_of (Fixture.saturated 3) Fixture.ep1 = 2.
Proof. repeat split. Qed.

(** With a higher idle watermark the third dispatch moves the first
    connection to the trashcan and takes it back from there; the counter
    stays at 2 all along. *)
Example scenario_trashcan_recycle :
  connect_outcome (get_connection (Fixture.after_dispatches 2))
  = Returned (Some 0%N, stream_id 2)
  ∧ collection_of (Fixture.after_dispatches 3) Fixture.ep1 = [1%N; 0%N]
  ∧ trash_of (Fixture.after_dispatches 3) Fixture.ep1 = []
  ∧ counter_of (Fixture.after_dispatches 3) Fixture.ep1 = 2.
Proof. repeat split. Qed.

(** * Further properties of the session *)

(** ** Allocation and the counters *)

(** What [increase_connection_counter] leaves alone. *)
Lemma increase_connection_counter_frame host s b s' :
  increase_connection_counter host s = (Returned b, s') →
  outside_pool s s'
  ∧ _connection_pool s' = _connection_pool s
  ∧ _trashcan s' = _trashcan s
  ∧ connection_store s' = connection_store s
  ∧ _defunct s' = _defunct s.
Proof.
  unfold increase_connection_counter.
  destruct (try_add _ _ _) as [[] ?]; [intros [=]; subst; by repeat split|].
  destruct (try_get _ _); [|done].
  destruct (_ >? _); intros [=]; subst; by repeat split.
Qed.

(** What [allocate_connection] leaves alone, and the flags after it. *)
Lemma allocate_connection_frame host s :
  let r := allocate_connection host s in
  _connection_pool r.2 = _connection_pool s
  ∧ _trashcan r.2 = _trashcan s
  ∧ _configuration r.2 = _configuration s
  ∧ (∀ id, id ≠ client_callback_calls s → deref r.2 id = deref s id)
  ∧ match r.1 with
    | Returned _ =>
        _ready r.2 = true ∧ _defunct r.2 = false
        ∧ client_callback_calls r.2 = (client_callback_calls s + 1)%N
    | Thrown e =>
        _ready r.2 = _ready s ∧ _defunct r.2 = _defunct s
        ∧ ready_callback_calls r.2 = ready_callback_calls s
    | Aborted => True
    end.
Proof.
  cbv zeta. unfold allocate_connection, bind.
  destruct (increase_connection_counter_returns host s) as (b & s1 & Hinc).
  rewrite Hinc.
  destruct (increase_connection_counter_frame _ _ _ _ Hinc)
    as ((_ & Hdial & Hcfg & Hcalls & _ & Hready & Hrcalls)
        & Hpool & Htrash & Hstore & Hdefunct).
  destruct b; cbn.
  - unfold connection_connect, client_callback. cbn.
    rewrite Hdial.
    destruct (dial_succeeds s (endpoint host)); cbn.
    + unfold connect_callback. cbn.
      destruct (_ready_callback s1); cbn; repeat split; try done;
        try (by rewrite Hcalls);
        intros id Hne; unfold deref; cbn;
        by rewrite lookup_insert_ne, Hstore by congruence.
    + unfold decrease_connection_counter. cbn.
      destruct (try_get _ _); cbn; repeat split; try done;
        intros id Hne; unfold deref; cbn;
        by rewrite lookup_insert_ne, Hstore by congruence.
  - repeat split; try done. intros id _. unfold deref. by rewrite Hstore.
Qed.

(** X1. When [allocate_connection] returns, it returns the connection
    [_client_callback] has just made, dialled to the host's endpoint (never
    a null pointer); the dial has
    succeeded, the session is ready and not defunct, the host's endpoint is
    charged with one connection more and no other endpoint's counter has
    moved; the pool and the trashcan are as before (the caller is the one to
    pool the connection). *)
Theorem allocate_connection_success host s conn s' :
  allocate_connection host s = (Returned conn, s') →
  conn = Some (client_callback_calls s)
  ∧ deref s' (client_callback_calls s) = Some (fresh_connection (endpoint host))
  ∧ dial_succeeds s (endpoint host) = true
  ∧ _ready s' = true ∧ _defunct s' = false
  ∧ counter_of s' (endpoint host) = counter_of s (endpoint host) + 1
  ∧ (∀ ep, ep ≠ endpoint host → counter_of s' ep = counter_of s ep)
  ∧ _connection_pool s' = _connection_pool s
  ∧ _trashcan s' = _trashcan s.
Proof.
  intros Halloc.
  pose proof (allocate_connection_cases host s) as Hcases.
  pose proof (allocate_connection_frame host s) as Hframe.
  rewrite Halloc in Hcases, Hframe. cbn in Hframe.
  destruct conn as [id|]; [|done].
  destruct Hcases as (-> & Hdial & _ & Hc & Hcnt).
  destruct Hframe as (Hpool & Htrash & _ & _ & Hready & Hdefunct & _).
  repeat split; try done.
  - unfold counter_of at 1. by rewrite Hcnt, lookup_insert_eq.
  - intros ep Hne. unfold counter_of at 1. by rewrite Hcnt, lookup_insert_ne.
Qed.

Lemma allocate_connection_success_witness :
  _ready (allocate_connection Fixture.host1
            (Fixture.session [Fixture.host1] Fixture.all_up)).2 = true
  ∧ counter_of (allocate_connection Fixture.host1
                  (Fixture.session [Fixture.host1] Fixture.all_up)).2
               (endpoint Fixture.host1)
    = counter_of (Fixture.session [Fixture.host1] Fixture.all_up)
                 (endpoint Fixture.host1) + 1.
Proof.
  assert (allocate_connection Fixture.host1
            (Fixture.session [Fixture.host1] Fixture.all_up)
          = (Returned (Some 0%N),
             (allocate_connection Fixture.host1
                (Fixture.session [Fixture.host1] Fixture.all_up)).2)) as Halloc.
  { vm_compute. reflexivity. }
  destruct (allocate_connection_success _ _ _ _ Halloc)
    as (_ & _ & _ & Hready & _ & Hcounter & _).
  split; [exact Hready | exact Hcounter].
Defined.

(** X2. When [allocate_connection] throws, the session is as if the call
    had not been made, as far as the pool, the trashcan, the counters and
    the ready and defunct flags go: a counter that was raised is lowered
    again.  The too-many-connections exception means the endpoint's counter
    would have passed the maximum; the other exception means the dial
    failed. *)
Theorem allocate_connection_failure host s e s' :
  allocate_connection host s = (Thrown e, s') →
  (∀ ep, counter_of s' ep = counter_of s ep)
  ∧ _connection_pool s' = _connection_pool s
  ∧ _trashcan s' = _trashcan s
  ∧ _ready s' = _ready s ∧ _defunct s' = _defunct s
  ∧ ready_callback_calls s' = ready_callback_calls s
  ∧ (e = cql_too_many_connections_per_host_exception →
     counter_of s (endpoint host) + 1 > get_max_connections_number host s
     ∧ dial_log s' = dial_log s)
  ∧ (e ≠ cql_too_many_connections_per_host_exception →
     e = cql_exception
           ("cannot connect to host: " +:+ endpoint_to_string (endpoint host))
     ∧ dial_succeeds s (endpoint host) = false).
Proof.
  intros Halloc.
  pose proof (allocate_connection_cases host s) as Hcases.
  pose proof (allocate_connection_frame host s) as Hframe.
  rewrite Halloc in Hcases, Hframe. cbn in Hframe.
  destruct Hframe as (Hpool & Htrash & _ & _ & Hready & Hdefunct & Hcalls).
  destruct Hcases as [(-> & Hmax & Hlog & Hcnt)|(-> & Hdial & Hlog & Hcnt)];
    repeat split; try done.
Qed.

Lemma allocate_connection_failure_witness :
  counter_of (allocate_connection Fixture.host1
                (Fixture.session [Fixture.host1] Fixture.only_ep2_up)).2
             Fixture.ep1
  = counter_of (Fixture.session [Fixture.host1] Fixture.only_ep2_up)
               Fixture.ep1.
Proof.
  assert (allocate_connection Fixture.host1
            (Fixture.session [Fixture.host1] Fixture.only_ep2_up)
          = (Thrown (cql_exception "cannot connect to host: 10.0.0.1:9042"),
             (allocate_connection Fixture.host1
                (Fixture.session [Fixture.host1] Fixture.only_ep2_up)).2))
    as Halloc.
  { vm_compute. reflexivity. }
  exact (proj1 (allocate_connection_failure _ _ _ _ Halloc) Fixture.ep1).
Defined.

(** X3. [allocate_connection] followed by [free_connection] of the
    connection it returned leaves every endpoint's counter at the value it
    had, and the connection closed. *)
Theorem allocate_free_round_trip host s id s' :
  allocate_connection host s = (Returned (Some id), s') →
  (∀ ep, counter_of (free_connection (Some id) s') ep = counter_of s ep)
  ∧ conn_closed <$> deref (free_connection (Some id) s') id = Some true.
Proof.
  intros Halloc. split; [by eapply allocate_then_free_restores_counter|].
  pose proof (allocate_connection_cases host s) as Hcases.
  rewrite Halloc in Hcases. destruct Hcases as (_ & _ & _ & Hc & _).
  destruct (free_connection_store id _ s' Hc) as (_ & _ & _ & Hstore).
  unfold deref in *. by rewrite Hstore, lookup_alter_eq, Hc.
Qed.

Lemma allocate_free_round_trip_witness :
  counter_of (free_connection (Some 0%N)
                (allocate_connection Fixture.host1
                   (Fixture.session [Fixture.host1] Fixture.all_up)).2)
             Fixture.ep1
  = counter_of (Fixture.session [Fixture.host1] Fixture.all_up) Fixture.ep1.
Proof.
  assert (allocate_connection Fixture.host1
            (Fixture.session [Fixture.host1] Fixture.all_up)
          = (Returned (Some 0%N),
             (allocate_connection Fixture.host1
                (Fixture.session [Fixture.host1] Fixture.all_up)).2)) as Halloc.
  { vm_compute. reflexivity. }
  exact (proj1 (allocate_free_round_trip _ _ _ _ Halloc) Fixture.ep1).
Defined.

(** X4. Where at least one connection per host is allowed and the counter
    of the host's endpoint does not exceed the maximum,
    [increase_connection_counter] keeps it so: an accepted increment adds
    one and stays within the maximum, a refused one leaves every counter
    where it was. *)
Theorem increase_connection_counter_within_cap host s b s' :
  1 ≤ get_max_connections_number host s →
  counter_of s (endpoint host) ≤ get_max_connections_number host s →
  increase_connection_counter host s = (Returned b, s') →
  counter_of s' (endpoint host) ≤ get_max_connections_number host s
  ∧ (b = true → counter_of s' (endpoint host) = counter_of s (endpoint host) + 1)
  ∧ (b = false → ∀ ep, counter_of s' ep = counter_of s ep).
Proof.
  intros Hcap Hle Hinc.
  split; [by eapply increase_connection_counter_cap|]. split.
  - intros ->. apply increase_connection_counter_true in Hinc.
    unfold counter_of at 1. by rewrite Hinc, lookup_insert_eq.
  - intros -> ep. by destruct (increase_connection_counter_false _ _ _ ep Hinc).
Qed.

Lemma increase_connection_counter_within_cap_witness :
  counter_of (increase_connection_counter Fixture.host1 (Fixture.saturated 2)).2
             (endpoint Fixture.host1)
  ≤ get_max_connections_number Fixture.host1 (Fixture.saturated 2).
Proof.
  refine (proj1 (increase_connection_counter_within_cap Fixture.host1
                   (Fixture.saturated 2) false
                   (increase_connection_counter Fixture.host1
                      (Fixture.saturated 2)).2 _ _ _)).
  - vm_compute. discriminate.
  - vm_compute. discriminate.
  - vm_compute. reflexivity.
Defined.

(** X5. As long as the endpoint's counter is below the least value the
    language allows for [LONG_MAX], so that the increment cannot wrap and
    the cast to [long] changes nothing, [increase_connection_counter]
    refuses exactly when the endpoint already has a counter and one more
    would exceed the maximum; an endpoint without a counter is never
    refused, whatever the maximum.  It never stops in its assertion. *)
Theorem increase_connection_counter_refuses host s :
  counter_of s (endpoint host) < LONG_MAX_least →
  ((increase_connection_counter host s).1 = Returned false
   ↔ ∃ counter, _connection_counters s !! endpoint host = Some counter
                ∧ counter + 1 > get_max_connections_number host s)
  ∧ ((increase_connection_counter host s).1 = Returned true
     ↔ _connection_counters s !! endpoint host = None
       ∨ ∃ counter, _connection_counters s !! endpoint host = Some counter
                    ∧ counter + 1 ≤ get_max_connections_number host s)
  ∧ (increase_connection_counter host s).1 ≠ Aborted.
Proof.
  intros _.
  destruct (_connection_counters s !! endpoint host) as [counter|] eqn:Hc.
  - rewrite (increase_connection_counter_next _ _ _ Hc).
    destruct (counter + 1 >? _) eqn:Hcmp; cbn.
    + split; [|split; [|done]].
      * split; [intros _; exists counter; split; [done|lia] | done].
      * split; [done|]. intros [[=]|(c & [= <-] & Hle)]. lia.
    + split; [|split; [|done]].
      * split; [done|]. intros (c & [= <-] & Hgt). lia.
      * split; [|done]. intros _. right. exists counter. split; [done|lia].
  - rewrite (increase_connection_counter_first _ _ Hc). cbn.
    split; [|split; [|done]].
    + split; [done|]. by intros (c & [=] & _).
    + split; [by left|done].
Qed.

Lemma increase_connection_counter_refuses_witness :
  (increase_connection_counter Fixture.host1 (Fixture.saturated 2)).1
  = Returned false.
Proof.
  refine (proj2 (proj1 (increase_connection_counter_refuses Fixture.host1
                          (Fixture.saturated 2) _)) _).
  - vm_compute. reflexivity.
  - exists 2. split; vm_compute; reflexivity.
Defined.

(** ** [size] against the pool *)

Lemma size_fold_permutation (l l' : list (cql_endpoint_t * list N)) :
  l ≡ₚ l' →
  foldr (λ host_it connections_count,
           (connections_count + length host_it.2)%nat) 0%nat l
  = foldr (λ host_it connections_count,
             (connections_count + length host_it.2)%nat) 0%nat l'.
Proof.
  induction 1 as [|x l l' _ IH|x y l|l l' l'' _ IH1 _ IH2]; cbn;
    [done | by rewrite IH | lia | congruence].
Qed.

Lemma size_insert_fresh pool ep c s :
  pool !! ep = None →
  size (with_pool (<[ep := c]> pool) s)
  = (size (with_pool pool s) + length c)%nat.
Proof.
  intros Hnone. unfold size. cbn.
  by rewrite (size_fold_permutation _ _ (map_to_list_insert pool ep c Hnone)).
Qed.

(** Replacing the collection of an endpoint changes [size] by the
    difference of the two lengths. *)
Lemma size_set_collection ep c s :
  (size (set_collection ep c s) + length (collection_of s ep))%nat
  = (size s + length c)%nat.
Proof.
  unfold set_collection, collection_of.
  destruct (_connection_pool s !! ep) as [c0|] eqn:Hpool; cbn.
  - assert (size s
            = (size (with_pool (delete ep (_connection_pool s)) s)
               + length c0)%nat) as ->.
    { rewrite <- (size_insert_fresh _ ep) by apply lookup_delete_eq.
      rewrite insert_delete_id by done. by destruct s. }
    rewrite <- (insert_delete_eq (_connection_pool s)).
    rewrite size_insert_fresh by apply lookup_delete_eq. lia.
  - rewrite size_insert_fresh by done.
    replace (with_pool (_connection_pool s) s) with s by (by destruct s). lia.
Qed.

(** ** Freeing connections *)

Lemma free_connection_counter_entry id c n s :
  deref s id = Some c →
  _connection_counters s !! conn_endpoint c = Some n →
  _connection_counters (free_connection (Some id) s)
  = <[conn_endpoint c := n - 1]> (_connection_counters s).
Proof.
  intros Hc Hn. unfold free_connection, try_get. rewrite Hc. cbn.
  by rewrite Hn.
Qed.

Lemma free_connection_closes id c s :
  deref s id = Some c →
  deref (free_connection (Some id) s) id = Some (connection_close c).
Proof.
  intros Hc.
  destruct (free_connection_store id c s Hc) as (_ & _ & _ & Hstore).
  unfold deref in *. by rewrite Hstore, lookup_alter_eq, Hc.
Qed.

(** X6. [free_connection] ignores a null pointer.  Given a connection, it
    closes it and, when the connection's endpoint has a counter, lowers
    that counter by one without looking at its value or at whether the
    connection was closed before: freeing the same connection twice lowers
    the counter twice.  Without a counter for the endpoint none is made.
    The pool and the trashcan are not touched. *)
Theorem free_connection_counts id c s :
  deref s id = Some c →
  free_connection None s = s
  ∧ deref (free_connection (Some id) s) id = Some (connection_close c)
  ∧ _connection_pool (free_connection (Some id) s) = _connection_pool s
  ∧ _trashcan (free_connection (Some id) s) = _trashcan s
  ∧ (_connection_counters s !! conn_endpoint c = None →
     _connection_counters (free_connection (Some id) s) = _connection_counters s)
  ∧ (∀ n, _connection_counters s !! conn_endpoint c = Some n →
       _connection_counters (free_connection (Some id) s)
       = <[conn_endpoint c := n - 1]> (_connection_counters s)
       ∧ _connection_counters
           (free_connection (Some id) (free_connection (Some id) s))
         = <[conn_endpoint c := n - 2]> (_connection_counters s)).
Proof.
  intros Hc.
  destruct (free_connection_store id c s Hc) as (_ & Hpool & Htrash & Hstore).
  assert (∀ s0 c0 n, deref s0 id = Some c0 →
            _connection_counters s0 !! conn_endpoint c0 = Some n →
            _connection_counters (free_connection (Some id) s0)
            = <[conn_endpoint c0 := n - 1]> (_connection_counters s0)) as Hone.
  { intros s0 c0 n Hc0 Hn. unfold free_connection, try_get. rewrite Hc0. cbn.
    by rewrite Hn. }
  split; [done|]. split.
  { unfold deref in *. by rewrite Hstore, lookup_alter_eq, Hc. }
  split; [done|]. split; [done|]. split.
  - intros Hnone. unfold free_connection, try_get. rewrite Hc. cbn.
    by rewrite Hnone.
  - intros n Hn. split; [by apply Hone|].
    rewrite (Hone (free_connection (Some id) s) (connection_close c) (n - 1)).
    + rewrite (Hone s c n) by done. cbn. rewrite insert_insert_eq.
      f_equal. lia.
    + unfold deref in *. by rewrite Hstore, lookup_alter_eq, Hc.
    + rewrite (Hone s c n) by done. cbn. by rewrite lookup_insert_eq.
Qed.

Lemma free_connection_counts_witness :
  _connection_counters
    (free_connection (Some 0%N)
       (free_connection (Some 0%N) (Fixture.saturated 1)))
  = <[conn_endpoint
        (mk_connection Fixture.ep1 true false (seqZ 2 126) 1) := 1 - 2]>
      (_connection_counters (Fixture.saturated 1)).
Proof.
  refine (proj2 (proj2 (proj2 (proj2 (proj2 (proj2
            (free_connection_counts 0%N
               (mk_connection Fixture.ep1 true false (seqZ 2 126) 1)
               (Fixture.saturated 1) _))))) 1 _)).
  - vm_compute. reflexivity.
  - vm_compute. reflexivity.
Defined.

Lemma filter_other_absent (id : N) (c : list N) :
  id ∉ c → filter (λ x, x ≠ id) c = c.
Proof.
  induction c as [|x c IH]; [done|].
  rewrite not_elem_of_cons. intros [Hne Hnot].
  rewrite filter_cons_True by done. by rewrite IH.
Qed.

Lemma collection_try_erase_eq id c :
  collection_try_erase id c
  = (bool_decide (id ∈ c), filter (λ x, x ≠ id) c).
Proof.
  unfold collection_try_erase. case_bool_decide as Hin; [done|].
  by rewrite filter_other_absent.
Qed.

Lemma collection_of_free_connection conn s ep :
  collection_of (free_connection conn s) ep = collection_of s ep.
Proof.
  unfold free_connection. destruct conn as [id|]; [|done].
  destruct (deref s id); [|done]. by destruct (try_get _ _).
Qed.

Lemma collection_of_set_collection_ne ep ep' c s :
  ep ≠ ep' → collection_of (set_collection ep c s) ep' = collection_of s ep'.
Proof.
  intros Hne. unfold collection_of, set_collection. cbn.
  by rewrite lookup_insert_ne.
Qed.

Lemma collection_of_try_remove_connection connections id s ep :
  collection_of (try_remove_connection connections id s) ep
  = if decide (ep = connections)
    then filter (λ x, x ≠ id) (collection_of s ep)
    else collection_of s ep.
Proof.
  unfold try_remove_connection. rewrite collection_try_erase_eq.
  case_bool_decide as Hin.
  - rewrite collection_of_free_connection.
    case_decide as Heq; [subst; apply collection_of_set_collection|].
    by apply collection_of_set_collection_ne.
  - case_decide as Heq; [|done]. subst. by rewrite filter_other_absent.
Qed.

(** X7. [try_remove_connection] for an id that the collection does not
    hold changes nothing: no connection is closed, no counter lowered.  For
    an id the collection holds, the id leaves the collection (the other
    connections stay, in their order), the connection is closed and the
    counter of its endpoint, when there is one, goes down by one; the
    collections of other endpoints and the trashcan are as before. *)
Theorem try_remove_connection_spec connections id s :
  (id ∉ collection_of s connections →
   try_remove_connection connections id s = s)
  ∧ (id ∈ collection_of s connections →
     collection_of (try_remove_connection connections id s) connections
     = filter (λ x, x ≠ id) (collection_of s connections)
     ∧ (id ∉ collection_of (try_remove_connection connections id s) connections)
     ∧ (∀ ep, ep ≠ connections →
          collection_of (try_remove_connection connections id s) ep
          = collection_of s ep)
     ∧ _trashcan (try_remove_connection connections id s) = _trashcan s
     ∧ ∀ c, deref s id = Some c →
         deref (try_remove_connection connections id s) id
         = Some (connection_close c)
         ∧ ∀ n, _connection_counters s !! conn_endpoint c = Some n →
             _connection_counters (try_remove_connection connections id s)
             = <[conn_endpoint c := n - 1]> (_connection_counters s)).
Proof.
  split.
  - intros Hnot. unfold try_remove_connection.
    rewrite collection_try_erase_eq. by rewrite bool_decide_eq_false_2.
  - intros Hin.
    pose proof (collection_of_try_remove_connection connections id s) as Hcoll.
    split; [by rewrite Hcoll, decide_True|]. split.
    { rewrite Hcoll, decide_True by done.
      intros Hx. by apply list_elem_of_filter in Hx as [? _]. }
    split; [intros ep Hne; by rewrite Hcoll, decide_False|].
    unfold try_remove_connection. rewrite collection_try_erase_eq.
    rewrite bool_decide_eq_true_2 by done.
    set (s1 := set_collection connections _ s). split.
    + destruct (deref s1 id) as [c|] eqn:Hc.
      * by destruct (free_connection_store id c s1 Hc) as (_ & _ & -> & _).
      * unfold free_connection. by rewrite Hc.
    + intros c Hc. split; [by apply free_connection_closes|].
      intros n Hcount. by apply (free_connection_counter_entry id c n s1).
Qed.

(** ** [add_to_connection_pool] *)

(** X9. [add_to_connection_pool] makes sure the endpoint has a collection
    without ever replacing one: afterwards the pool holds, under the
    endpoint, the very connections it held before (none if there was no
    collection), every other entry of the pool is as it was, [size] has not
    changed, and a second call changes nothing more. *)
Theorem add_to_connection_pool_installs_once host_address s :
  (_connection_pool (add_to_connection_pool host_address s) !! host_address)
  = Some (collection_of s host_address)
  ∧ (∀ ep, ep ≠ host_address →
       _connection_pool (add_to_connection_pool host_address s) !! ep
       = _connection_pool s !! ep)
  ∧ (is_Some (_connection_pool s !! host_address) →
     add_to_connection_pool host_address s = s)
  ∧ add_to_connection_pool host_address (add_to_connection_pool host_address s)
    = add_to_connection_pool host_address s
  ∧ size (add_to_connection_pool host_address s) = size s.
Proof.
  assert (∀ s0 c, _connection_pool s0 !! host_address = Some c →
            add_to_connection_pool host_address s0 = s0) as Hsome.
  { intros s0 c Hc. unfold add_to_connection_pool, try_get. by rewrite Hc. }
  assert (_connection_pool s !! host_address = None →
          add_to_connection_pool host_address s
          = with_pool (<[host_address := []]> (_connection_pool s)) s) as Hnone.
  { intros Hc. unfold add_to_connection_pool, try_get, try_add. by rewrite Hc. }
  unfold collection_of.
  destruct (_connection_pool s !! host_address) as [c|] eqn:Hpool; cbn.
  - rewrite !(Hsome s c Hpool). by rewrite Hpool.
  - rewrite !(Hnone eq_refl). cbn.
    split; [by rewrite lookup_insert_eq|].
    split; [intros ep Hne; by rewrite lookup_insert_ne|].
    split; [by intros [? [=]]|]. split.
    + apply (Hsome _ []). cbn. by rewrite lookup_insert_eq.
    + rewrite size_insert_fresh by done.
      replace (with_pool (_connection_pool s) s) with s by (by destruct s).
      cbn. lia.
Qed.

(** ** [free_connections] *)

(** With one turn more than the collection has connections, the [while]
    loop of [free_connections] ends: after no turn when the id is not in
    the collection, after one when it is. *)
Lemma free_connections_erase_ends connections conn_id s :
  free_connections_erase (S (length (collection_of s connections)))
    connections conn_id None s
  = Some (if decide (conn_id ∈ collection_of s connections)
          then (Some conn_id,
                set_collection connections
                  (filter (λ x, x ≠ conn_id) (collection_of s connections)) s)
          else (None, s)).
Proof.
  cbn [free_connections_erase]. case_bool_decide as Hin.
  - rewrite decide_True by done. rewrite collection_try_erase_eq.
    rewrite bool_decide_eq_true_2 by done.
    destruct (collection_of s connections) as [|x c] eqn:Hc;
      [by apply elem_of_nil in Hin|].
    cbn [length free_connections_erase].
    rewrite collection_of_set_collection.
    rewrite bool_decide_eq_false_2; [done|].
    intros Hx. by apply list_elem_of_filter in Hx as [? _].
  - by rewrite decide_False.
Qed.

Lemma free_connections_step connections conn_id s :
  match free_connections_erase (S (length (collection_of s connections)))
          connections conn_id None s with
  | Some (conn, s') =>
      free_connection conn s' = try_remove_connection connections conn_id s
  | None => False
  end.
Proof.
  rewrite free_connections_erase_ends. unfold try_remove_connection.
  rewrite collection_try_erase_eq. case_decide as Hin.
  - by rewrite bool_decide_eq_true_2.
  - by rewrite bool_decide_eq_false_2.
Qed.

Lemma filter_not_listed_cons (id : N) (ids c : list N) :
  filter (λ x, x ∉ ids) (filter (λ x, x ≠ id) c)
  = filter (λ x, x ∉ id :: ids) c.
Proof.
  induction c as [|x c IH]; [done|].
  destruct (decide (x = id)) as [->|Hne].
  - rewrite (filter_cons_False (λ x, x ≠ id)) by (intros ?; done).
    rewrite (filter_cons_False (λ x, x ∉ id :: ids)); [done|].
    intros Hnot. apply Hnot, list_elem_of_here.
  - rewrite (filter_cons_True (λ x, x ≠ id)) by done.
    destruct (decide (x ∈ ids)) as [Hin|Hnot].
    + rewrite (filter_cons_False (λ x, x ∉ ids)) by (intros ?; done).
      rewrite (filter_cons_False (λ x, x ∉ id :: ids)); [done|].
      intros Hx. apply Hx. by apply list_elem_of_further.
    + rewrite (filter_cons_True (λ x, x ∉ ids)) by done.
      rewrite (filter_cons_True (λ x, x ∉ id :: ids)); [by rewrite IH|].
      rewrite elem_of_cons. by intros [?|?].
Qed.

Lemma try_remove_connection_absent connections id s :
  id ∉ collection_of s connections →
  try_remove_connection connections id s = s.
Proof.
  intros Hnot. unfold try_remove_connection.
  rewrite collection_try_erase_eq. by rewrite bool_decide_eq_false_2.
Qed.

(** X8. [free_connections] always comes to an end, and does for each
    listed id, in turn, what [try_remove_connection] does: afterwards the
    collection holds the connections it held that were not listed, in their
    order; the collections of other endpoints are as before; and when none
    of the listed ids is in the collection the session is unchanged. *)
Theorem free_connections_removes_listed connections connections_to_remove s :
  free_connections connections connections_to_remove s
  = Some (foldl (λ s conn_id, try_remove_connection connections conn_id s)
                s connections_to_remove)
  ∧ (∀ s', free_connections connections connections_to_remove s = Some s' →
       collection_of s' connections
       = filter (λ x, x ∉ connections_to_remove) (collection_of s connections)
       ∧ (∀ ep, ep ≠ connections → collection_of s' ep = collection_of s ep)
       ∧ _trashcan s' = _trashcan s)
  ∧ ((∀ id, id ∈ connections_to_remove → id ∉ collection_of s connections) →
     free_connections connections connections_to_remove s = Some s).
Proof.
  assert (∀ ids s0, free_connections connections ids s0
          = Some (foldl (λ s conn_id, try_remove_connection connections conn_id s)
                        s0 ids)) as Hfold.
  { induction ids as [|id ids IH]; intros s0; [done|].
    cbn [free_connections foldl].
    pose proof (free_connections_step connections id s0) as Hstep.
    destruct (free_connections_erase _ _ _ _ _) as [[conn s1]|]; [|done].
    by rewrite Hstep, IH. }
  split; [apply Hfold|]. split.
  - intros s'. rewrite Hfold. intros [= <-].
    revert s. induction connections_to_remove as [|id ids IH]; intros s.
    + cbn. split; [|done].
      induction (collection_of s connections) as [|x c IHc]; [done|].
      rewrite filter_cons_True by apply not_elem_of_nil. by rewrite <- IHc.
    + cbn [foldl]. destruct (IH (try_remove_connection connections id s))
        as (Hcoll & Hother & Htrash).
      pose proof (collection_of_try_remove_connection connections id s) as Hrem.
      split; [|split].
      * rewrite Hcoll, Hrem, decide_True by done.
        apply filter_not_listed_cons.
      * intros ep Hne. by rewrite Hother, Hrem, decide_False.
      * rewrite Htrash. unfold try_remove_connection.
        rewrite collection_try_erase_eq.
        destruct (bool_decide _); [|done].
        set (s1 := set_collection connections _ s).
        destruct (deref s1 id) as [c|] eqn:Hc.
        -- by destruct (free_connection_store id c s1 Hc) as (_ & _ & -> & _).
        -- unfold free_connection. by rewrite Hc.
  - rewrite Hfold. revert s.
    induction connections_to_remove as [|id ids IH]; intros s Hnone; [done|].
    cbn [foldl].
    rewrite try_remove_connection_absent by apply Hnone, list_elem_of_here.
    apply IH. intros x Hx. apply Hnone. by apply list_elem_of_further.
Qed.

(** ** [try_find_free_stream]: what it returns and what it evicts *)

(** A turn of the loop that ends it does so with the visited connection,
    which is healthy and not busy and has given a valid stream. *)
Lemma try_find_free_stream_body_found host connections conn_id s id stream s1 :
  try_find_free_stream_body host connections conn_id s = (Some (id, stream), s1) →
  id = conn_id
  ∧ is_invalid stream = false
  ∧ ∃ conn, deref s conn_id = Some conn
      ∧ is_healthy conn = true
      ∧ conn_in_flight conn
        < max_simultaneous_requests_per_connection_treshold
            (pooling_options (_configuration s)) (distance host)
      ∧ stream = (acquire_stream conn).1
      ∧ deref s1 conn_id = Some (acquire_stream conn).2
      ∧ collection_of s1 connections = collection_of s connections.
Proof.
  unfold try_find_free_stream_body.
  destruct (deref s conn_id) as [conn|] eqn:Hconn; [|done].
  destruct (is_healthy conn) eqn:Hhealthy; cbn [negb]; [|done].
  destruct (is_busy conn _) eqn:Hbusy; cbn [negb].
  { destruct (_ >? _); [|done]. destruct (is_free conn _); [|done].
    by destruct (collection_try_erase _ _) as [[] ?]. }
  unfold connection_acquire_stream. rewrite Hconn.
  destruct (acquire_stream conn) as [st conn'] eqn:Hacq.
  destruct (is_invalid st) eqn:Hinv; cbn [negb]; [done|].
  intros [= <- <- <-]. split; [done|]. split; [done|]. exists conn.
  unfold is_busy in Hbusy. apply negb_false_iff, Z.ltb_lt in Hbusy.
  rewrite Hacq. repeat split; try done.
  unfold deref in *. cbn. by rewrite lookup_alter_eq, Hconn.
Qed.

(** No turn of the loop changes the health of a connection. *)
Lemma try_find_free_stream_body_health host connections conn_id s x :
  is_healthy <$> deref (try_find_free_stream_body host connections conn_id s).2 x
  = is_healthy <$> deref s x.
Proof.
  unfold try_find_free_stream_body.
  destruct (deref s conn_id) as [conn|] eqn:Hconn; [|done].
  destruct (is_healthy conn) eqn:Hhealthy; cbn [negb].
  - destruct (is_busy conn _); cbn [negb].
    + destruct (_ >? _); [|done]. destruct (is_free conn _); [|done].
      destruct (collection_try_erase _ _) as [[] c]; [|done].
      cbn [snd]. unfold trashcan_put.
      by destruct (deref (set_collection connections c s) conn_id).
    + unfold connection_acquire_stream. rewrite Hconn.
      assert (is_healthy (acquire_stream conn).2 = is_healthy conn) as Hsame.
      { unfold acquire_stream. by destruct (conn_free_streams conn). }
      destruct (acquire_stream conn) as [st conn'].
      assert (is_healthy <$> deref (update_connection conn_id (λ _, conn') s) x
              = is_healthy <$> deref s x) as Hx.
      { unfold deref in *. cbn.
        destruct (decide (conn_id = x)) as [<-|Hne].
        - rewrite lookup_alter_eq, Hconn. cbn. by f_equal.
        - by rewrite lookup_alter_ne. }
      by destruct (negb (is_invalid st)).
  - cbn [snd]. unfold try_remove_connection.
    destruct (collection_try_erase _ _) as [[] c]; [|done].
    set (s1 := set_collection connections c s).
    destruct (free_connection_store conn_id conn s1 Hconn) as (_ & _ & _ & Hstore).
    unfold deref in *. rewrite Hstore.
    destruct (decide (conn_id = x)) as [<-|Hne].
    + rewrite lookup_alter_eq. cbn in *. rewrite Hconn. done.
    + by rewrite lookup_alter_ne.
Qed.

Lemma try_find_free_stream_loop_health host connections ids s x :
  is_healthy <$> deref (try_find_free_stream_loop host connections ids s).2 x
  = is_healthy <$> deref s x.
Proof.
  revert s. induction ids as [|id ids IH]; intros s; [done|].
  cbn [try_find_free_stream_loop].
  pose proof (try_find_free_stream_body_health host connections id s x) as Hb.
  destruct (try_find_free_stream_body host connections id s)
    as [[[conn stream]|] s1]; [done|].
  cbn [snd] in Hb. by rewrite IH.
Qed.

Lemma try_find_free_stream_loop_shrinks host connections ids s x :
  x ∈ collection_of (try_find_free_stream_loop host connections ids s).2 connections →
  x ∈ collection_of s connections.
Proof.
  revert s. induction ids as [|id ids IH]; intros s; [done|].
  cbn [try_find_free_stream_loop].
  destruct (try_find_free_stream_body_spec host connections id s)
    as (_ & _ & Hsub & _).
  destruct (try_find_free_stream_body host connections id s)
    as [[[conn stream]|] s1]; cbn [snd] in *; [by auto|].
  intros Hx. by apply Hsub, IH.
Qed.

(** A loop that has gone through all of [ids] without finding a stream has
    left none of them in the collection unhealthy. *)
Lemma try_find_free_stream_loop_evicts host connections ids s stream s' :
  try_find_free_stream_loop host connections ids s = (None, stream, s') →
  stream = stream_invalid
  ∧ ∀ x conn, x ∈ ids → x ∈ collection_of s' connections →
      deref s' x = Some conn → is_healthy conn = true.
Proof.
  revert s. induction ids as [|id ids IH]; intros s.
  { intros [= <- <-]. split; [done|]. intros x conn Hx. by apply elem_of_nil in Hx. }
  cbn [try_find_free_stream_loop].
  destruct (try_find_free_stream_body host connections id s)
    as [[[conn0 stream0]|] s1] eqn:Hbody; [done|].
  intros Hloop. destruct (IH s1 Hloop) as [-> Hrest]. split; [done|].
  intros x conn Hx Hin Hconn. apply elem_of_cons in Hx as [->|Hx]; [|by eauto].
  destruct (is_healthy conn) eqn:Hhealthy; [done|]. exfalso.
  pose proof (try_find_free_stream_loop_health host connections ids s1 id) as H1.
  pose proof (try_find_free_stream_body_health host connections id s id) as H2.
  rewrite Hloop in H1. rewrite Hbody in H2. cbn [snd] in H1, H2.
  rewrite Hconn in H1. cbn in H1. rewrite Hhealthy in H1.
  pose proof (try_find_free_stream_loop_shrinks host connections ids s1 id) as H3.
  rewrite Hloop in H3. specialize (H3 Hin).
  destruct (deref s id) as [c0|] eqn:Hc0.
  2: { destruct (deref s1 id); by cbn in *. }
  assert (is_healthy c0 = false) as Hc0h.
  { destruct (deref s1 id); cbn in *; congruence. }
  revert Hbody. unfold try_find_free_stream_body. rewrite Hc0, Hc0h. cbn [negb].
  intros [= <-].
  rewrite collection_of_try_remove_connection, decide_True in H3 by done.
  by apply list_elem_of_filter in H3 as [? _].
Qed.

Lemma try_find_free_stream_loop_found host connections s0 ids s id stream s' :
  loop_invariant connections s0 s →
  (∀ x, x ∈ ids → x ∈ collection_of s0 connections) →
  try_find_free_stream_loop host connections ids s = (Some id, stream, s') →
  id ∈ collection_of s0 connections
  ∧ is_invalid stream = false
  ∧ ∃ conn, deref s0 id = Some conn
      ∧ is_healthy conn = true
      ∧ conn_in_flight conn
        < max_simultaneous_requests_per_connection_treshold
            (pooling_options (_configuration s0)) (distance host)
      ∧ stream = (acquire_stream conn).1
      ∧ deref s' id = Some (acquire_stream conn).2.
Proof.
  revert s. induction ids as [|x ids IH]; intros s Hinv Hids; [done|].
  cbn [try_find_free_stream_loop].
  pose proof (loop_invariant_body host connections s0 x s Hinv) as Hinv'.
  destruct (try_find_free_stream_body host connections x s)
    as [[[conn0 stream0]|] s1] eqn:Hbody.
  - intros [= -> -> ->].
    apply try_find_free_stream_body_found in Hbody
      as (-> & Hvalid & conn & Hconn & Hhealthy & Hbusy & Hstream & Hafter & _).
    destruct Hinv as (Hcfg & _ & _ & Hstore).
    split; [apply Hids, list_elem_of_here|]. split; [done|].
    exists conn. rewrite <- Hcfg. eauto 10.
  - apply IH; [by apply Hinv'|].
    intros y Hy. by apply Hids, list_elem_of_further.
Qed.

(** X10. The connection [try_find_free_stream] returns is one of the
    collection it was called on; when the call started it was healthy and
    had fewer requests in flight than the maximum per connection; and the
    stream returned with it is a valid stream acquired from it (the returned
    session holds the connection with that stream taken).  An unhealthy or
    a busy connection is never returned. *)
Theorem try_find_free_stream_returns_usable host connections s id stream s' :
  try_find_free_stream host connections s = (Some id, stream, s') →
  id ∈ collection_of s connections
  ∧ is_invalid stream = false
  ∧ ∃ conn, deref s id = Some conn
      ∧ is_healthy conn = true
      ∧ is_busy conn
          (max_simultaneous_requests_per_connection_treshold
             (pooling_options (_configuration s)) (distance host)) = false
      ∧ acquire_stream conn = (stream, (acquire_stream conn).2)
      ∧ deref s' id = Some (acquire_stream conn).2.
Proof.
  unfold try_find_free_stream. intros Hloop.
  apply (try_find_free_stream_loop_found host connections s) in Hloop
    as (Hin & Hvalid & conn & Hconn & Hhealthy & Hbusy & -> & Hafter);
    [|apply loop_invariant_start|done].
  split; [done|]. split; [done|]. exists conn.
  split; [done|]. split; [done|]. split.
  - unfold is_busy. by apply negb_false_iff, Z.ltb_lt.
  - split; [by destruct (acquire_stream conn)|done].
Qed.

Lemma try_find_free_stream_returns_usable_witness :
  0%N ∈ collection_of
          (init (Fixture.session [Fixture.host1] Fixture.all_up)).2 Fixture.ep1.
Proof.
  refine (proj1 (try_find_free_stream_returns_usable Fixture.host1 Fixture.ep1
                   _ 0%N (stream_id 1)
                   (try_find_free_stream Fixture.host1 Fixture.ep1
                      (init (Fixture.session [Fixture.host1] Fixture.all_up)).2).2
                   _)).
  vm_compute. reflexivity.
Defined.

(** X11. When [try_find_free_stream] finds no stream, it hands back the
    invalid stream and a null pointer after having visited every connection
    of the collection: the collection has only lost connections, every
    connection that was unhealthy has left it, and every connection still
    in it is healthy. *)
Theorem try_find_free_stream_evicts_unhealthy host connections s stream s' :
  try_find_free_stream host connections s = (None, stream, s') →
  stream = stream_invalid
  ∧ (∀ id, id ∈ collection_of s' connections → id ∈ collection_of s connections)
  ∧ (∀ id c, id ∈ collection_of s' connections → deref s' id = Some c →
       is_healthy c = true)
  ∧ (∀ id c, id ∈ collection_of s connections → deref s id = Some c →
       is_healthy c = false → id ∉ collection_of s' connections).
Proof.
  unfold try_find_free_stream. intros Hloop.
  pose proof (try_find_free_stream_loop_evicts _ _ _ _ _ _ Hloop) as [-> Hevict].
  pose proof (λ x, try_find_free_stream_loop_shrinks host connections
                     (collection_of s connections) s x) as Hshrink.
  pose proof (λ x, try_find_free_stream_loop_health host connections
                     (collection_of s connections) s x) as Hhealth.
  rewrite Hloop in Hshrink, Hhealth. cbn [snd] in Hshrink, Hhealth.
  split; [done|]. split; [done|]. split.
  - intros id c Hin Hc. eapply Hevict; eauto.
  - intros id c Hin Hc Hunhealthy Hin'.
    specialize (Hhealth id). rewrite Hc in Hhealth. cbn in Hhealth.
    destruct (deref s' id) as [c'|] eqn:Hc'; [|done].
    cbn in Hhealth. injection Hhealth as Hhealth.
    rewrite (Hevict id c' (Hshrink id Hin') Hin' Hc') in Hhealth. congruence.
Qed.

Lemma try_find_free_stream_evicts_unhealthy_witness :
  0%N ∉ collection_of
          (try_find_free_stream Fixture.host1 Fixture.ep1
             (connection_fails 0%N (Fixture.saturated 1))).2
          Fixture.ep1.
Proof.
  refine (proj2 (proj2 (proj2
            (try_find_free_stream_evicts_unhealthy Fixture.host1 Fixture.ep1
               (connection_fails 0%N (Fixture.saturated 1)) stream_invalid
               (try_find_free_stream Fixture.host1 Fixture.ep1
                  (connection_fails 0%N (Fixture.saturated 1))).2 _)))
            0%N (mk_connection Fixture.ep1 false false (seqZ 2 126) 1) _ _ _).
  - vm_compute. reflexivity.
  - vm_compute. apply list_elem_of_here.
  - vm_compute. reflexivity.
  - reflexivity.
Defined.

(** ** Dispatch: how [connect] ends *)

Lemma connect_skips_down_hosts downs plan tried s :
  Forall (λ h, is_considerably_up h = false) downs →
  connect (downs ++ plan) tried s = connect plan tried s.
Proof.
  induction 1 as [|h downs Hdown _ IH]; [done|].
  cbn [app]. by rewrite connect_skips_down_host.
Qed.

(** X12. [connect] ends at the first host of the plan that is considerably
    up: the hosts before it are passed over, the hosts after it are never
    looked at (the call ends as it does on that host alone), the tried list
    grows by exactly that host's endpoint, at most one dial is made, to
    that host, and the call does not end in the no-host-available
    exception. *)
Theorem connect_ends_at_first_up_host downs host rest tried s :
  Forall (λ h, is_considerably_up h = false) downs →
  is_considerably_up host = true →
  connect (downs ++ host :: rest) tried s = connect [host] tried s
  ∧ tried_hosts (connect (downs ++ host :: rest) tried s)
    = tried ++ [endpoint host]
  ∧ connect_outcome (connect (downs ++ host :: rest) tried s)
    ≠ Thrown no_host_available
  ∧ (dial_log (session_after (connect (downs ++ host :: rest) tried s))
     = dial_log s
     ∨ ∃ ok, dial_log (session_after (connect (downs ++ host :: rest) tried s))
             = (endpoint host, ok) :: dial_log s).
Proof.
  intros Hdowns Hup. rewrite (connect_skips_down_hosts _ _ _ _ Hdowns).
  split; [by apply connect_first_up_host_ignores_rest|].
  destruct (connect_first_up_host host rest tried s Hup)
    as (Htried & Hnot & _ & Hdials).
  split; [done|]. split; [done|].
  destruct Hdials as [?|[[? _]|[? _]]]; eauto.
Qed.

Lemma connect_ends_at_first_up_host_witness :
  connect ([Fixture.host1_down] ++ Fixture.host2 :: [Fixture.host1])
    [] (Fixture.session [] Fixture.all_up)
  = connect [Fixture.host2] [] (Fixture.session [] Fixture.all_up)
  ∧ tried_hosts
      (connect ([Fixture.host1_down] ++ Fixture.host2 :: [Fixture.host1])
         [] (Fixture.session [] Fixture.all_up))
    = [] ++ [endpoint Fixture.host2].
Proof.
  destruct (connect_ends_at_first_up_host [Fixture.host1_down] Fixture.host2
              [Fixture.host1] [] (Fixture.session [] Fixture.all_up))
    as (Hsame & Htried & _).
  - repeat constructor.
  - reflexivity.
  - split; [exact Hsame | exact Htried].
Defined.

(** X14. [connect] never returns a null pointer and never stops in an
    assertion: it returns a connection, or it throws.  It throws the
    no-host-available exception exactly when no host of the plan is
    considerably up. *)
Theorem connect_returns_connection_or_throws plan tried s :
  ((∃ id stream,
      connect_outcome (connect plan tried s) = Returned (Some id, stream))
   ∨ ∃ e, connect_outcome (connect plan tried s) = Thrown e)
  ∧ (connect_outcome (connect plan tried s) = Thrown no_host_available
     ↔ Forall (λ h, is_considerably_up h = false) plan).
Proof.
  induction plan as [|h plan [IHout IHnone]].
  - split; [right; by eexists|]. split; [by constructor|done].
  - destruct (is_considerably_up h) eqn:Hup.
    + split; [by apply connect_first_up_host_outcome|]. split.
      * intros Hthrown.
        by destruct (connect_first_up_host h plan tried s Hup) as (_ & ? & _).
      * intros Hall. apply Forall_cons_1 in Hall as [? _]. congruence.
    + rewrite (connect_skips_down_host _ _ _ _ Hup). split; [done|].
      rewrite IHnone. split; [by constructor|].
      intros Hall. by apply Forall_cons_1 in Hall as [_ ?].
Qed.

(** X19. The future-returning [query] and [prepare] never return the
    future that holds the library error: [get_connection] gives them a
    connection or throws, so each of them returns the future of the
    connection's answer to the query, with the acquired stream set, or
    leaves by that exception. *)
Theorem query_never_reports_library_error q s :
  (∀ e, (query q s).1 ≠ Returned (future_error e))
  ∧ (∀ e, (prepare q s).1 ≠ Returned (future_error e))
  ∧ ((∃ id stream,
        (query q s).1
        = Returned (future_of id (call_query (set_stream stream q))))
     ∨ ∃ e, (query q s).1 = Thrown e).
Proof.
  assert (prepare q s = query q s) as -> by done.
  rewrite query_unfold.
  destruct (connect_returns_connection_or_throws_aux
              (new_query_plan (_configuration s)) [] s)
    as [(id & stream & Hout)|(e & Hout)];
    fold (get_connection s) in Hout; rewrite Hout; cbn.
  - split; [done|]. split; [done|]. left. by eauto.
  - split; [done|]. split; [done|]. right. by eauto.
Qed.

(** ** First contact with a host *)

(** [connect] at a host that is up and has neither a pooled nor a trashed
    connection: everything hinges on [allocate_connection]. *)
Lemma connect_first_contact host plan tried s :
  is_considerably_up host = true →
  collection_of s (endpoint host) = [] →
  trash_of s (endpoint host) = [] →
  connect (host :: plan) tried s
  = match allocate_connection host (add_to_connection_pool (endpoint host) s) with
    | (Returned (Some id), s2) =>
        mk_connect_result
          (Returned (Some id,
                     (connection_acquire_stream id
                        (set_collection (endpoint host) [id] s2)).1))
          (tried ++ [endpoint host])
          (connection_acquire_stream id
             (set_collection (endpoint host) [id] s2)).2
    | (Returned None, s2) => connect plan (tried ++ [endpoint host]) s2
    | (Thrown e, s2) => mk_connect_result (Thrown e) (tried ++ [endpoint host]) s2
    | (Aborted, s2) => mk_connect_result Aborted (tried ++ [endpoint host]) s2
    end.
Proof.
  intros Hup Hpool Htrash. cbn [connect]. rewrite Hup. cbn [negb].
  unfold try_find_free_stream.
  rewrite collection_of_add_to_connection_pool, Hpool.
  cbn [try_find_free_stream_loop].
  set (s1 := add_to_connection_pool (endpoint host) s).
  assert (_trashcan s1 = _trashcan s) as Ht.
  { unfold s1, add_to_connection_pool. by destruct (try_get _ _). }
  unfold trashcan_recycle. unfold trash_of in Htrash. rewrite Ht, Htrash.
  destruct (allocate_connection_frame host s1) as (Hpool2 & _).
  destruct (allocate_connection host s1) as [[[id|]|e|] s2]; cbn in *; try done.
  assert (collection_of s2 (endpoint host) = []) as ->.
  { unfold collection_of. rewrite Hpool2.
    fold (collection_of s1 (endpoint host)). unfold s1.
    by rewrite collection_of_add_to_connection_pool. }
  cbn. by destruct (connection_acquire_stream id _).
Qed.

(** Without a counter for the endpoint, [allocate_connection] is never
    refused: it returns the new connection when the dial succeeds and throws
    the cannot-connect exception when it fails. *)
Lemma allocate_connection_no_counter host s :
  _connection_counters s !! endpoint host = None →
  (allocate_connection host s).1
  = if dial_succeeds s (endpoint host)
    then Returned (Some (client_callback_calls s))
    else Thrown (cql_exception
                   ("cannot connect to host: "
                    +:+ endpoint_to_string (endpoint host))).
Proof.
  intros Hnone. unfold allocate_connection, bind.
  rewrite (increase_connection_counter_first _ _ Hnone). cbn.
  unfold connection_connect. cbn.
  destruct (dial_succeeds s (endpoint host)); cbn; [done|].
  unfold decrease_connection_counter. cbn. by destruct (try_get _ _).
Qed.

(** X17. First contact.  When the first host of the policy's plan that is
    up has no pooled connection, no trashed connection and no counter yet,
    [init] stands or falls with the dial to it.  If the dial succeeds,
    [init] returns: the session is ready and not defunct, the host's
    collection holds exactly the new connection, [size] has grown by one,
    the endpoint's counter is 1, and the stream [connect] acquired has been
    released again, so that the connection has all its streams free.  If
    the dial fails, [init] throws the cannot-connect exception and [size],
    the ready flag and the counters are as if nothing had happened. *)
Theorem init_first_contact s downs host rest :
  new_query_plan (_configuration s) = downs ++ host :: rest →
  Forall (λ h, is_considerably_up h = false) downs →
  is_considerably_up host = true →
  collection_of s (endpoint host) = [] →
  trash_of s (endpoint host) = [] →
  _connection_counters s !! endpoint host = None →
  (dial_succeeds s (endpoint host) = true →
   (init s).1 = Returned tt
   ∧ _ready (init s).2 = true ∧ _defunct (init s).2 = false
   ∧ collection_of (init s).2 (endpoint host) = [client_callback_calls s]
   ∧ deref (init s).2 (client_callback_calls s)
     = Some (fresh_connection (endpoint host))
   ∧ counter_of (init s).2 (endpoint host) = 1
   ∧ size (init s).2 = S (size s))
  ∧ (dial_succeeds s (endpoint host) = false →
     (init s).1
     = Thrown (cql_exception
                 ("cannot connect to host: "
                  +:+ endpoint_to_string (endpoint host)))
     ∧ _ready (init s).2 = _ready s
     ∧ collection_of (init s).2 (endpoint host) = []
     ∧ counter_of (init s).2 (endpoint host) = 0
     ∧ size (init s).2 = size s).
Proof.
  intros Hplan Hdowns Hup Hpool Htrash Hcounter.
  unfold init. rewrite Hplan, (connect_skips_down_hosts _ _ _ _ Hdowns).
  rewrite (connect_first_contact _ _ _ _ Hup Hpool Htrash).
  set (s1 := add_to_connection_pool (endpoint host) s).
  assert (dial_succeeds s1 = dial_succeeds s
          ∧ client_callback_calls s1 = client_callback_calls s
          ∧ _ready s1 = _ready s
          ∧ _connection_counters s1 = _connection_counters s
          ∧ size s1 = size s
          ∧ collection_of s1 (endpoint host) = [])
    as (Hd1 & Hc1 & Hr1 & Hn1 & Hsize1 & Hpool1).
  { unfold s1. rewrite collection_of_add_to_connection_pool.
    repeat split; try done;
      try (unfold add_to_connection_pool; by destruct (try_get _ _)).
    unfold add_to_connection_pool, try_get, try_add.
    destruct (_connection_pool s !! endpoint host) eqn:Hp; [done|]. cbn.
    rewrite size_insert_fresh by done.
    replace (with_pool (_connection_pool s) s) with s by (by destruct s).
    cbn. lia. }
  pose proof (allocate_connection_cases host s1) as Hcases.
  pose proof (allocate_connection_frame host s1) as Hframe.
  pose proof (allocate_connection_no_counter host s1) as Hform.
  rewrite Hn1, Hd1, Hc1 in Hform. specialize (Hform Hcounter).
  assert (counter_of s1 (endpoint host) = 0) as Hzero.
  { unfold counter_of. by rewrite Hn1, Hcounter. }
  assert (∀ s2, collection_of s2 (endpoint host)
                = default [] (_connection_pool s2 !! endpoint host)) as Hcoll
    by done.
  destruct (allocate_connection host s1) as [[[id|]|e|] s2];
    cbn in Hframe, Hform; try done.
  - destruct (dial_succeeds s (endpoint host)) eqn:Hok; [|done].
    injection Hform as ->.
    destruct Hcases as (_ & _ & _ & Hc & Hcnt).
    destruct Hframe as (Hpool2 & _ & _ & _ & Hready & Hdefunct & _).
    split; [|done]. intros _.
    set (id := client_callback_calls s) in *.
    set (s3 := set_collection (endpoint host) [id] s2).
    assert (deref s3 id = Some (fresh_connection (endpoint host))) as Hc3 by done.
    unfold connection_acquire_stream. rewrite Hc3.
    assert (acquire_stream (fresh_connection (endpoint host))
            = (stream_id 1,
               mk_connection (endpoint host) true false (seqZ 2 126) 1)) as ->
      by (vm_compute; reflexivity).
    cbn [fst snd].
    split; [done|]. split; [done|]. split; [done|].
    split; [by rewrite Hcoll; cbn; rewrite lookup_insert_eq|]. split.
    { unfold deref. cbn. rewrite !lookup_alter_eq.
      fold (deref s2 id). by rewrite Hc. }
    split.
    { unfold counter_of. cbn. rewrite Hcnt, lookup_insert_eq. cbn. lia. }
    change (size s3 = S (size s)).
    pose proof (size_set_collection (endpoint host) [id] s2) as Hsize.
    fold s3 in Hsize.
    assert (collection_of s2 (endpoint host) = []) as Hempty.
    { rewrite Hcoll, Hpool2. exact Hpool1. }
    assert (size s2 = size s1) as Hs2 by (unfold size; by rewrite Hpool2).
    rewrite Hempty in Hsize. cbn in Hsize. lia.
  - destruct (dial_succeeds s (endpoint host)) eqn:Hok; [done|].
    injection Hform as ->.
    destruct Hframe as (Hpool2 & _ & _ & _ & Hready & _).
    destruct Hcases as [([=] & _)|(_ & _ & _ & Hcnt)].
    split; [done|]. intros _. cbn.
    split; [done|]. split; [congruence|].
    split; [rewrite Hcoll, Hpool2; exact Hpool1|].
    split; [by rewrite Hcnt|].
    unfold size. rewrite Hpool2. exact Hsize1.
Qed.

Lemma init_first_contact_witness :
  (init (Fixture.session [Fixture.host1_down; Fixture.host2] Fixture.all_up)).1
  = Returned tt
  ∧ size (init (Fixture.session [Fixture.host1_down; Fixture.host2]
                  Fixture.all_up)).2
    = S (size (Fixture.session [Fixture.host1_down; Fixture.host2]
                 Fixture.all_up)).
Proof.
  destruct (init_first_contact
              (Fixture.session [Fixture.host1_down; Fixture.host2] Fixture.all_up)
              [Fixture.host1_down] Fixture.host2 [])
    as [Hok _].
  - reflexivity.
  - repeat constructor.
  - reflexivity.
  - reflexivity.
  - reflexivity.
  - reflexivity.
  - destruct (Hok eq_refl) as (Hret & _ & _ & _ & _ & _ & Hsize).
    split; [exact Hret | exact Hsize].
Defined.

(** ** The callback flavour of [query] and [prepare] *)

(** X18. The callback-style [query] and [prepare] end in one of two ways.
    Either [get_connection] gives a connection and a stream: then a copy of
    the query, with that stream set, is handed to the connection, by
    [query] to the connection's [query] and by [prepare] to the connection's
    [prepare]; what is returned is what that member function of the
    connection returned, and that one request is all that has been asked of
    any connection.  Or [get_connection] throws, and the exception leaves
    them with nothing asked of any connection.  There is no third way: they
    never return without having handed the request to a connection. *)
Theorem execute_operation_submits q s :
  (∃ id stream,
     connect_outcome (get_connection s) = Returned (Some id, stream)
     ∧ (∀ method,
          execute_operation q method s
          = (Returned (connection_submit_callback id method (set_stream stream q)
                         (session_after (get_connection s))).1,
             (connection_submit_callback id method (set_stream stream q)
                (session_after (get_connection s))).2))
     ∧ connection_calls (query_callback q s).2
       = (id, call_query (set_stream stream q)) :: connection_calls s
     ∧ connection_calls (prepare_callback q s).2
       = (id, call_prepare (set_stream stream q)) :: connection_calls s)
  ∨ (∃ e,
       connect_outcome (get_connection s) = Thrown e
       ∧ (∀ method,
            execute_operation q method s
            = (Thrown e, session_after (get_connection s)))
       ∧ connection_calls (query_callback q s).2 = connection_calls s
       ∧ connection_calls (prepare_callback q s).2 = connection_calls s).
Proof.
  pose proof (connect_keeps_connection_calls
                (new_query_plan (_configuration s)) [] s) as Hcalls.
  fold (get_connection s) in Hcalls.
  unfold query_callback, prepare_callback, execute_operation, bind,
    get_connection_m.
  destruct (connect_returns_connection_or_throws_aux
              (new_query_plan (_configuration s)) [] s)
    as [(id & stream & Hout)|(e & Hout)];
    fold (get_connection s) in Hout; rewrite Hout; cbn.
  - left. exists id, stream. split; [done|]. split; [done|].
    by rewrite Hcalls.
  - right. exists e. by rewrite Hcalls.
Qed.

(** A host that answers: [prepare] hands the query, on stream 1, to the
    connection's [prepare] and returns the stream the connection answers
    with. *)
Example prepare_callback_on_first_contact :
  prepare_callback (mk_query "SELECT 1" stream_invalid)
    (Fixture.session [Fixture.host1] Fixture.all_up)
  = (Returned (stream_id 1),
     with_connection_calls
       [(0%N, call_prepare (mk_query "SELECT 1" (stream_id 1)))]
       (session_after
          (get_connection (Fixture.session [Fixture.host1] Fixture.all_up)))).
Proof. vm_compute. reflexivity. Qed.

(** ** [close], for every session *)

(** X20. [close] closes every connection of every collection of the pool
    and no other connection: a connection that is in no collection, one in
    the trashcan for instance, is left as it is. *)
Theorem close_closes_exactly_the_pooled s id :
  (∀ ep c conn, _connection_pool s !! ep = Some c → id ∈ c →
     deref s id = Some conn →
     deref (close s) id = Some (connection_close conn))
  ∧ ((∀ ep, id ∉ collection_of s ep) → deref (close s) id = deref s id).
Proof.
  split.
  - intros ep c conn Hep Hid Hconn.
    by rewrite (close_closes_pooled s ep id c Hep Hid), Hconn.
  - intros Hnot. rewrite close_unfold. unfold deref. cbn.
    rewrite lookup_close_all, decide_False; [done|].
    unfold pooled_connections. rewrite list_elem_of_In, in_concat.
    intros (c & Hc & Hid). apply list_elem_of_In, list_elem_of_fmap in Hc
      as ([ep c'] & -> & Hin).
    apply elem_of_map_to_list in Hin. apply (Hnot ep).
    unfold collection_of. rewrite Hin. by apply list_elem_of_In.
Qed.

(** X21. Calling [close] twice is the same as calling it once. *)
Theorem close_twice s : close (close s) = close s.
Proof. apply close_idempotent. Qed.

(** X22. [close] changes nothing but the connection objects: every
    collection of the pool still holds its connections, [size] and [empty]
    answer as before, and the counters, the trashcan and the ready and
    defunct flags are as they were. *)
Theorem close_keeps_membership s :
  _connection_pool (close s) = _connection_pool s
  ∧ (∀ ep, collection_of (close s) ep = collection_of s ep)
  ∧ size (close s) = size s
  ∧ empty (close s) = empty s
  ∧ _connection_counters (close s) = _connection_counters s
  ∧ _trashcan (close s) = _trashcan s
  ∧ ready (close s) = ready s
  ∧ defunct (close s) = defunct s.
Proof.
  destruct (close_keeps_pool s) as (Hpool & Hcounters & Htrash & Hsize).
  split; [done|]. split; [intros ep; unfold collection_of; by rewrite Hpool|].
  split; [done|]. split; [unfold empty; by rewrite Hsize|].
  split; [done|]. split; [done|].
  rewrite close_unfold. by split.
Qed.

(** ** Connection accounting *)

Lemma length_filter_other (id : N) (l : list N) :
  NoDup l → id ∈ l → S (length (filter (λ x, x ≠ id) l)) = length l.
Proof.
  induction 1 as [|x l Hx Hnodup IH]; [by intros ?%elem_of_nil|].
  rewrite elem_of_cons. intros [->|Hin].
  - rewrite filter_cons_False by (intros ?; done).
    rewrite filter_other_absent by done. done.
  - rewrite filter_cons_True by (intros ->; done). cbn.
    by rewrite IH.
Qed.

Lemma same_accounts_refl s : same_accounts s s.
Proof. by repeat split. Qed.

Lemma accounted_same_accounts s s' :
  accounted s → same_accounts s s' → accounted s'.
Proof.
  intros Hacc (Hlists & Hcalls & Hstore) ep.
  destruct (Hacc ep) as (Hnodup & Hids & Hcount).
  destruct (Hlists ep) as (-> & -> & ->).
  split; [done|]. split; [|done].
  intros id Hin. destruct (Hids id Hin) as (Hlt & c & Hc & Hep).
  split; [lia|].
  specialize (Hstore id Hlt). rewrite Hc in Hstore. cbn in Hstore.
  destruct (deref s' id) as [c'|]; [|done].
  exists c'. split; [done|]. cbn in Hstore. congruence.
Qed.

(** A pooled or trashed connection has a counter behind it. *)
Lemma accounted_counter s ep id :
  accounted s →
  id ∈ collection_of s ep ++ trash_of s ep →
  ∃ n, _connection_counters s !! ep = Some n
       ∧ n = Z.of_nat (length (collection_of s ep ++ trash_of s ep)).
Proof.
  intros Hacc Hin. destruct (Hacc ep) as (_ & _ & Hcount).
  unfold counter_of in Hcount.
  destruct (_connection_counters s !! ep) as [n|]; [by exists n|].
  cbn in Hcount. destruct (collection_of s ep ++ trash_of s ep);
    [by apply elem_of_nil in Hin | cbn in Hcount; lia].
Qed.

(** A connection is pooled or trashed under its own endpoint only. *)
Lemma accounted_endpoint s ep id c :
  accounted s →
  id ∈ collection_of s ep ++ trash_of s ep →
  deref s id = Some c → conn_endpoint c = ep.
Proof.
  intros Hacc Hin Hc. destruct (Hacc ep) as (_ & Hids & _).
  destruct (Hids id Hin) as (_ & c' & Hc' & Hep). congruence.
Qed.

Lemma accounted_new_session callback_set cfg dial :
  accounted (new_session callback_set cfg dial).
Proof.
  intros ep. unfold collection_of, trash_of, counter_of. cbn.
  rewrite !lookup_empty. cbn. split; [constructor|]. split; [|done].
  intros id Hin. by apply elem_of_nil in Hin.
Qed.

(** Taking a pooled connection out and freeing it keeps the accounts. *)
Lemma accounted_try_remove_connection ep0 id s :
  accounted s → accounted (try_remove_connection ep0 id s).
Proof.
  intros Hacc.
  destruct (decide (id ∈ collection_of s ep0)) as [Hin|Hnot];
    [|by rewrite try_remove_connection_absent].
  assert (id ∈ collection_of s ep0 ++ trash_of s ep0) as Hin'
    by (apply elem_of_app; by left).
  destruct (Hacc ep0) as (Hnodup0 & Hids0 & Hcount0).
  destruct (Hids0 id Hin') as (Hlt & c & Hc & Hep).
  destruct (accounted_counter s ep0 id Hacc Hin') as (n & Hn & Hnval).
  unfold try_remove_connection. rewrite collection_try_erase_eq.
  rewrite bool_decide_eq_true_2 by done.
  set (s1 := set_collection ep0 (filter (λ x, x ≠ id) (collection_of s ep0)) s).
  assert (deref s1 id = Some c) as Hc1 by done.
  destruct (free_connection_store id c s1 Hc1) as (_ & Hpool & Htrash & Hstore).
  assert (_connection_counters (free_connection (Some id) s1)
          = <[ep0 := n - 1]> (_connection_counters s)) as Hcounters.
  { unfold free_connection, try_get. rewrite Hc1. cbn. rewrite Hep.
    by rewrite Hn. }
  assert (∀ ep, collection_of (free_connection (Some id) s1) ep
                = if decide (ep = ep0)
                  then filter (λ x, x ≠ id) (collection_of s ep)
                  else collection_of s ep) as Hcoll.
  { intros ep. rewrite collection_of_free_connection. unfold s1.
    case_decide as Heq; [subst; apply collection_of_set_collection|].
    by apply collection_of_set_collection_ne. }
  assert (∀ ep, trash_of (free_connection (Some id) s1) ep = trash_of s ep)
    as Htr by (intros ep; unfold trash_of; by rewrite Htrash).
  intros ep. rewrite Hcoll, Htr. destruct (Hacc ep) as (Hnodup & Hids & Hcount).
  assert (∀ x, x ∈ collection_of s ep ++ trash_of s ep →
            (x < client_callback_calls (free_connection (Some id) s1))%N
            ∧ ∃ c', deref (free_connection (Some id) s1) x = Some c'
                    ∧ conn_endpoint c' = ep) as Hids'.
  { intros x Hx. destruct (Hids x Hx) as (Hxlt & cx & Hcx & Hxep).
    split.
    { by destruct (outside_pool_free_connection (Some id) s1)
        as (_ & _ & _ & -> & _). }
    unfold deref in *. rewrite Hstore. cbn.
    destruct (decide (id = x)) as [<-|Hne].
    - rewrite lookup_alter_eq, Hcx. cbn. by eexists.
    - rewrite lookup_alter_ne by done. by eexists. }
  case_decide as Heq.
  - subst ep. split; [|split].
    + apply NoDup_app in Hnodup as (Hn1 & Hn2 & Hn3).
      apply NoDup_app. split; [by apply NoDup_filter|]. split; [|done].
      intros x Hx. apply list_elem_of_filter in Hx as [_ Hx]. by apply Hn2.
    + intros x Hx. apply Hids'. rewrite elem_of_app in *.
      destruct Hx as [Hx|Hx]; [left|by right].
      by apply list_elem_of_filter in Hx as [_ Hx].
    + unfold counter_of. rewrite Hcounters, lookup_insert_eq. cbn.
      rewrite length_app in *.
      apply NoDup_app in Hnodup as (Hn1 & _ & _).
      pose proof (length_filter_other id _ Hn1 Hin). lia.
  - split; [done|]. split; [done|].
    unfold counter_of. rewrite Hcounters, lookup_insert_ne by done. done.
Qed.

(** Moving a pooled connection to the trashcan keeps the accounts. *)
Lemma accounted_trashcan_put ep0 id s :
  accounted s →
  id ∈ collection_of s ep0 →
  accounted (trashcan_put id
               (set_collection ep0
                  (filter (λ x, x ≠ id) (collection_of s ep0)) s)).
Proof.
  intros Hacc Hin.
  assert (id ∈ collection_of s ep0 ++ trash_of s ep0) as Hin'
    by (apply elem_of_app; by left).
  destruct (Hacc ep0) as (_ & Hids0 & _).
  destruct (Hids0 id Hin') as (Hlt & c & Hc & Hep).
  unfold trashcan_put.
  set (s1 := set_collection ep0 _ s).
  replace (deref s1 id) with (Some c) by done. rewrite Hep.
  intros ep. destruct (Hacc ep) as (Hnodup & Hids & Hcount).
  rewrite collection_of_with_trashcan. unfold trash_of, counter_of. cbn.
  fold (trash_of s ep0).
  destruct (decide (ep = ep0)) as [->|Hne].
  - unfold s1. rewrite collection_of_set_collection, lookup_insert_eq. cbn.
    apply NoDup_app in Hnodup as (Hn1 & Hn2 & Hn3).
    split; [|split].
    + apply NoDup_app. split; [by apply NoDup_filter|]. split.
      * intros x Hx. apply list_elem_of_filter in Hx as [Hne Hx].
        rewrite elem_of_cons. intros [?|?]; [done|]. by apply (Hn2 x).
      * apply NoDup_cons. split; [by apply Hn2|done].
    + intros x Hx. apply Hids. rewrite elem_of_app in *.
      destruct Hx as [Hx|Hx].
      * left. by apply list_elem_of_filter in Hx as [_ Hx].
      * apply elem_of_cons in Hx as [->|Hx]; [by left|by right].
    + fold (counter_of s ep0). rewrite Hcount, !length_app. cbn.
      pose proof (length_filter_other id _ Hn1 Hin). lia.
  - unfold s1. rewrite collection_of_set_collection_ne by done.
    rewrite lookup_insert_ne by done. fold (trash_of s ep).
    split; [done|]. split; [done|]. exact Hcount.
Qed.

Lemma same_accounts_update_connection id f s :
  (∀ c, conn_endpoint (f c) = conn_endpoint c) →
  same_accounts s (update_connection id f s).
Proof.
  intros Hf. split; [done|]. split; [done|]. intros x _.
  unfold deref. cbn. destruct (decide (id = x)) as [<-|Hne].
  - rewrite lookup_alter_eq. destruct (connection_store s !! id); [|done].
    cbn. by rewrite Hf.
  - by rewrite lookup_alter_ne.
Qed.

Lemma accounted_connection_acquire_stream id s :
  accounted s → accounted (connection_acquire_stream id s).2.
Proof.
  intros Hacc. unfold connection_acquire_stream.
  destruct (deref s id) as [c|] eqn:Hc; [|done].
  destruct (acquire_stream c) as [stream c'] eqn:Hacq. cbn.
  apply (accounted_same_accounts s); [done|].
  split; [done|]. split; [done|]. intros x _. unfold deref in *. cbn.
  destruct (decide (id = x)) as [<-|Hne].
  - rewrite lookup_alter_eq, Hc. cbn. f_equal.
    revert Hacq. unfold acquire_stream.
    destruct (conn_free_streams c); by intros [= <- <-].
  - by rewrite lookup_alter_ne.
Qed.

Lemma accounted_try_find_free_stream_body host ep0 id s :
  accounted s → accounted (try_find_free_stream_body host ep0 id s).2.
Proof.
  intros Hacc. unfold try_find_free_stream_body.
  destruct (deref s id) as [conn|] eqn:Hconn; [|done].
  destruct (negb (is_healthy conn)); [by apply accounted_try_remove_connection|].
  destruct (negb (is_busy conn _)).
  { pose proof (accounted_connection_acquire_stream id s Hacc) as Hacq.
    destruct (connection_acquire_stream id s) as [stream s1].
    by destruct (negb (is_invalid stream)). }
  destruct (_ >? _); [|done]. destruct (is_free conn _); [|done].
  rewrite collection_try_erase_eq. case_bool_decide as Hin; [|done].
  by apply accounted_trashcan_put.
Qed.

Lemma accounted_try_find_free_stream_loop host ep0 ids s :
  accounted s → accounted (try_find_free_stream_loop host ep0 ids s).2.
Proof.
  revert s. induction ids as [|id ids IH]; intros s Hacc; [done|].
  cbn [try_find_free_stream_loop].
  pose proof (accounted_try_find_free_stream_body host ep0 id s Hacc) as Hb.
  destruct (try_find_free_stream_body host ep0 id s) as [[[conn stream]|] s1];
    [done|]. by apply IH.
Qed.

Lemma accounted_add_to_connection_pool ep0 s :
  accounted s → accounted (add_to_connection_pool ep0 s).
Proof.
  intros Hacc. apply (accounted_same_accounts s); [done|].
  split; [|split; [|intros id _]];
    try (unfold add_to_connection_pool; by destruct (try_get _ _)).
  intros ep. rewrite collection_of_add_to_connection_pool.
  unfold add_to_connection_pool; by destruct (try_get _ _).
Qed.

(** Taking the most recent connection out of the trashcan and freeing it
    keeps the accounts. *)
Lemma accounted_recycle_and_free ep0 id rest s :
  accounted s →
  trash_of s ep0 = id :: rest →
  accounted (free_connection (Some id)
               (with_trashcan (<[ep0 := rest]> (_trashcan s)) s)).
Proof.
  intros Hacc Htrash.
  assert (id ∈ collection_of s ep0 ++ trash_of s ep0) as Hin'.
  { apply elem_of_app. right. rewrite Htrash. apply list_elem_of_here. }
  destruct (Hacc ep0) as (_ & Hids0 & _).
  destruct (Hids0 id Hin') as (Hlt & c & Hc & Hep).
  destruct (accounted_counter s ep0 id Hacc Hin') as (n & Hn & Hnval).
  set (s1 := with_trashcan (<[ep0 := rest]> (_trashcan s)) s).
  assert (deref s1 id = Some c) as Hc1 by done.
  destruct (free_connection_store id c s1 Hc1) as (_ & Hpool & Htr & Hstore).
  assert (_connection_counters (free_connection (Some id) s1)
          = <[ep0 := n - 1]> (_connection_counters s)) as Hcounters.
  { unfold free_connection, try_get. rewrite Hc1. cbn. rewrite Hep.
    by rewrite Hn. }
  intros ep. destruct (Hacc ep) as (Hnodup & Hids & Hcount).
  rewrite collection_of_free_connection.
  change (collection_of s1 ep) with (collection_of s ep).
  unfold trash_of, counter_of. rewrite Htr, Hcounters. cbn.
  assert (∀ x, x ∈ collection_of s ep ++ trash_of s ep →
            (x < client_callback_calls (free_connection (Some id) s1))%N
            ∧ ∃ c', deref (free_connection (Some id) s1) x = Some c'
                    ∧ conn_endpoint c' = ep) as Hids'.
  { intros x Hx. destruct (Hids x Hx) as (Hxlt & cx & Hcx & Hxep).
    split.
    { by destruct (outside_pool_free_connection (Some id) s1)
        as (_ & _ & _ & -> & _). }
    unfold deref in *. rewrite Hstore. cbn.
    destruct (decide (id = x)) as [<-|Hne].
    - rewrite lookup_alter_eq, Hcx. cbn. by eexists.
    - rewrite lookup_alter_ne by done. by eexists. }
  destruct (decide (ep = ep0)) as [->|Hne].
  - rewrite !lookup_insert_eq. cbn. rewrite Htrash in Hnodup, Hids'.
    split; [|split].
    + apply NoDup_app in Hnodup as (Hn1 & Hn2 & Hn3).
      apply NoDup_cons in Hn3 as [_ Hn3].
      apply NoDup_app. split; [done|]. split; [|done].
      intros x Hx Hx'. apply (Hn2 x Hx). by apply list_elem_of_further.
    + intros x Hx. apply Hids'. rewrite elem_of_app in *.
      destruct Hx as [?|?]; [by left|right]. by apply list_elem_of_further.
    + rewrite Htrash, !length_app in Hnval. rewrite length_app.
      cbn in Hnval. lia.
  - rewrite !lookup_insert_ne by done. fold (trash_of s ep).
    split; [done|]. split; [done|]. exact Hcount.
Qed.

(** Taking the most recent connection out of the trashcan and putting it
    back into the collection keeps the accounts. *)
Lemma accounted_recycle_and_pool ep0 id rest s :
  accounted s →
  trash_of s ep0 = id :: rest →
  let s1 := with_trashcan (<[ep0 := rest]> (_trashcan s)) s in
  accounted (set_collection ep0
               (collection_try_add id (collection_of s1 ep0)).2 s1)
  ∧ id ∈ (collection_try_add id (collection_of s1 ep0)).2.
Proof.
  intros Hacc Htrash s1.
  change (collection_of s1 ep0) with (collection_of s ep0).
  destruct (Hacc ep0) as (Hnodup0 & _ & _).
  assert (id ∉ collection_of s ep0) as Hnot.
  { rewrite Htrash in Hnodup0. apply NoDup_app in Hnodup0 as (_ & Hn2 & _).
    intros Hin. apply (Hn2 id Hin), list_elem_of_here. }
  unfold collection_try_add. rewrite bool_decide_eq_false_2 by done. cbn [snd].
  split; [|apply elem_of_app; right; apply list_elem_of_here].
  intros ep. destruct (Hacc ep) as (Hnodup & Hids & Hcount).
  unfold trash_of, counter_of. cbn. fold (counter_of s ep).
  destruct (decide (ep = ep0)) as [->|Hne].
  - rewrite collection_of_set_collection, lookup_insert_eq. cbn.
    rewrite Htrash in Hnodup, Hids, Hcount.
    rewrite <- app_assoc. cbn. split; [done|]. split; [|done].
    intros x Hx. destruct (Hids x Hx) as (? & c & ? & ?). eauto.
  - rewrite collection_of_set_collection_ne, lookup_insert_ne by done.
    fold (trash_of s ep). split; [done|]. split; [|done].
    intros x Hx. destruct (Hids x Hx) as (? & c & ? & ?). eauto.
Qed.

Lemma allocate_connection_calls_grow host s :
  (client_callback_calls s
   ≤ client_callback_calls (allocate_connection host s).2)%N.
Proof.
  unfold allocate_connection, bind.
  destruct (increase_connection_counter_returns host s) as (b & s1 & Hinc).
  rewrite Hinc.
  destruct (increase_connection_counter_frame _ _ _ _ Hinc)
    as ((_ & _ & _ & Hc1 & _) & _).
  destruct b; cbn; [|lia].
  unfold connection_connect. cbn.
  destruct (dial_succeeds s1 (endpoint host)); cbn.
  - unfold connect_callback. cbn. destruct (_ready_callback s1); cbn; lia.
  - unfold decrease_connection_counter. cbn.
    destruct (try_get _ _); cbn; lia.
Qed.

(** A failed [allocate_connection] keeps the accounts. *)
Lemma accounted_allocate_connection_failure host s e s' :
  accounted s →
  allocate_connection host s = (Thrown e, s') →
  accounted s'.
Proof.
  intros Hacc Halloc.
  pose proof (allocate_connection_cases host s) as Hcases.
  pose proof (allocate_connection_frame host s) as Hframe.
  rewrite Halloc in Hcases, Hframe. cbn in Hframe.
  destruct Hframe as (Hpool & Htrash & _ & Hstore & _).
  assert (∀ ep, counter_of s' ep = counter_of s ep) as Hcnt
    by (by destruct Hcases as [(_ & _ & _ & ?)|(_ & _ & _ & ?)]).
  intros ep. destruct (Hacc ep) as (Hnodup & Hids & Hcount).
  unfold collection_of, trash_of. rewrite Hpool, Htrash, Hcnt.
  fold (collection_of s ep) (trash_of s ep).
  split; [done|]. split; [|done].
  intros x Hx. destruct (Hids x Hx) as (Hlt & c & Hc & Hep).
  assert (client_callback_calls s ≤ client_callback_calls s')%N as Hcalls.
  { pose proof (allocate_connection_calls_grow host s) as Hgrow.
    by rewrite Halloc in Hgrow. }
  split; [lia|]. exists c. split; [|done].
  rewrite Hstore; [done|lia].
Qed.

(** A successful [allocate_connection], once the caller has put the
    connection into the host's collection, keeps the accounts. *)
Lemma accounted_allocate_connection_success host s id s' :
  accounted s →
  allocate_connection host s = (Returned (Some id), s') →
  accounted (set_collection (endpoint host)
               (collection_try_add id (collection_of s' (endpoint host))).2 s')
  ∧ id ∈ (collection_try_add id (collection_of s' (endpoint host))).2.
Proof.
  intros Hacc Halloc.
  pose proof (allocate_connection_cases host s) as Hcases.
  pose proof (allocate_connection_frame host s) as Hframe.
  rewrite Halloc in Hcases, Hframe. cbn in Hframe.
  destruct Hframe as (Hpool & Htrash & _ & Hstore & _ & _ & Hcalls).
  destruct Hcases as (-> & _ & _ & Hc & Hcnt).
  set (id := client_callback_calls s) in *.
  assert (∀ ep, collection_of s' ep = collection_of s ep) as Hcoll
    by (intros ep; unfold collection_of; by rewrite Hpool).
  assert (∀ ep, id ∉ collection_of s ep ++ trash_of s ep) as Hfresh.
  { intros ep Hin. destruct (Hacc ep) as (_ & Hids & _).
    destruct (Hids id Hin) as [Hlt _]. unfold id in Hlt. lia. }
  rewrite Hcoll. unfold collection_try_add.
  rewrite bool_decide_eq_false_2
    by (intros Hin; apply (Hfresh (endpoint host)), elem_of_app; by left).
  cbn [snd]. split; [|apply elem_of_app; right; apply list_elem_of_here].
  intros ep. destruct (Hacc ep) as (Hnodup & Hids & Hcount).
  unfold trash_of, counter_of. cbn. rewrite Htrash, Hcnt.
  fold (trash_of s ep).
  assert (∀ x, x ∈ collection_of s ep ++ trash_of s ep →
            (x < client_callback_calls s')%N
            ∧ ∃ c, deref s' x = Some c ∧ conn_endpoint c = ep) as Hids'.
  { intros x Hx. destruct (Hids x Hx) as (Hlt & c & Hcx & Hep).
    split; [lia|]. exists c. split; [|done].
    rewrite Hstore; [done|]. fold id. intros ->. by apply (Hfresh ep). }
  destruct (decide (ep = endpoint host)) as [->|Hne].
  - rewrite collection_of_set_collection, lookup_insert_eq. cbn.
    split; [|split].
    + rewrite <- app_assoc. cbn.
      apply NoDup_app in Hnodup as (Hn1 & Hn2 & Hn3).
      apply NoDup_app. split; [done|]. split.
      * intros x Hx. rewrite elem_of_cons. intros [->|Hx'].
        -- apply (Hfresh (endpoint host)), elem_of_app. by left.
        -- by apply (Hn2 x).
      * apply NoDup_cons. split; [|done]. intros Hin.
        apply (Hfresh (endpoint host)), elem_of_app. by right.
    + intros x. rewrite <- app_assoc, elem_of_app. cbn.
      rewrite elem_of_cons. intros [Hx|[->|Hx]].
      * apply Hids', elem_of_app. by left.
      * split; [fold id; lia|]. by eexists.
      * apply Hids', elem_of_app. by right.
    + rewrite !length_app in *. cbn. lia.
  - rewrite collection_of_set_collection_ne by done. rewrite Hcoll.
    rewrite lookup_insert_ne by done. fold (counter_of s ep).
    split; [done|]. split; [done|]. exact Hcount.
Qed.

Lemma collection_of_connection_acquire_stream id s ep :
  collection_of (connection_acquire_stream id s).2 ep = collection_of s ep.
Proof.
  unfold connection_acquire_stream. destruct (deref s id); [|done].
  by destruct (acquire_stream _).
Qed.

(** A turn of the loop leaves the collection as it is, or takes the
    visited connection out of it and goes on. *)
Lemma try_find_free_stream_body_collection host ep0 x s :
  collection_of (try_find_free_stream_body host ep0 x s).2 ep0
  = collection_of s ep0
  ∨ (collection_of (try_find_free_stream_body host ep0 x s).2 ep0
     = filter (λ y, y ≠ x) (collection_of s ep0)
     ∧ (try_find_free_stream_body host ep0 x s).1 = None).
Proof.
  unfold try_find_free_stream_body.
  destruct (deref s x) as [conn|] eqn:Hconn; [|by left].
  destruct (negb (is_healthy conn)).
  { right. cbn [fst snd]. split; [|done].
    by rewrite collection_of_try_remove_connection, decide_True. }
  destruct (negb (is_busy conn _)).
  { left. pose proof (collection_of_connection_acquire_stream x s ep0) as Hacq.
    destruct (connection_acquire_stream x s) as [stream s1].
    by destruct (negb (is_invalid stream)). }
  destruct (_ >? _); [|by left]. destruct (is_free conn _); [|by left].
  rewrite collection_try_erase_eq. destruct (bool_decide _); [|by left].
  right. cbn [fst snd]. split; [|done]. unfold trashcan_put.
  destruct (deref _ x); [rewrite collection_of_with_trashcan|];
    apply collection_of_set_collection.
Qed.

Lemma try_find_free_stream_loop_found_pooled host ep0 ids s id stream s' :
  NoDup ids →
  (∀ x, x ∈ ids → x ∈ collection_of s ep0) →
  try_find_free_stream_loop host ep0 ids s = (Some id, stream, s') →
  id ∈ collection_of s' ep0.
Proof.
  intros Hnodup. revert s.
  induction Hnodup as [|x ids Hx Hnodup IH]; intros s Hids; [done|].
  cbn [try_find_free_stream_loop].
  pose proof (try_find_free_stream_body_collection host ep0 x s) as Hcoll.
  destruct (try_find_free_stream_body host ep0 x s)
    as [[[conn0 stream0]|] s1] eqn:Hbody; cbn [fst snd] in Hcoll.
  - intros [= -> -> ->].
    apply try_find_free_stream_body_found in Hbody as (-> & _).
    destruct Hcoll as [->|[_ [=]]]. apply Hids, list_elem_of_here.
  - apply IH. intros y Hy.
    assert (y ∈ collection_of s ep0) as Hin
      by (by apply Hids, list_elem_of_further).
    destruct Hcoll as [->|[-> _]]; [done|].
    apply list_elem_of_filter. split; [|done]. by intros ->.
Qed.

(** What [connect] does at a host that is up keeps the accounts, and a
    connection it returns is in the host's collection. *)
Lemma accounted_connect_first_up_host host plan tried s :
  accounted s →
  is_considerably_up host = true →
  accounted (session_after (connect (host :: plan) tried s))
  ∧ ∀ id stream,
      connect_outcome (connect (host :: plan) tried s)
      = Returned (Some id, stream) →
      id ∈ collection_of (session_after (connect (host :: plan) tried s))
             (endpoint host).
Proof.
  intros Hacc Hup. cbn [connect]. rewrite Hup. cbn [negb].
  set (s1 := add_to_connection_pool (endpoint host) s).
  assert (accounted s1) as Hacc1 by (by apply accounted_add_to_connection_pool).
  unfold try_find_free_stream.
  pose proof (accounted_try_find_free_stream_loop host (endpoint host)
                (collection_of s1 (endpoint host)) s1 Hacc1) as Hacc2.
  assert (NoDup (collection_of s1 (endpoint host))) as Hnodup1.
  { destruct (Hacc1 (endpoint host)) as (Hn & _). by apply NoDup_app in Hn as (? & _). }
  pose proof (try_find_free_stream_loop_found_pooled host (endpoint host)
                (collection_of s1 (endpoint host)) s1) as Hfound.
  destruct (try_find_free_stream_loop _ _ _ s1) as [[[conn|] stream] s2];
    cbn [snd] in Hacc2.
  { cbn. split; [done|]. intros id st [= -> ->]. by eapply Hfound. }
  clear Hfound.
  (* the trashcan *)
  unfold trashcan_recycle. fold (trash_of s2 (endpoint host)).
  destruct (trash_of s2 (endpoint host)) as [|rid rest] eqn:Htrash.
  - (* nothing to recycle: allocate *)
    pose proof (allocate_connection_cases host s2) as Hcases.
    destruct (allocate_connection host s2) as [[[id|]|e|] s5] eqn:Halloc;
      cbn; try done.
    + destruct (accounted_allocate_connection_success host s2 id s5 Hacc2 Halloc)
        as [Hacc5 Hin5].
      pose proof (accounted_connection_acquire_stream id _ Hacc5) as Hacc6.
      pose proof (collection_of_connection_acquire_stream id
                    (set_collection (endpoint host)
                       (collection_try_add id
                          (collection_of s5 (endpoint host))).2 s5)
                    (endpoint host)) as Hcoll6.
      destruct (connection_acquire_stream id _) as [stream' s6]; cbn in *.
      split; [done|]. intros ? ? [= <- <-].
      by rewrite Hcoll6, collection_of_set_collection.
    + split; [|done]. by eapply accounted_allocate_connection_failure.
  - (* a recycled connection *)
    set (s3 := with_trashcan (<[endpoint host := rest]> (_trashcan s2)) s2).
    destruct (negb (from_option is_healthy true (deref s3 rid))).
    + (* unhealthy: freed, then allocate *)
      pose proof (accounted_recycle_and_free (endpoint host) rid rest s2
                    Hacc2 Htrash) as Hacc4.
      fold s3 in Hacc4.
      set (s4 := free_connection (Some rid) s3) in *.
      pose proof (allocate_connection_cases host s4) as Hcases.
      destruct (allocate_connection host s4) as [[[id|]|e|] s5] eqn:Halloc;
        cbn; try done.
      * destruct (accounted_allocate_connection_success host s4 id s5 Hacc4 Halloc)
          as [Hacc5 Hin5].
        pose proof (accounted_connection_acquire_stream id _ Hacc5) as Hacc6.
        pose proof (collection_of_connection_acquire_stream id
                      (set_collection (endpoint host)
                         (collection_try_add id
                            (collection_of s5 (endpoint host))).2 s5)
                      (endpoint host)) as Hcoll6.
        destruct (connection_acquire_stream id _) as [stream' s6]; cbn in *.
        split; [done|]. intros ? ? [= <- <-].
        by rewrite Hcoll6, collection_of_set_collection.
      * split; [|done]. by eapply accounted_allocate_connection_failure.
    + (* healthy: pooled again *)
      destruct (accounted_recycle_and_pool (endpoint host) rid rest s2
                  Hacc2 Htrash) as [Hacc5 Hin5].
      fold s3 in Hacc5, Hin5. cbn.
      pose proof (accounted_connection_acquire_stream rid _ Hacc5) as Hacc6.
      pose proof (collection_of_connection_acquire_stream rid
                    (set_collection (endpoint host)
                       (collection_try_add rid
                          (collection_of s3 (endpoint host))).2 s3)
                    (endpoint host)) as Hcoll6.
      destruct (connection_acquire_stream rid _) as [stream' s6]; cbn in *.
      split; [done|]. intros ? ? [= <- <-].
      by rewrite Hcoll6, collection_of_set_collection.
Qed.

Lemma accounted_connect plan tried s :
  accounted s → accounted (session_after (connect plan tried s)).
Proof.
  intros Hacc. induction plan as [|h plan IH]; [done|].
  destruct (is_considerably_up h) eqn:Hup.
  - by apply accounted_connect_first_up_host.
  - by rewrite connect_skips_down_host.
Qed.

Lemma accounted_init s : accounted s → accounted (init s).2.
Proof.
  intros Hacc. unfold init.
  pose proof (accounted_connect (new_query_plan (_configuration s)) [] s Hacc)
    as Hr.
  destruct (connect_outcome _) as [[[conn|] stream]|e|]; cbn; try done.
  apply (accounted_same_accounts _ _ Hr), same_accounts_update_connection.
  intros c. by destruct stream.
Qed.

Lemma accounted_with_connection_calls calls s :
  accounted s → accounted (with_connection_calls calls s).
Proof. intros Hacc. by apply (accounted_same_accounts s). Qed.

Lemma accounted_query q s : accounted s → accounted (query q s).2.
Proof.
  intros Hacc. rewrite query_unfold.
  pose proof (accounted_connect (new_query_plan (_configuration s)) [] s Hacc)
    as Hr. fold (get_connection s) in Hr.
  destruct (connect_outcome _) as [[[conn|] stream]|e|]; cbn [snd];
    first [done | by apply accounted_with_connection_calls].
Qed.

Lemma accounted_execute_operation q method s :
  accounted s → accounted (execute_operation q method s).2.
Proof.
  intros Hacc. unfold execute_operation, bind, get_connection_m.
  pose proof (accounted_connect (new_query_plan (_configuration s)) [] s Hacc)
    as Hr. fold (get_connection s) in Hr.
  destruct (connect_outcome _) as [[[conn|] stream]|e|]; cbn [snd];
    first [done | by apply accounted_with_connection_calls].
Qed.

Lemma accounted_close s : accounted s → accounted (close s).
Proof.
  intros Hacc. apply (accounted_same_accounts s); [done|].
  rewrite close_unfold. split; [done|]. split; [done|]. intros id _.
  unfold deref. cbn. rewrite lookup_close_all.
  case_decide; [|done]. by destruct (connection_store s !! id).
Qed.

(** X16. [connect] keeps the accounts: if, for every endpoint, the pooled
    and the trashed connections are distinct connections to that endpoint
    and the endpoint's counter is their number, then the same holds after
    [connect], however it ends (a connection found, recycled or dialled, an
    eviction on the way, a failed dial, a refusal).  The same goes for
    [get_connection]. *)
Theorem connect_keeps_accounts plan tried s :
  accounted s →
  accounted (session_after (connect plan tried s))
  ∧ accounted (session_after (get_connection s)).
Proof.
  intros Hacc. split; by apply accounted_connect.
Qed.

Lemma connect_keeps_accounts_witness :
  counter_of (session_after (get_connection (Fixture.saturated 0))) Fixture.ep1
  = Z.of_nat
      (length
         (collection_of (session_after (get_connection (Fixture.saturated 0)))
            Fixture.ep1
          ++ trash_of (session_after (get_connection (Fixture.saturated 0)))
               Fixture.ep1)).
Proof.
  refine (proj2 (proj2 (proj2 (connect_keeps_accounts [] []
                                 (Fixture.saturated 0) _) Fixture.ep1))).
  apply accounted_new_session.
Defined.

(** X15. A connection that [connect] returns is pooled: in a session whose
    accounts are in order, the returned connection is, afterwards, in the
    collection of the first host of the plan that is up, and it is a
    connection to that host's endpoint. *)
Theorem connect_returns_pooled_connection plan tried s id stream :
  accounted s →
  connect_outcome (connect plan tried s) = Returned (Some id, stream) →
  ∃ downs host rest,
    plan = downs ++ host :: rest
    ∧ Forall (λ h, is_considerably_up h = false) downs
    ∧ is_considerably_up host = true
    ∧ id ∈ collection_of (session_after (connect plan tried s)) (endpoint host)
    ∧ ∃ c, deref (session_after (connect plan tried s)) id = Some c
           ∧ conn_endpoint c = endpoint host.
Proof.
  intros Hacc. induction plan as [|h plan IH]; [done|].
  destruct (is_considerably_up h) eqn:Hup.
  - intros Hout.
    destruct (accounted_connect_first_up_host h plan tried s Hacc Hup)
      as [Hacc' Hin].
    specialize (Hin id stream Hout).
    exists [], h, plan. split; [done|]. split; [constructor|].
    split; [done|]. split; [done|].
    destruct (Hacc' (endpoint h)) as (_ & Hids & _).
    destruct (Hids id) as (_ & c & Hc & Hep); [apply elem_of_app; by left|].
    by exists c.
  - rewrite (connect_skips_down_host _ _ _ _ Hup). intros Hout.
    destruct (IH Hout) as (downs & host & rest & -> & Hdowns & Hrest).
    exists (h :: downs), host, rest. split; [done|].
    split; [by constructor|done].
Qed.

Lemma connect_returns_pooled_connection_witness :
  ∃ downs host rest,
    [Fixture.host1_down; Fixture.host2] = downs ++ host :: rest
    ∧ Forall (λ h, is_considerably_up h = false) downs
    ∧ is_considerably_up host = true
    ∧ 0%N ∈ collection_of
              (session_after
                 (connect [Fixture.host1_down; Fixture.host2] []
                    (Fixture.session [] Fixture.all_up)))
              (endpoint host)
    ∧ ∃ c, deref (session_after
                    (connect [Fixture.host1_down; Fixture.host2] []
                       (Fixture.session [] Fixture.all_up))) 0%N = Some c
           ∧ conn_endpoint c = endpoint host.
Proof.
  apply (connect_returns_pooled_connection
           [Fixture.host1_down; Fixture.host2] []
           (Fixture.session [] Fixture.all_up) 0%N (stream_id 1)).
  - apply accounted_new_session.
  - vm_compute. reflexivity.
Defined.

Lemma accounted_execute m s : accounted s → accounted (execute m s).2.
Proof.
  intros Hacc. unfold execute, bind, get_connection_m.
  pose proof (accounted_connect (new_query_plan (_configuration s)) [] s Hacc)
    as Hr. fold (get_connection s) in Hr.
  by destruct (connect_outcome _) as [[[conn|] stream]|e|].
Qed.

Lemma accounted_execute_callback m s :
  accounted s → accounted (execute_callback m s).2.
Proof.
  intros Hacc. unfold execute_callback, bind, get_connection_m.
  pose proof (accounted_connect (new_query_plan (_configuration s)) [] s Hacc)
    as Hr. fold (get_connection s) in Hr.
  by destruct (connect_outcome _) as [[[conn|] stream]|e|].
Qed.

(** Reaping a trashed connection keeps the accounts. *)
Lemma accounted_trashcan_reap ep0 id s :
  accounted s → accounted (trashcan_reap ep0 id s).
Proof.
  intros Hacc. unfold trashcan_reap. case_bool_decide as Hin; [|done].
  assert (id ∈ collection_of s ep0 ++ trash_of s ep0) as Hin'
    by (apply elem_of_app; by right).
  destruct (Hacc ep0) as (_ & Hids0 & _).
  destruct (Hids0 id Hin') as (Hlt & c & Hc & Hep).
  destruct (accounted_counter s ep0 id Hacc Hin') as (n & Hn & Hnval).
  set (s1 := with_trashcan
               (<[ep0 := filter (λ x, x ≠ id) (trash_of s ep0)]> (_trashcan s)) s).
  assert (deref s1 id = Some c) as Hc1 by done.
  destruct (free_connection_store id c s1 Hc1) as (_ & Hpool & Htr & Hstore).
  assert (_connection_counters (free_connection (Some id) s1)
          = <[ep0 := n - 1]> (_connection_counters s)) as Hcounters.
  { unfold free_connection, try_get. rewrite Hc1. cbn. rewrite Hep.
    by rewrite Hn. }
  intros ep. destruct (Hacc ep) as (Hnodup & Hids & Hcount).
  rewrite collection_of_free_connection.
  change (collection_of s1 ep) with (collection_of s ep).
  unfold trash_of at 1 2 3, counter_of. rewrite Htr, Hcounters. cbn.
  assert (∀ x, x ∈ collection_of s ep ++ trash_of s ep →
            (x < client_callback_calls (free_connection (Some id) s1))%N
            ∧ ∃ c', deref (free_connection (Some id) s1) x = Some c'
                    ∧ conn_endpoint c' = ep) as Hids'.
  { intros x Hx. destruct (Hids x Hx) as (Hxlt & cx & Hcx & Hxep).
    split.
    { by destruct (outside_pool_free_connection (Some id) s1)
        as (_ & _ & _ & -> & _). }
    unfold deref in *. rewrite Hstore. cbn.
    destruct (decide (id = x)) as [<-|Hne].
    - rewrite lookup_alter_eq, Hcx. cbn. by eexists.
    - rewrite lookup_alter_ne by done. by eexists. }
  destruct (decide (ep = ep0)) as [->|Hne].
  - rewrite !lookup_insert_eq. cbn.
    apply NoDup_app in Hnodup as (Hn1 & Hn2 & Hn3).
    split; [|split].
    + apply NoDup_app. split; [done|]. split; [|by apply NoDup_filter].
      intros x Hx Hx'. apply list_elem_of_filter in Hx' as [_ Hx'].
      by apply (Hn2 x).
    + intros x Hx. apply Hids'. rewrite elem_of_app in *.
      destruct Hx as [?|Hx]; [by left|right].
      by apply list_elem_of_filter in Hx as [_ Hx].
    + rewrite !length_app in *.
      pose proof (length_filter_other id _ Hn3 Hin). lia.
  - rewrite !lookup_insert_ne by done. fold (trash_of s ep).
    split; [done|]. split; [done|]. exact Hcount.
Qed.

Lemma accounted_policy_hands_out plan s :
  accounted s → accounted (policy_hands_out plan s).
Proof. intros Hacc. by apply (accounted_same_accounts s). Qed.

Lemma accounted_network_answers dial s :
  accounted s → accounted (network_answers dial s).
Proof. intros Hacc. by apply (accounted_same_accounts s). Qed.

(** X23. In every session a program can reach (a new session, then [init],
    [get_connection], [query] and [prepare] in both flavours, [execute] and
    [close] in any order, with the policy handing out other plans,
    endpoints starting and ceasing to answer dials, the trashcan reaping
    trashed connections, connections failing and streams being released in
    between) the accounts are in order: for
    every endpoint the pooled and the trashed connections are distinct,
    each is a connection to that endpoint made by [_client_callback], and
    the endpoint's counter is exactly their number; in particular no
    counter is negative. *)
Theorem reachable_accounted s :
  reachable s →
  accounted s
  ∧ ∀ ep, counter_of s ep
          = Z.of_nat (length (collection_of s ep) + length (trash_of s ep))
          ∧ 0 ≤ counter_of s ep.
Proof.
  intros Hreach.
  assert (accounted s) as Hacc.
  { induction Hreach as [callback_set cfg dial|s _ IH|s _ IH|q s _ IH|q s _ IH
                        |q s _ IH|q s _ IH|m s _ IH|m s _ IH|s _ IH
                        |plan s _ IH|dial s _ IH|ep id s _ IH|id s _ IH
                        |id stream s _ IH].
    - apply accounted_new_session.
    - by apply accounted_init.
    - by apply accounted_connect.
    - by apply accounted_query.
    - by apply accounted_query.
    - by apply accounted_execute_operation.
    - by apply accounted_execute_operation.
    - by apply accounted_execute.
    - by apply accounted_execute_callback.
    - by apply accounted_close.
    - by apply accounted_policy_hands_out.
    - by apply accounted_network_answers.
    - by apply accounted_trashcan_reap.
    - by apply (accounted_same_accounts _ _ IH), same_accounts_update_connection.
    - apply (accounted_same_accounts _ _ IH), same_accounts_update_connection.
      intros c. by destruct stream. }
  split; [done|]. intros ep. destruct (Hacc ep) as (_ & _ & ->).
  rewrite length_app. split; [done|lia].
Qed.

Lemma reachable_accounted_witness :
  (counter_of two_hosts_contacted Fixture.ep1
   = Z.of_nat (length (collection_of two_hosts_contacted Fixture.ep1)
               + length (trash_of two_hosts_contacted Fixture.ep1))
   ∧ 0 ≤ counter_of two_hosts_contacted Fixture.ep1)
  ∧ (counter_of two_hosts_contacted Fixture.ep2
     = Z.of_nat (length (collection_of two_hosts_contacted Fixture.ep2)
                 + length (trash_of two_hosts_contacted Fixture.ep2))
     ∧ 0 ≤ counter_of two_hosts_contacted Fixture.ep2)
  ∧ collection_of two_hosts_contacted Fixture.ep1 = [0%N]
  ∧ collection_of two_hosts_contacted Fixture.ep2 = [1%N].
Proof.
  assert (reachable two_hosts_contacted) as Hreach.
  { apply reachable_get_connection, reachable_policy_hands_out,
      reachable_get_connection, reachable_new. }
  split; [exact (proj2 (reachable_accounted two_hosts_contacted Hreach) Fixture.ep1)|].
  split; [exact (proj2 (reachable_accounted two_hosts_contacted Hreach) Fixture.ep2)|].
  split; vm_compute; reflexivity.
Defined.

(** X25. [try_find_free_stream] keeps the accounts: each unhealthy
    connection it evicts lowers the counter of its endpoint by one, each
    connection it moves to the trashcan is counted there instead, so that
    afterwards, as before, every endpoint's counter is the number of its
    pooled and trashed connections. *)
Theorem try_find_free_stream_keeps_accounts host connections s :
  accounted s →
  accounted (try_find_free_stream host connections s).2
  ∧ ∀ ep, counter_of (try_find_free_stream host connections s).2 ep
          = Z.of_nat
              (length (collection_of (try_find_free_stream host connections s).2 ep)
               + length (trash_of (try_find_free_stream host connections s).2 ep)).
Proof.
  intros Hacc.
  assert (accounted (try_find_free_stream host connections s).2) as Hacc'
    by (by apply accounted_try_find_free_stream_loop).
  split; [done|]. intros ep. destruct (Hacc' ep) as (_ & _ & ->).
  by rewrite length_app.
Qed.

Lemma try_find_free_stream_keeps_accounts_witness :
  counter_of (try_find_free_stream Fixture.host1 Fixture.ep1
                (connection_fails 0%N (Fixture.saturated 2))).2 Fixture.ep1
  = Z.of_nat
      (length (collection_of
                 (try_find_free_stream Fixture.host1 Fixture.ep1
                    (connection_fails 0%N (Fixture.saturated 2))).2 Fixture.ep1)
       + length (trash_of
                   (try_find_free_stream Fixture.host1 Fixture.ep1
                      (connection_fails 0%N (Fixture.saturated 2))).2
                   Fixture.ep1)).
Proof.
  refine (proj2 (try_find_free_stream_keeps_accounts Fixture.host1 Fixture.ep1
                   (connection_fails 0%N (Fixture.saturated 2)) _) Fixture.ep1).
  apply (accounted_same_accounts (Fixture.saturated 2)).
  - apply accounted_connect, accounted_connect, accounted_new_session.
  - by apply same_accounts_update_connection.
Defined.

Lemma accounted_free_connections connections ids s s' :
  accounted s →
  free_connections connections ids s = Some s' →
  accounted s'.
Proof.
  revert s. induction ids as [|id ids IH]; intros s Hacc; [by intros [= <-]|].
  cbn [free_connections].
  pose proof (free_connections_step connections id s) as Hstep.
  destruct (free_connections_erase _ _ _ _ _) as [[conn s1]|]; [|done].
  rewrite Hstep. apply IH. by apply accounted_try_remove_connection.
Qed.

(** X24. [free_connections] keeps the accounts: in a session whose accounts
    are in order, the counter of the collection's endpoint goes down by
    exactly the number of connections that leave the collection, and the
    accounts are in order afterwards. *)
Theorem free_connections_keeps_accounts connections ids s s' :
  accounted s →
  free_connections connections ids s = Some s' →
  accounted s'
  ∧ counter_of s' connections
    = counter_of s connections
      - Z.of_nat (length (collection_of s connections))
      + Z.of_nat (length (collection_of s' connections)).
Proof.
  intros Hacc Hfree.
  pose proof (accounted_free_connections _ _ _ _ Hacc Hfree) as Hacc'.
  split; [done|].
  destruct (Hacc connections) as (_ & _ & ->).
  destruct (Hacc' connections) as (_ & _ & ->).
  assert (trash_of s' connections = trash_of s connections) as Htrash.
  { clear Hacc Hacc'. revert s Hfree.
    induction ids as [|id ids IH]; intros s; [by intros [= <-]|].
    cbn [free_connections].
    pose proof (free_connections_step connections id s) as Hstep.
    destruct (free_connections_erase _ _ _ _ _) as [[conn s1]|]; [|done].
    rewrite Hstep. intros Hfree. rewrite (IH _ Hfree).
    unfold trash_of, try_remove_connection. rewrite collection_try_erase_eq.
    destruct (bool_decide _); [|done].
    set (s2 := set_collection connections _ s).
    destruct (deref s2 id) as [c|] eqn:Hc.
    - by destruct (free_connection_store id c s2 Hc) as (_ & _ & -> & _).
    - unfold free_connection. by rewrite Hc. }
  rewrite !length_app, Htrash. lia.
Qed.

Lemma free_connections_keeps_accounts_witness :
  counter_of (default (Fixture.saturated 2)
                (free_connections Fixture.ep1 [1%N; 7%N] (Fixture.saturated 2)))
             Fixture.ep1
  = counter_of (Fixture.saturated 2) Fixture.ep1
    - Z.of_nat (length (collection_of (Fixture.saturated 2) Fixture.ep1))
    + Z.of_nat
        (length
           (collection_of
              (default (Fixture.saturated 2)
                 (free_connections Fixture.ep1 [1%N; 7%N] (Fixture.saturated 2)))
              Fixture.ep1)).
Proof.
  refine (proj2 (free_connections_keeps_accounts Fixture.ep1 [1%N; 7%N]
                   (Fixture.saturated 2) _ _ _)).
  - apply accounted_connect, accounted_connect, accounted_new_session.
  - vm_compute. reflexivity.
Defined.

(** ** [size] and [empty] *)

Lemma size_zero_iff (l : list (cql_endpoint_t * list N)) :
  foldr (λ host_it connections_count,
           (connections_count + length host_it.2)%nat) 0%nat l = 0%nat
  ↔ ∀ host_it, host_it ∈ l → host_it.2 = [].
Proof.
  induction l as [|x l IH]; cbn.
  - split; [intros _ ? ?%elem_of_nil; done | done].
  - split.
    + intros Hsum host_it Hin. apply elem_of_cons in Hin as [->|Hin].
      * apply length_zero_iff_nil. lia.
      * apply IH; [lia|done].
    + intros Hall. rewrite (Hall x) by apply list_elem_of_here. cbn.
      rewrite Nat.add_0_r. apply IH. intros host_it Hin.
      by apply Hall, list_elem_of_further.
Qed.

(** X13. [empty] answers true exactly when no endpoint has a connection in
    its collection, and [size] is 0 exactly then; collections that are in
    the pool but hold no connection do not count. *)
Theorem empty_iff_no_pooled_connection s :
  (empty s = true ↔ ∀ ep, collection_of s ep = [])
  ∧ (size s = 0%nat ↔ ∀ ep, collection_of s ep = []).
Proof.
  assert (size s = 0%nat ↔ ∀ ep, collection_of s ep = []) as Hsize.
  { unfold size. rewrite size_zero_iff. split.
    - intros Hall ep. unfold collection_of.
      destruct (_connection_pool s !! ep) as [c|] eqn:Hc; [|done].
      apply (Hall (ep, c)). by apply elem_of_map_to_list.
    - intros Hall [ep c] Hin. apply elem_of_map_to_list in Hin.
      specialize (Hall ep). unfold collection_of in Hall.
      by rewrite Hin in Hall. }
  split; [|done]. unfold empty. rewrite bool_decide_eq_true. exact Hsize.
Qed.
